(** * gorm-tool: the GORM tag validation engine of [server/src/parser.ts]
      and the diagnostic cap of [server/src/server.ts].

    The TypeScript functions are embedded as Rocq functions of the same
    names.  A JavaScript string is a [string]: a sequence of code units,
    here the code units below 256.  The array [diagnostics] is only ever
    pushed to, so every function that receives it returns the diagnostics
    it pushes, in push order, and its caller appends them.  The [Map]
    [columnValues] is a [gmap]; the [Set] [keys] and the [Map] [indexNames]
    are iterated by the source, in insertion order, and are kept as
    insertion-ordered lists. *)

From Stdlib Require Import ZArith Lia Bool Ascii String List.
From stdpp Require Import base gmap strings list.
Import ListNotations.

Local Open Scope Z_scope.

(** ** JavaScript string primitives used by the parser *)

Module Js.

Definition code (c : ascii) : nat := nat_of_ascii c.

(** White space of [String.prototype.trim] and of the regular expression
    class [\s], among the code units below 256. *)
Definition isSpace (c : ascii) : bool :=
  let n := code c in
  ((9 <=? n) && (n <=? 13) || (n =? 32) || (n =? 160))%nat.

(** [\d] and [\w]. *)
Definition isDigit (c : ascii) : bool :=
  let n := code c in ((48 <=? n) && (n <=? 57))%nat.

Definition isWord (c : ascii) : bool :=
  let n := code c in
  ((48 <=? n) && (n <=? 57) || (65 <=? n) && (n <=? 90)
   || (97 <=? n) && (n <=? 122) || (n =? 95))%nat.

(** [toLowerCase] on one code unit: A-Z, and the upper-case letters of
    Latin-1 (192-222 without the multiplication sign 215). *)
Definition lowerChar (c : ascii) : ascii :=
  let n := code c in
  if ((65 <=? n) && (n <=? 90)
      || (192 <=? n) && (n <=? 222) && negb (n =? 215))%nat
  then ascii_of_nat (n + 32) else c.

Fixpoint toLowerCase (s : string) : string :=
  match s with
  | EmptyString => EmptyString
  | String c s' => String (lowerChar c) (toLowerCase s')
  end.

Fixpoint trimStart (s : string) : string :=
  match s with
  | String c s' => if isSpace c then trimStart s' else s
  | EmptyString => EmptyString
  end.

(** [trimEnd]: a code unit is kept when it is not white space or when
    something is kept after it. *)
Fixpoint trimEnd (s : string) : string :=
  match s with
  | EmptyString => EmptyString
  | String c s' =>
      match trimEnd s' with
      | EmptyString => if isSpace c then EmptyString else String c EmptyString
      | t => String c t
      end
  end.

Definition trim (s : string) : string := trimEnd (trimStart s).

(** [s.trim().length === 0] *)
Definition isBlank (s : string) : bool := String.eqb (trim s) "".

(** A string is truthy when it is not empty. *)
Definition truthy (s : string) : bool := negb (String.eqb s "").

Fixpoint startsWith (s p : string) {struct p} : bool :=
  match p with
  | EmptyString => true
  | String a p' =>
      match s with
      | String b s' => Ascii.eqb a b && startsWith s' p'
      | EmptyString => false
      end
  end.

(** [s.indexOf(p)], counted from [from]; [-1] when [p] does not occur. *)
Fixpoint indexOfFrom (from : Z) (s p : string) : Z :=
  if startsWith s p then from
  else match s with
       | EmptyString => -1
       | String _ s' => indexOfFrom (from + 1) s' p
       end.

Definition indexOf (s p : string) : Z := indexOfFrom 0 s p.

Definition includes (s p : string) : bool := negb (indexOf s p =? -1).

(** [s.substring(a)] and [s.substring(a, b)] for [0 <= a <= b]. *)
Fixpoint drop (n : nat) (s : string) : string :=
  match n, s with
  | O, _ => s
  | S n', String _ s' => drop n' s'
  | S _, EmptyString => EmptyString
  end.

Fixpoint take (n : nat) (s : string) : string :=
  match n, s with
  | S n', String c s' => String c (take n' s')
  | _, _ => EmptyString
  end.

Definition substringFrom (s : string) (a : Z) : string :=
  drop (Z.to_nat a) s.

Definition substring (s : string) (a b : Z) : string :=
  take (Z.to_nat (b - a)) (drop (Z.to_nat a) s).

(** [s.split(sep)] for a separator of one code unit: never empty. *)
Fixpoint split (sep : ascii) (s : string) : list string :=
  match s with
  | EmptyString => [EmptyString]
  | String c s' =>
      if Ascii.eqb c sep then EmptyString :: split sep s'
      else match split sep s' with
           | p :: ps => String c p :: ps
           | [] => [String c EmptyString]
           end
  end.

(** [parts.join(sep)] *)
Fixpoint join (sep : string) (l : list string) : string :=
  match l with
  | [] => ""
  | [x] => x
  | x :: l' => x +:+ sep +:+ join sep l'
  end.

(** [/^\d+$/.test(s)] *)
Fixpoint allDigits (s : string) : bool :=
  match s with
  | EmptyString => true
  | String c s' => isDigit c && allDigits s'
  end.

Definition isDigits (s : string) : bool := truthy s && allDigits s.

(** Decimal rendering of a count, as a template literal renders it. *)
Definition digitChar (n : nat) : ascii := ascii_of_nat (48 + n).

Fixpoint decimalAux (fuel n : nat) (acc : string) : string :=
  match fuel with
  | O => acc
  | S f =>
      let acc' := String (digitChar (n mod 10)) acc in
      if (n <? 10)%nat then acc' else decimalAux f (n / 10) acc'
  end.

Definition decimal (n : nat) : string := decimalAux (S n) n "".

End Js.

(** ** Data model ([types.ts]) *)

Module GormTag.
Record t := mk { name : string; type : string; gormTag : string }.
End GormTag.

Module GoStruct.
Record t := mk { name : string; fields : list GormTag.t }.
End GoStruct.

Inductive Level := Error | Warning.

Record GormDiagnostic := mkDiagnostic {
  structName : string;
  fieldName : string;
  tag : string;
  message : string;
  level : Level;
  errorTag : option string
}.

Definition Level_eqb (a b : Level) : bool :=
  match a, b with
  | Error, Error | Warning, Warning => true
  | _, _ => false
  end.

(** ** The [Set] of keys seen so far in one field, in insertion order *)

Definition setHas (keys : list string) (k : string) : bool :=
  existsb (String.eqb k) keys.

Definition setAdd (keys : list string) (k : string) : list string :=
  if setHas keys k then keys else keys ++ [k].

(** [array.includes(x)] on an array of strings *)
Definition arrayIncludes (l : list string) (x : string) : bool :=
  existsb (String.eqb x) l.

(** ** isValidGormKey *)

Record KeyValidation := { valid : bool; recommended : bool }.

Definition generalTags : list string :=
  ["column"; "type"; "size"; "primarykey"; "autoincrement"; "not null";
   "default"; "unique"; "embedded"; "embeddedprefix"; "-"].
Definition indexConstraintTags : list string :=
  ["index"; "uniqueindex"; "priority"; "check"; "constraint"].
Definition timeTags : list string := ["autocreatetime"; "autoupdatetime"].
Definition precisionTags : list string :=
  ["precision"; "scale"; "autoincrementincrement"].
Definition permissionTags : list string := ["<-"; "->"; "comment"].
Definition serializerTags : list string := ["serializer"].
Definition indexOptions : list string :=
  ["sort"; "length"; "class"; "where"; "option"; "composite"].
Definition relationTags : list string :=
  ["foreignkey"; "references"; "many2many"; "joinforeignkey";
   "joinreferences"; "polymorphic"; "polymorphicvalue"].
Definition deprecatedAssociationTags : list string :=
  ["association_foreignkey"; "associationforeignkey";
   "associationreferences"; "joincolumn"; "associationjoincolumn"].
Definition deprecatedTags : list string :=
  ["primary_key"; "foreign_key"; "association_foreign_key";
   "association_save_reference"; "auto_create_time"; "auto_update_time";
   "foreignkey_tag"; "association_foreignkey_tag"].

Definition isValidGormKey (key : string) : KeyValidation :=
  let lowerKey := Js.toLowerCase key in
  if arrayIncludes generalTags lowerKey
     || arrayIncludes indexConstraintTags lowerKey
     || arrayIncludes timeTags lowerKey
     || arrayIncludes precisionTags lowerKey
     || arrayIncludes permissionTags lowerKey
     || arrayIncludes serializerTags lowerKey
     || arrayIncludes indexOptions lowerKey
  then {| valid := true; recommended := true |}
  else if arrayIncludes relationTags lowerKey
  then {| valid := true; recommended := false |}
  else if arrayIncludes deprecatedTags lowerKey
  then {| valid := true; recommended := false |}
  else if arrayIncludes deprecatedAssociationTags lowerKey
  then {| valid := false; recommended := false |}
  else {| valid := false; recommended := false |}.

(** ** checkQuoteClosure *)

Record QuoteCheck := {
  hasError : bool;
  quoteType : option string;
  quoteMessage : option string
}.

Record QuoteScan := {
  singleQuoteCount : nat;
  doubleQuoteCount : nat;
  inSingleQuote : bool;
  inDoubleQuote : bool
}.

Definition quoteScanStart : QuoteScan :=
  {| singleQuoteCount := 0; doubleQuoteCount := 0;
     inSingleQuote := false; inDoubleQuote := false |}.

Definition singleQuote : ascii := "'"%char.
Definition doubleQuote : ascii := ascii_of_nat 34.
Definition backslash : ascii := "\"%char.

(** [value[i]], [None] past the end. *)
Definition charAt (value : string) (i : nat) : option ascii := String.get i value.

(** [i === 0 || value[i - 1] !== '\\'] *)
Definition notEscaped (value : string) (i : nat) : bool :=
  (i =? 0)%nat
  || match charAt value (i - 1) with
     | Some c => negb (Ascii.eqb c backslash)
     | None => true
     end.

(** One turn of the [while] loop, at index [i]. *)
Definition quoteStep (value : string) (i : nat) (q : QuoteScan) : QuoteScan :=
  match charAt value i with
  | None => q
  | Some char =>
      if Ascii.eqb char singleQuote && negb (inDoubleQuote q) then
        if notEscaped value i then
          {| singleQuoteCount := S (singleQuoteCount q);
             doubleQuoteCount := doubleQuoteCount q;
             inSingleQuote := negb (inSingleQuote q);
             inDoubleQuote := inDoubleQuote q |}
        else q
      else if Ascii.eqb char doubleQuote && negb (inSingleQuote q) then
        if notEscaped value i then
          {| singleQuoteCount := singleQuoteCount q;
             doubleQuoteCount := S (doubleQuoteCount q);
             inSingleQuote := inSingleQuote q;
             inDoubleQuote := negb (inDoubleQuote q) |}
        else q
      else q
  end.

(** The loop [while (i < value.length) { ...; i++ }]: [n] turns are left,
    the next index is [i]. *)
Fixpoint quoteLoop (value : string) (n i : nat) (q : QuoteScan) : QuoteScan :=
  match n with
  | O => q
  | S n' => quoteLoop value n' (S i) (quoteStep value i q)
  end.

Definition quoteScan (value : string) : QuoteScan :=
  quoteLoop value (String.length value) 0 quoteScanStart.

Definition checkQuoteClosure (value : string) : QuoteCheck :=
  let q := quoteScan value in
  if negb (singleQuoteCount q mod 2 =? 0)%nat then
    {| hasError := true; quoteType := Some "single";
       quoteMessage := Some ("Found " +:+ Js.decimal (singleQuoteCount q)
         +:+ " single quotes, expected even number for proper closure.") |}
  else if negb (doubleQuoteCount q mod 2 =? 0)%nat then
    {| hasError := true; quoteType := Some "double";
       quoteMessage := Some ("Found " +:+ Js.decimal (doubleQuoteCount q)
         +:+ " double quotes, expected even number for proper closure.") |}
  else {| hasError := false; quoteType := None; quoteMessage := None |}.

(** A template literal renders an absent property as [undefined]. *)
Definition render (o : option string) : string :=
  match o with Some s => s | None => "undefined" end.

(** ** validateTagValue *)

(** [originalKey || key] *)
Definition orKey (originalKey key : string) : string :=
  if Js.truthy originalKey then originalKey else key.

(** [!value || value.trim().length === 0] *)
Definition missing (value : string) : bool :=
  negb (Js.truthy value) || Js.isBlank value.

(** [if (cond) diagnostics.push({...})] *)
Definition pushIf (cond : bool) (d : GormDiagnostic) : list GormDiagnostic :=
  if cond then [d] else [].

Definition validSerializers : list string := ["json"; "gob"; "unixtime"].
Definition validSortOptions : list string := ["asc"; "desc"].
Definition validConstraintOptions : list string := ["onupdate"; "ondelete"].
Definition validIgnoreOptions : list string := [""; "all"; "migration"].

(** [const [option] = part.split(':')] *)
Definition firstOf (l : list string) : string :=
  match l with x :: _ => x | [] => "" end.

Definition validateTagValue (key value structName fieldName tag originalKey : string)
  : list GormDiagnostic :=
  let diag msg lvl :=
    mkDiagnostic structName fieldName tag msg lvl (Some (orKey originalKey key)) in
  let positive what label :=
    pushIf (Js.truthy value && negb (Js.isDigits value))
      (diag ("Invalid " +:+ what +:+ " value '" +:+ value +:+ "'. " +:+ label
             +:+ " must be a positive integer.") Error) in
  if String.eqb key "size" then positive "size" "Size"
  else if String.eqb key "precision" then positive "precision" "Precision"
  else if String.eqb key "scale" then positive "scale" "Scale"
  else if String.eqb key "autoincrementincrement" then
    pushIf (Js.truthy value && negb (Js.isDigits value))
      (diag ("Invalid autoIncrementIncrement value '" +:+ value
             +:+ "'. Must be a positive integer.") Error)
  else if String.eqb key "type" then
    pushIf (missing value) (diag "Type tag requires a value." Error)
  else if String.eqb key "column" then
    pushIf (missing value) (diag "Column tag requires a column name." Error)
  else if String.eqb key "check" then
    pushIf (missing value) (diag "Check constraint requires a condition." Error)
  else if String.eqb key "comment" then
    if missing value then
      [diag "Comment tag requires a comment text." Warning]
    else
      let hasUnmatchedQuotes := checkQuoteClosure value in
      pushIf (hasError hasUnmatchedQuotes)
        (diag ("Comment value has unmatched "
               +:+ render (quoteType hasUnmatchedQuotes) +:+ " quotes. "
               +:+ render (quoteMessage hasUnmatchedQuotes)) Error)
      ++ pushIf (Js.includes value (String singleQuote "")
                 && Js.includes value (String doubleQuote ""))
        (diag "Comment value contains both single and double quotes. Consider using consistent quote style or proper escaping." Warning)
  else if String.eqb key "default" then
    pushIf (Js.truthy value && Js.includes value (String singleQuote "")
            && Js.includes value (String doubleQuote ""))
      (diag "Default value should use consistent quote style." Warning)
  else if String.eqb key "serializer" then
    pushIf (Js.truthy value
            && negb (arrayIncludes validSerializers (Js.toLowerCase value)))
      (diag ("Invalid serializer '" +:+ value +:+ "'. Valid options: "
             +:+ Js.join ", " validSerializers +:+ ".") Error)
  else if String.eqb key "sort" then
    pushIf (Js.truthy value
            && negb (arrayIncludes validSortOptions (Js.toLowerCase value)))
      (diag ("Invalid sort value '" +:+ value +:+ "'. Valid options: "
             +:+ Js.join ", " validSortOptions +:+ ".") Error)
  else if String.eqb key "length" then positive "length" "Length"
  else if String.eqb key "priority" then positive "priority" "Priority"
  else if String.eqb key "autocreatetime" || String.eqb key "autoupdatetime" then
    pushIf (Js.truthy value
            && negb (arrayIncludes [""; "nano"; "milli"] (Js.toLowerCase value)))
      (diag ("Invalid time precision '" +:+ value
             +:+ "'. Valid options: '', 'nano', 'milli'.") Error)
  else if String.eqb key "<-" then
    pushIf (Js.truthy value
            && negb (arrayIncludes ["create"; "update"; "false"] (Js.toLowerCase value)))
      (diag ("Invalid write permission '" +:+ value
             +:+ "'. Valid options: 'create', 'update', 'false'.") Error)
  else if String.eqb key "->" then
    pushIf (Js.truthy value && negb (String.eqb (Js.toLowerCase value) "false"))
      (diag ("Invalid read permission '" +:+ value
             +:+ "'. Valid option: 'false'.") Error)
  else if String.eqb key "foreignkey" then
    pushIf (missing value) (diag "ForeignKey tag requires a field name." Error)
  else if String.eqb key "references" then
    pushIf (missing value) (diag "References tag requires a field name." Error)
  else if String.eqb key "many2many" then
    pushIf (missing value) (diag "Many2many tag requires a table name." Error)
  else if String.eqb key "joinforeignkey" || String.eqb key "joinreferences" then
    pushIf (missing value) (diag (key +:+ " tag requires a field name.") Error)
  else if String.eqb key "embeddedprefix" then
    pushIf (missing value)
      (diag "EmbeddedPrefix tag requires a prefix value." Warning)
  else if String.eqb key "constraint" then
    if missing value then
      [diag "Constraint tag requires constraint options (e.g., OnUpdate:CASCADE,OnDelete:SET NULL)." Error]
    else
      let constraintParts := Js.split ","%char (Js.toLowerCase value) in
      flat_map (fun part =>
        let option := firstOf (Js.split ":"%char part) in
        pushIf (Js.truthy option
                && negb (arrayIncludes validConstraintOptions (Js.trim option)))
          (diag ("Invalid constraint option '" +:+ option
                 +:+ "'. Valid options: OnUpdate, OnDelete.") Warning))
        constraintParts
  else if String.eqb key "-" then
    pushIf (Js.truthy value
            && negb (arrayIncludes validIgnoreOptions (Js.toLowerCase value)))
      (diag ("Invalid ignore option '" +:+ value +:+ "'. Valid options: "
             +:+ Js.join ", " validIgnoreOptions +:+ ".") Error)
  else [].

(** ** validateTagCombinations *)

Definition msgImpliesUnique : string :=
  "'primaryKey' automatically implies uniqueness. Remove 'unique' tag.".
Definition msgImpliesNotNull : string :=
  "'primaryKey' automatically implies 'not null'. Remove 'not null' tag.".
Definition msgTimeTracking : string :=
  "Field has both creation and update time tracking. Ensure this is intentional.".
Definition msgIndexBoth : string :=
  "Field has both 'index' and 'uniqueIndex'. Consider using only 'uniqueIndex'.".
Definition msgForeignKeyPairing : string :=
  "'foreignKey' should be used together with 'references' for proper relationship definition.".
Definition msgMany2many : string :=
  "'many2many' cannot be used with 'foreignKey' or 'references'. Use association struct instead.".
Definition msgEmbeddedColumn : string :=
  "'embedded' fields expand into multiple columns, 'column' tag is not applicable.".

Definition validateTagCombinations (keys : list string)
  (currentKey structName fieldName tag originalKey : string) : list GormDiagnostic :=
  let diag msg lvl :=
    mkDiagnostic structName fieldName tag msg lvl
      (Some (orKey originalKey currentKey)) in
  (if String.eqb currentKey "primarykey" then
     pushIf (setHas keys "unique") (diag msgImpliesUnique Warning)
     ++ pushIf (setHas keys "not null") (diag msgImpliesNotNull Warning)
   else [])
  ++ pushIf (setHas keys "-" && (1 <? length keys)%nat)
       (let otherTags := List.filter (fun k => negb (String.eqb k "-")) keys in
        diag ("Field marked as ignored ('-') cannot have other tags: "
              +:+ Js.join ", " otherTags +:+ ". Remove conflicting tags.") Error)
  ++ (let foundPermissionTags := List.filter (setHas keys) ["<-"; "->"; "-"] in
      pushIf (1 <? length foundPermissionTags)%nat
        (diag ("Conflicting permission tags: " +:+ Js.join ", " foundPermissionTags
               +:+ ". Use only one permission control tag.") Error))
  ++ pushIf (setHas keys "autocreatetime" && setHas keys "autoupdatetime"
             && String.eqb currentKey "autoupdatetime")
       (diag msgTimeTracking Warning)
  ++ pushIf (setHas keys "index" && setHas keys "uniqueindex")
       (diag msgIndexBoth Warning)
  ++ pushIf (setHas keys "foreignkey" && negb (setHas keys "references"))
       (diag msgForeignKeyPairing Warning)
  ++ pushIf (setHas keys "many2many"
             && (setHas keys "foreignkey" || setHas keys "references"))
       (diag msgMany2many Error)
  ++ pushIf (setHas keys "embedded" && setHas keys "column")
       (diag msgEmbeddedColumn Error).

(** ** validateFieldLevelRules: the loop body is empty, nothing is pushed. *)
Definition validateFieldLevelRules (keys : list string)
  (structName fieldName tag : string) : list GormDiagnostic := [].

(** ** validateGormTags *)

(** What one struct's pass keeps besides the diagnostics. *)
Record StructState := mkState {
  columnValues : gmap string string;
  primaryKeyFields : list string;
  indexNames : list (string * list string);
  hasGormTags : bool
}.

Definition initialState : StructState :=
  {| columnValues := ∅; primaryKeyFields := []; indexNames := [];
     hasGormTags := false |}.

(** [if (!indexNames.has(value)) indexNames.set(value, []);
     indexNames.get(value)!.push(fieldName)]: a new name goes last. *)
Fixpoint indexPush (m : list (string * list string)) (value fieldName : string)
  : list (string * list string) :=
  match m with
  | [] => [(value, [fieldName])]
  | (k, fs) :: m' =>
      if String.eqb k value then (k, fs ++ [fieldName]) :: m'
      else (k, fs) :: indexPush m' value fieldName
  end.

(** [field.gormTag.split(';').map(part => part.trim()).filter(part => part.length > 0)] *)
Definition tagParts (gormTag : string) : list string :=
  List.filter (fun part => (0 <? String.length part)%nat)
    (map Js.trim (Js.split ";"%char gormTag)).

Definition partKey (part : string) : string :=
  let colonIndex := Js.indexOf part ":" in
  if 0 <? colonIndex then Js.trim (Js.substring part 0 colonIndex)
  else Js.trim part.

Definition partValue (part : string) : string :=
  let colonIndex := Js.indexOf part ":" in
  if 0 <? colonIndex then Js.trim (Js.substringFrom part (colonIndex + 1))
  else "".

Definition msgDuplicateKey (key : string) : string :=
  "Duplicate GORM tag key '" +:+ key +:+ "' in field".
Definition msgPrimaryKeyUnique : string :=
  "'primaryKey' and 'unique' cannot be used together".
Definition msgUniquePrimaryKey : string :=
  "'unique' and 'primaryKey' cannot be used together".
Definition msgDuplicateColumn (value existingFieldName : string) : string :=
  "Duplicate column name '" +:+ value +:+ "' already used by field '"
  +:+ existingFieldName
  +:+ "'. Each column name must be unique within the struct.".
Definition msgUnknownTag (key : string) : string :=
  "Unknown GORM tag '" +:+ key +:+ "'. Check GORM documentation for valid tags.".
Definition msgNotRecommended (key : string) : string :=
  "GORM tag '" +:+ key
  +:+ "' is deprecated or not recommended. Consider using alternative approaches.".
Definition msgMultiplePrimaryKeys : string :=
  "Multiple primary keys found in struct. Only one primary key is allowed.".
Definition msgIndexShared (indexName : string) (fieldsUsingIndex : list string)
  : string :=
  "Index '" +:+ indexName +:+ "' is used by multiple fields: "
  +:+ Js.join ", " fieldsUsingIndex
  +:+ ". Ensure this is intended for composite index.".

(** The body of [for (const part of tagParts)]: the diagnostics pushed, the
    keys seen and the struct's state after this part. *)
Definition processPart (struct : GoStruct.t) (field : GormTag.t)
  (keys : list string) (st : StructState) (part : string)
  : list GormDiagnostic * (list string * StructState) :=
  let key := partKey part in
  let value := partValue part in
  let lowerKey := Js.toLowerCase key in
  let diag msg lvl :=
    mkDiagnostic (GoStruct.name struct) (GormTag.name field)
      (GormTag.gormTag field) msg lvl (Some key) in
  let dDuplicate := pushIf (setHas keys lowerKey) (diag (msgDuplicateKey key) Error) in
  let keys' := setAdd keys lowerKey in
  let primaryKeyFields' :=
    if String.eqb lowerKey "primarykey"
    then primaryKeyFields st ++ [GormTag.name field] else primaryKeyFields st in
  let dConflict :=
    pushIf (String.eqb lowerKey "primarykey" && setHas keys' "unique")
      (diag msgPrimaryKeyUnique Error)
    ++ pushIf (String.eqb lowerKey "unique" && setHas keys' "primarykey")
      (diag msgUniquePrimaryKey Error) in
  let '(dColumn, columnValues') :=
    if String.eqb lowerKey "column" && Js.truthy value then
      match columnValues st !! value with
      | Some existingFieldName =>
          ([diag (msgDuplicateColumn value existingFieldName) Error],
           columnValues st)
      | None => ([], <[value := GormTag.name field]> (columnValues st))
      end
    else ([], columnValues st) in
  let indexNames' :=
    if (String.eqb lowerKey "index" || String.eqb lowerKey "uniqueindex")
       && Js.truthy value
    then indexPush (indexNames st) value (GormTag.name field)
    else indexNames st in
  let keyValidation := isValidGormKey lowerKey in
  let dValidity :=
    if negb (valid keyValidation) then [diag (msgUnknownTag key) Error]
    else if negb (recommended keyValidation)
    then [diag (msgNotRecommended key) Warning]
    else [] in
  (dDuplicate ++ dConflict ++ dColumn ++ dValidity
   ++ validateTagValue lowerKey value (GoStruct.name struct)
        (GormTag.name field) (GormTag.gormTag field) key
   ++ validateTagCombinations keys' lowerKey (GoStruct.name struct)
        (GormTag.name field) (GormTag.gormTag field) key,
   (keys',
    {| columnValues := columnValues'; primaryKeyFields := primaryKeyFields';
       indexNames := indexNames'; hasGormTags := hasGormTags st |})).

Fixpoint partsLoop (struct : GoStruct.t) (field : GormTag.t)
  (parts : list string) (keys : list string) (st : StructState)
  : list GormDiagnostic * (list string * StructState) :=
  match parts with
  | [] => ([], (keys, st))
  | part :: rest =>
      let '(d1, (keys1, st1)) := processPart struct field keys st part in
      let '(d2, r) := partsLoop struct field rest keys1 st1 in
      (d1 ++ d2, r)
  end.

(** The body of [for (const field of struct.fields)].  Nothing in the
    [try] block throws, so the [catch] branch pushes nothing. *)
Definition processField (struct : GoStruct.t) (st : StructState)
  (field : GormTag.t) : list GormDiagnostic * StructState :=
  if negb (Js.truthy (GormTag.gormTag field)) || Js.isBlank (GormTag.gormTag field)
  then ([], st)
  else
    let st0 :=
      {| columnValues := columnValues st; primaryKeyFields := primaryKeyFields st;
         indexNames := indexNames st; hasGormTags := true |} in
    let '(d, (keys, st1)) :=
      partsLoop struct field (tagParts (GormTag.gormTag field)) [] st0 in
    (d ++ validateFieldLevelRules keys (GoStruct.name struct)
            (GormTag.name field) (GormTag.gormTag field),
     st1).

Fixpoint fieldsLoop (struct : GoStruct.t) (fs : list GormTag.t) (st : StructState)
  : list GormDiagnostic * StructState :=
  match fs with
  | [] => ([], st)
  | field :: rest =>
      let '(d1, st1) := processField struct st field in
      let '(d2, st2) := fieldsLoop struct rest st1 in
      (d1 ++ d2, st2)
  end.

(** [struct.fields.find(f => f.name === fieldName)] *)
Definition findField (struct : GoStruct.t) (fieldName : string) : option GormTag.t :=
  List.find (fun f => String.eqb (GormTag.name f) fieldName) (GoStruct.fields struct).

(** One diagnostic of the struct-wide pass, on the field found by name. *)
Definition structWide (struct : GoStruct.t) (msg : string) (lvl : Level)
  (fieldName : string) : list GormDiagnostic :=
  match findField struct fieldName with
  | Some field =>
      [mkDiagnostic (GoStruct.name struct) (GormTag.name field)
         (GormTag.gormTag field) msg lvl None]
  | None => []
  end.

Definition multiplePrimaryKeys (struct : GoStruct.t) (pks : list string)
  : list GormDiagnostic :=
  if (1 <? length pks)%nat
  then flat_map (structWide struct msgMultiplePrimaryKeys Error) pks
  else [].

Definition sharedIndexNames (struct : GoStruct.t)
  (names : list (string * list string)) : list GormDiagnostic :=
  flat_map (fun '(indexName, fieldsUsingIndex) =>
    if (1 <? length fieldsUsingIndex)%nat
    then flat_map (structWide struct (msgIndexShared indexName fieldsUsingIndex)
                     Warning) fieldsUsingIndex
    else []) names.

(** The body of [for (const struct of structs)]. *)
Definition validateStruct (struct : GoStruct.t) : list GormDiagnostic :=
  match GoStruct.fields struct with
  | [] => []
  | _ =>
      let '(d, st) := fieldsLoop struct (GoStruct.fields struct) initialState in
      if negb (hasGormTags st) then d
      else d ++ multiplePrimaryKeys struct (primaryKeyFields st)
             ++ sharedIndexNames struct (indexNames st)
  end.

Definition validateGormTags (structs : list GoStruct.t) : list GormDiagnostic :=
  flat_map validateStruct structs.

(** ** Regular expressions of the parser

    A backtracking matcher for the constructs the parser's expressions use:
    classes, sequence, the greedy star, capture groups and the two anchors.
    It tries what JavaScript tries, in the same order, so the first match it
    finds is the one [exec] returns. *)

Module Re.

Inductive t :=
| Eps
| Chr (p : ascii -> bool)
| Seq (a b : t)
| Star (a : t)
| Group (n : nat) (a : t)
| Bol
| Eol.

(** [pos] code units are consumed, [rest] is what follows, [caps] the
    groups closed so far, the latest first. *)
Record state := mkSt { pos : nat; rest : string; caps : list (nat * string) }.

(** The greedy star: [body] is tried again as long as it consumes something,
    and what follows the star is tried when it fails.  No more turns are
    possible than there are code units left, which is the [fuel]. *)
Fixpoint starLoop {R : Type} (body : state -> (state -> option R) -> option R)
  (k : state -> option R) (fuel : nat) (st : state) : option R :=
  match fuel with
  | O => k st
  | S fuel' =>
      match body st (fun st' =>
              if (pos st <? pos st')%nat then starLoop body k fuel' st'
              else None) with
      | Some x => Some x
      | None => k st
      end
  end.

Fixpoint run {R : Type} (r : t) (st : state) (k : state -> option R) : option R :=
  match r with
  | Eps => k st
  | Chr p =>
      match rest st with
      | String c s' =>
          if p c then k (mkSt (S (pos st)) s' (caps st)) else None
      | EmptyString => None
      end
  | Seq a b => run a st (fun st' => run b st' k)
  | Star a => starLoop (run a) k (S (String.length (rest st))) st
  | Group n a =>
      run a st (fun st' =>
        k (mkSt (pos st') (rest st')
             ((n, Js.take (pos st' - pos st) (rest st)) :: caps st')))
  | Bol => if (pos st =? 0)%nat then k st else None
  | Eol => match rest st with EmptyString => k st | _ => None end
  end.

Definition plus (a : t) : t := Seq a (Star a).

Fixpoint lit (s : string) : t :=
  match s with
  | EmptyString => Eps
  | String c s' => Seq (Chr (Ascii.eqb c)) (lit s')
  end.

Fixpoint seq (l : list t) : t :=
  match l with
  | [] => Eps
  | [a] => a
  | a :: l' => Seq a (seq l')
  end.

(** A match that starts exactly where [st] stands. *)
Definition matchAt (r : t) (p : nat) (s : string) : option state :=
  run r (mkSt p s []) Some.

(** The leftmost match at or after position [p], where [s] is what follows
    position [p]. *)
Fixpoint search (r : t) (p : nat) (s : string) : option state :=
  match matchAt r p s with
  | Some st => Some st
  | None =>
      match s with
      | EmptyString => None
      | String _ s' => search r (S p) s'
      end
  end.

(** [match[n]], the empty string standing for an unset group. *)
Fixpoint group (n : nat) (cs : list (nat * string)) : string :=
  match cs with
  | [] => ""
  | (m, s) :: cs' => if (m =? n)%nat then s else group n cs'
  end.

End Re.

Definition notIn (l : list ascii) (c : ascii) : bool :=
  negb (existsb (Ascii.eqb c) l).

Definition backtick : ascii := "`"%char.

(** The expression of [parseGoStructs]: the word type, white space, a
    name (group 1), white space, the word struct, optional white space, an
    opening brace, the body (group 2: code units other than braces, with
    brace groups one level deep between them), a closing brace. *)
Definition structRegex : Re.t :=
  let noBrace := Re.Star (Re.Chr (notIn ["{"; "}"]%char)) in
  Re.seq
    [Re.lit "type"; Re.plus (Re.Chr Js.isSpace);
     Re.Group 1 (Re.plus (Re.Chr Js.isWord));
     Re.plus (Re.Chr Js.isSpace); Re.lit "struct"; Re.Star (Re.Chr Js.isSpace);
     Re.lit "{";
     Re.Group 2
       (Re.Seq noBrace
          (Re.Star (Re.seq [Re.lit "{"; noBrace; Re.lit "}"; noBrace])));
     Re.lit "}"].

(** The class of a type: a word character, a bracket, a star or a dot. *)
Definition isTypeChar (c : ascii) : bool :=
  Js.isWord c || existsb (Ascii.eqb c) ["["; "]"; "*"; "."]%char.

(** The expression for a field with tags: from the start of the line,
    optional white space, a name (group 1), white space, a type (group 2),
    optional white space, and between two backticks the tags (group 3). *)
Definition fieldWithTagsRegex : Re.t :=
  Re.seq
    [Re.Bol; Re.Star (Re.Chr Js.isSpace);
     Re.Group 1 (Re.plus (Re.Chr Js.isWord));
     Re.plus (Re.Chr Js.isSpace);
     Re.Group 2 (Re.plus (Re.Chr isTypeChar));
     Re.Star (Re.Chr Js.isSpace);
     Re.Chr (Ascii.eqb backtick);
     Re.Group 3 (Re.Star (Re.Chr (notIn [backtick])));
     Re.Chr (Ascii.eqb backtick)].

(** The expression for a field without tags: name, white space, type,
    optional white space, end of the line. *)
Definition fieldWithoutTagsRegex : Re.t :=
  Re.seq
    [Re.Bol; Re.Star (Re.Chr Js.isSpace);
     Re.Group 1 (Re.plus (Re.Chr Js.isWord));
     Re.plus (Re.Chr Js.isSpace);
     Re.Group 2 (Re.plus (Re.Chr isTypeChar));
     Re.Star (Re.Chr Js.isSpace); Re.Eol].

(** The three patterns of [parseGormTag], tried in this order: the segment
    after gorm: between double quotes, between single quotes, or bare, up to
    white space, a semicolon or a backtick. *)
Definition gormPatterns : list Re.t :=
  [Re.seq [Re.lit "gorm:"; Re.Chr (Ascii.eqb doubleQuote);
           Re.Group 1 (Re.Star (Re.Chr (notIn [doubleQuote])));
           Re.Chr (Ascii.eqb doubleQuote)];
   Re.seq [Re.lit "gorm:"; Re.Chr (Ascii.eqb singleQuote);
           Re.Group 1 (Re.Star (Re.Chr (notIn [singleQuote])));
           Re.Chr (Ascii.eqb singleQuote)];
   Re.Seq (Re.lit "gorm:")
     (Re.Group 1
        (Re.plus (Re.Chr (fun c =>
           negb (Js.isSpace c) && notIn [";"%char; backtick] c))))].

(** ** parseGormTag, parseFields, parseGoStructs *)

Fixpoint firstMatch (patterns : list Re.t) (tags : string) : string :=
  match patterns with
  | [] => ""
  | pattern :: rest =>
      match Re.search pattern 0 tags with
      | Some m => Re.group 1 (Re.caps m)
      | None => firstMatch rest tags
      end
  end.

Definition parseGormTag (tags : string) : string :=
  if negb (Js.truthy tags) || Js.isBlank tags then ""
  else firstMatch gormPatterns tags.

(** The body of [for (const line of lines)]: the field this line adds. *)
Definition parseFieldLine (line : string) : list GormTag.t :=
  let trimmedLine := Js.trim line in
  if negb (Js.truthy trimmedLine) || Js.startsWith trimmedLine "//" then []
  else
    let '(fieldName, fieldType, tags) :=
      match Re.search fieldWithTagsRegex 0 trimmedLine with
      | Some m =>
          (Re.group 1 (Re.caps m), Re.group 2 (Re.caps m), Re.group 3 (Re.caps m))
      | None =>
          match Re.search fieldWithoutTagsRegex 0 trimmedLine with
          | Some m => (Re.group 1 (Re.caps m), Re.group 2 (Re.caps m), "")
          | None => ("", "", "")
          end
      end in
    if Js.truthy fieldName && Js.truthy fieldType
    then [GormTag.mk fieldName fieldType (parseGormTag tags)]
    else [].

Definition newline : ascii := ascii_of_nat 10.

Definition parseFields (fieldsText : string) : list GormTag.t :=
  if negb (Js.truthy fieldsText) || Js.isBlank fieldsText then []
  else flat_map parseFieldLine (Js.split newline fieldsText).

(** The loop [while ((match = structRegex.exec(source)) !== null)]: [p] is
    [lastIndex] and [s] the source from there.  Each match consumes at least
    the word [type], so [fuel] as long as [s] is never used up. *)
Fixpoint structsLoop (fuel p : nat) (s : string) : list GoStruct.t :=
  match fuel with
  | O => []
  | S fuel' =>
      match Re.search structRegex p s with
      | None => []
      | Some m =>
          let structName := Re.group 1 (Re.caps m) in
          let fieldsText := Re.group 2 (Re.caps m) in
          (if negb (Js.truthy structName) || negb (Js.truthy fieldsText) then []
           else [GoStruct.mk structName (parseFields fieldsText)])
          ++ structsLoop fuel' (Re.pos m) (Re.rest m)
      end
  end.

Definition parseGoStructs (source : string) : list GoStruct.t :=
  if negb (Js.truthy source) || Js.isBlank source then []
  else structsLoop (S (String.length source)) 0 source.

(** ** findFieldRange *)

Record Position := mkPosition { line : Z; character : Z }.
Record Range := mkRange { start : Position; finish : Position }.

(** How the [for] loop over the lines ends: by a [return] from inside, or by
    falling out (at the end or by [break]) with what it has recorded. *)
Inductive LineScan :=
| Returned (r : Range)
| FellOut (structFound : bool) (structStartLine : Z).

(** [errorTag] is an optional parameter; an empty string is falsy too. *)
Definition truthyTag (errorTag : option string) : bool :=
  match errorTag with Some t => Js.truthy t | None => false end.

Definition tagText (errorTag : option string) : string :=
  match errorTag with Some t => t | None => "" end.

Definition fieldLineRange (line : string) (i : Z) (fieldName : string)
  (errorTag : option string) : Range :=
  let nameRange :=
    let lineStart := Js.indexOf line fieldName in
    mkRange (mkPosition i lineStart)
      (mkPosition i (lineStart + Z.of_nat (String.length fieldName))) in
  if truthyTag errorTag && Js.includes line "gorm:" then
    let gormTagStart := Js.indexOf line "gorm:" in
    let gormTagContent := Js.substringFrom line gormTagStart in
    let errorTagIndex := Js.indexOf gormTagContent (tagText errorTag) in
    if negb (errorTagIndex =? -1) then
      let absoluteStart := gormTagStart + errorTagIndex in
      mkRange (mkPosition i absoluteStart)
        (mkPosition i
           (absoluteStart + Z.of_nat (String.length (tagText errorTag))))
    else nameRange
  else nameRange.

Fixpoint scanLines (structName fieldName : string) (errorTag : option string)
  (lines : list string) (i : Z) (inStruct structFound : bool)
  (structStartLine : Z) : LineScan :=
  match lines with
  | [] => FellOut structFound structStartLine
  | line :: rest =>
      if Js.includes line ("type " +:+ structName +:+ " struct") then
        scanLines structName fieldName errorTag rest (i + 1) true true i
      else if inStruct && structFound then
        if String.eqb (Js.trim line) "}" then FellOut structFound structStartLine
        else if Js.startsWith (Js.trim line) fieldName then
          Returned (fieldLineRange line i fieldName errorTag)
        else
          scanLines structName fieldName errorTag rest (i + 1) inStruct
            structFound structStartLine
      else
        scanLines structName fieldName errorTag rest (i + 1) inStruct
          structFound structStartLine
  end.

Definition findFieldRange (source structName fieldName : string)
  (errorTag : option string) : Range :=
  let lines := Js.split newline source in
  match scanLines structName fieldName errorTag lines 0 false false (-1) with
  | Returned r => r
  | FellOut structFound structStartLine =>
      if structFound && (0 <=? structStartLine) then
        let structLine := nth (Z.to_nat structStartLine) lines "" in
        let structNameStart := Js.indexOf structLine structName in
        mkRange (mkPosition structStartLine structNameStart)
          (mkPosition structStartLine
             (structNameStart + Z.of_nat (String.length structName)))
      else
        mkRange (mkPosition 0 0) (mkPosition 0 1)
  end.

(** ** validateGoFile ([server.ts]) *)

Record GormLanguageServerSettings := { maxNumberOfProblems : Z }.

Definition defaultSettings : GormLanguageServerSettings :=
  {| maxNumberOfProblems := 1000 |}.

Inductive DiagnosticSeverity := SeverityError | SeverityWarning.

Record RelatedInformation := {
  relatedUri : string;
  relatedRange : Range;
  relatedMessage : string
}.

Record Diagnostic := mkLsp {
  range : Range;
  lspMessage : string;
  severity : DiagnosticSeverity;
  source : string;
  code : string;
  relatedInformation : list RelatedInformation
}.

Definition DIAGNOSTIC_SOURCE : string := "GORM Tool".

(** [array.slice(0, e)]: a negative [e] counts from the end. *)
Definition slice0 {A : Type} (l : list A) (e : Z) : list A :=
  if e <? 0 then firstn (length l - Z.to_nat (- e)) l
  else firstn (Z.to_nat e) l.

(** [settings.maxNumberOfProblems || 1000]: zero is falsy. *)
Definition maxProblems (settings : GormLanguageServerSettings) : Z :=
  if maxNumberOfProblems settings =? 0 then 1000
  else maxNumberOfProblems settings.

Definition limitedDiagnostics (settings : GormLanguageServerSettings)
  (gormDiagnostics : list GormDiagnostic) : list GormDiagnostic :=
  slice0 gormDiagnostics (maxProblems settings).

Definition levelName (l : Level) : string :=
  match l with Error => "error" | Warning => "warning" end.

(** The body of [for (const diag of limitedDiagnostics)]; [findFieldRange]
    does not throw, so the fallback of the [catch] is not taken. *)
Definition toLsp (hasRelated : bool) (uri text : string) (diag : GormDiagnostic)
  : Diagnostic :=
  let r := findFieldRange text (structName diag) (fieldName diag) (errorTag diag) in
  let s := mkPosition (Z.max 0 (line (start r))) (Z.max 0 (character (start r))) in
  let e := mkPosition (Z.max 0 (line (finish r))) (Z.max 0 (character (finish r))) in
  let validRange :=
    if (line e <? line s) || ((line e =? line s) && (character e <? character s))
    then mkRange s (mkPosition (line s) (character s + 1))
    else mkRange s e in
  mkLsp validRange (message diag)
    (match level diag with Error => SeverityError | Warning => SeverityWarning end)
    DIAGNOSTIC_SOURCE ("gorm-" +:+ levelName (level diag))
    (if hasRelated then
       [{| relatedUri := uri; relatedRange := validRange;
           relatedMessage := "In struct: " +:+ structName diag +:+ ", field: "
                             +:+ fieldName diag |}]
     else []).

Definition validateGoFile (settings : GormLanguageServerSettings)
  (hasRelated : bool) (uri text : string) : list Diagnostic :=
  if negb (Js.truthy text) || Js.isBlank text then []
  else
    let structs := parseGoStructs text in
    match structs with
    | [] => []
    | _ =>
        let gormDiagnostics := validateGormTags structs in
        match gormDiagnostics with
        | [] => []
        | _ => map (toLsp hasRelated uri text)
                 (limitedDiagnostics settings gormDiagnostics)
        end
    end.

(** ** Notions the statements below are written with *)

(** The entries of a field as [validateGormTags] walks them: none for a
    field whose tag literal is empty or blank. *)
Definition fieldParts (f : GormTag.t) : list string :=
  if negb (Js.truthy (GormTag.gormTag f)) || Js.isBlank (GormTag.gormTag f)
  then [] else tagParts (GormTag.gormTag f).

Definition lowerKeyOf (part : string) : string := Js.toLowerCase (partKey part).

(** The keys of a field, lower-cased, in the order of the literal. *)
Definition fieldKeys (f : GormTag.t) : list string := map lowerKeyOf (fieldParts f).

Definition isKey (k : string) (part : string) : bool := String.eqb (lowerKeyOf part) k.

(** An explicit column rename: the key column with a value. *)
Definition isColumnPart (part : string) : bool :=
  isKey "column" part && Js.truthy (partValue part).

Definition columnValuesOf (f : GormTag.t) : list string :=
  map partValue (List.filter isColumnPart (fieldParts f)).

(** How many times the literal of [f] has the key primaryKey. *)
Definition primaryKeyCount (f : GormTag.t) : nat :=
  length (List.filter (isKey "primarykey") (fieldParts f)).

Definition isError (d : GormDiagnostic) : bool := Level_eqb (level d) Error.

Definition isDuplicateColumn (d : GormDiagnostic) : bool :=
  Js.startsWith (message d) "Duplicate column name '".

Definition isMultiplePrimaryKeys (d : GormDiagnostic) : bool :=
  String.eqb (message d) msgMultiplePrimaryKeys.

Definition isConflict (d : GormDiagnostic) : bool :=
  String.eqb (message d) msgPrimaryKeyUnique
  || String.eqb (message d) msgUniquePrimaryKey.

Definition isPairing (d : GormDiagnostic) : bool :=
  String.eqb (message d) msgForeignKeyPairing.

Definition isTimeTracking (d : GormDiagnostic) : bool :=
  String.eqb (message d) msgTimeTracking.

(** Neither a column reuse nor a multiple-primary-key finding. *)
Definition unmarked (d : GormDiagnostic) : Prop :=
  isDuplicateColumn d = false /\ isMultiplePrimaryKeys d = false.

(** The column-reuse diagnostic [processPart] pushes for [part] of [f]. *)
Definition columnDiag (s : GoStruct.t) (f : GormTag.t) (part owner : string)
  : GormDiagnostic :=
  mkDiagnostic (GoStruct.name s) (GormTag.name f) (GormTag.gormTag f)
    (msgDuplicateColumn (partValue part) owner) Error (Some (partKey part)).

(** The explicit column renames of a list of fields, each with its field,
    in the order the validator meets them. *)
Definition columnEntries (fs : list GormTag.t) : list (GormTag.t * string) :=
  flat_map (fun f => map (pair f) (List.filter isColumnPart (fieldParts f))) fs.

Definition entryValue (e : GormTag.t * string) : string := partValue (snd e).

(** What the column check alone does along such a list: the map
    [columnValues] it ends with, and the diagnostics it pushes. *)
Fixpoint columnMap (m : gmap string string) (es : list (GormTag.t * string))
  : gmap string string :=
  match es with
  | [] => m
  | e :: es' =>
      match m !! entryValue e with
      | Some _ => columnMap m es'
      | None => columnMap (<[entryValue e := GormTag.name (fst e)]> m) es'
      end
  end.

Fixpoint columnReuse (s : GoStruct.t) (m : gmap string string)
  (es : list (GormTag.t * string)) : list GormDiagnostic :=
  match es with
  | [] => []
  | e :: es' =>
      match m !! entryValue e with
      | Some owner => columnDiag s (fst e) (snd e) owner :: columnReuse s m es'
      | None => columnReuse s (<[entryValue e := GormTag.name (fst e)]> m) es'
      end
  end.

(** All the column values of a struct, in declaration order. *)
Definition structColumnValues (s : GoStruct.t) : list string :=
  flat_map columnValuesOf (GoStruct.fields s).

(** The names pushed on [primaryKeyFields]: one per occurrence of the key. *)
Definition primaryKeyNames (fs : list GormTag.t) : list string :=
  flat_map (fun f => repeat (GormTag.name f) (primaryKeyCount f)) fs.

Definition multipleDiag (s : GoStruct.t) (f : GormTag.t) : GormDiagnostic :=
  mkDiagnostic (GoStruct.name s) (GormTag.name f) (GormTag.gormTag f)
    msgMultiplePrimaryKeys Error None.

(** An error for the primaryKey/unique conflict, attributed to [f] of [s]. *)
Definition conflictOn (s : GoStruct.t) (f : GormTag.t) (d : GormDiagnostic)
  : Prop :=
  level d = Error /\ structName d = GoStruct.name s
  /\ fieldName d = GormTag.name f /\ tag d = GormTag.gormTag f
  /\ isConflict d = true.

(** The quote count as the specification words it: scan code unit by code
    unit, [prev] being the code unit before, tracking whether a single- or a
    double-quoted span is open; a quote right after the escape marker is
    ignored, a quote inside a span of the other kind is not counted. *)
Fixpoint scanQuotes (prev : option ascii) (s : string) (q : QuoteScan)
  : QuoteScan :=
  match s with
  | EmptyString => q
  | String c s' =>
      let escaped :=
        match prev with Some b => Ascii.eqb b backslash | None => false end in
      let q' :=
        if Ascii.eqb c singleQuote then
          if inDoubleQuote q || escaped then q
          else {| singleQuoteCount := S (singleQuoteCount q);
                  doubleQuoteCount := doubleQuoteCount q;
                  inSingleQuote := negb (inSingleQuote q);
                  inDoubleQuote := inDoubleQuote q |}
        else if Ascii.eqb c doubleQuote then
          if inSingleQuote q || escaped then q
          else {| singleQuoteCount := singleQuoteCount q;
                  doubleQuoteCount := S (doubleQuoteCount q);
                  inSingleQuote := inSingleQuote q;
                  inDoubleQuote := negb (inDoubleQuote q) |}
        else q in
      scanQuotes (Some c) s' q'
  end.

Definition unescapedSingles (value : string) : nat :=
  singleQuoteCount (scanQuotes None value quoteScanStart).

Definition unescapedDoubles (value : string) : nat :=
  doubleQuoteCount (scanQuotes None value quoteScanStart).

Definition msgUnmatched (kind : string) (count : nat) : string :=
  "Comment value has unmatched " +:+ kind +:+ " quotes. Found "
  +:+ Js.decimal count +:+ " " +:+ kind
  +:+ " quotes, expected even number for proper closure.".

Definition msgMixedQuotes : string :=
  "Comment value contains both single and double quotes. Consider using consistent quote style or proper escaping.".

(** [say 'a' and "b"]: both kinds of quotes, each closed. *)
Definition bothQuotesClosed : string :=
  "say 'a' and " +:+ String doubleQuote ("b" +:+ String doubleQuote "").

Fixpoint occurs (c : ascii) (s : string) : bool :=
  match s with
  | EmptyString => false
  | String a s' => Ascii.eqb a c || occurs c s'
  end.

(** A warning of [validateTagCombinations] for [part] of [f]. *)
Definition combinationDiag (s : GoStruct.t) (f : GormTag.t) (msg part : string)
  : GormDiagnostic :=
  mkDiagnostic (GoStruct.name s) (GormTag.name f) (GormTag.gormTag f) msg
    Warning (Some (orKey (partKey part) (lowerKeyOf part))).

(** What one rule of [validateTagCombinations] pushes along the entries of
    a field: [cond] is asked after each entry, on the keys seen up to and
    including it and on its key. *)
Fixpoint along (cond : list string -> string -> bool)
  (mk : string -> GormDiagnostic) (keys : list string) (parts : list string)
  : list GormDiagnostic :=
  match parts with
  | [] => []
  | p :: rest =>
      let keys' := setAdd keys (lowerKeyOf p) in
      pushIf (cond keys' (lowerKeyOf p)) (mk p) ++ along cond mk keys' rest
  end.

Definition pairingCond (keys : list string) (currentKey : string) : bool :=
  setHas keys "foreignkey" && negb (setHas keys "references").

Definition timeTrackingCond (keys : list string) (currentKey : string) : bool :=
  setHas keys "autocreatetime" && setHas keys "autoupdatetime"
  && String.eqb currentKey "autoupdatetime".

(** Not a finding of the pairing rule or of the time-tracking rule. *)
Definition quiet (d : GormDiagnostic) : Prop :=
  isPairing d = false /\ isTimeTracking d = false.

(** The findings of the two rules on one field. *)
Definition pairingWarnings (s : GoStruct.t) (f : GormTag.t) : list GormDiagnostic :=
  along pairingCond (combinationDiag s f msgForeignKeyPairing) [] (fieldParts f).

Definition timeTrackingWarnings (s : GoStruct.t) (f : GormTag.t)
  : list GormDiagnostic :=
  along timeTrackingCond (combinationDiag s f msgTimeTracking) [] (fieldParts f).

(** A column-reuse diagnostic of [s] for an entry whose value is not [v]. *)
Definition reusesAnother (s : GoStruct.t) (v : string) (d : GormDiagnostic)
  : Prop :=
  exists f part owner,
    In f (GoStruct.fields s) /\ In part (fieldParts f)
    /\ isColumnPart part = true /\ partValue part <> v
    /\ d = columnDiag s f part owner.
(** ** Structs the statements below are tried on *)

(** [type User struct { ID uint `gorm:...` }] with the given tag literal. *)
Definition userWith (literal : string) : GoStruct.t :=
  GoStruct.mk "User" [GormTag.mk "ID" "uint" literal].

Definition twoColumns : GoStruct.t :=
  GoStruct.mk "Account"
    [GormTag.mk "ID" "uint" "column:user_id";
     GormTag.mk "Name" "string" "size:64";
     GormTag.mk "UserID" "uint" "column:user_id"].

Definition twoPrimaryKeys : GoStruct.t :=
  GoStruct.mk "Pair"
    [GormTag.mk "ID1" "uint" "primaryKey";
     GormTag.mk "Note" "string" "";
     GormTag.mk "ID2" "uint" "primaryKey;autoIncrement"].

(** [type User struct { ID uint `gorm:"primaryKey;unique"` }] *)
Definition sampleSource : string :=
  "type User struct { ID uint `gorm:" +:+ String doubleQuote "primaryKey;unique"
  +:+ String doubleQuote "` }".

Definition zeroCap : GormLanguageServerSettings := {| maxNumberOfProblems := 0 |}.

(** The range [findFieldRange] falls back to when it found nothing. *)
Definition documentStart : Range := mkRange (mkPosition 0 0) (mkPosition 0 1).

(** No line of [source] declares the struct [structName]. *)
Definition structAbsent (source structName : string) : Prop :=
  Forall (fun line =>
            Js.includes line ("type " +:+ structName +:+ " struct") = false)
    (Js.split newline source).

(** Two fields carry the column value; the later one carries it twice. *)
Definition repeatedInOneField : GoStruct.t :=
  GoStruct.mk "Account"
    [GormTag.mk "ID" "uint" "column:user_id";
     GormTag.mk "UserID" "uint" "column:user_id;column:user_id"].

(** Two column values, each used by two fields. *)
Definition twoReuses : GoStruct.t :=
  GoStruct.mk "Account"
    [GormTag.mk "ID" "uint" "column:user_id";
     GormTag.mk "Email" "string" "column:mail";
     GormTag.mk "UserID" "uint" "column:user_id";
     GormTag.mk "Contact" "string" "column:mail"].


(** An untagged struct between two tagged ones. *)
Definition mixedStructs : list GoStruct.t :=
  [twoColumns; GoStruct.mk "Point" [GormTag.mk "X" "int" ""]; twoPrimaryKeys].

(** ** Further notions: the findings of the field-local pass *)

Definition isDuplicateKey (d : GormDiagnostic) : bool :=
  Js.startsWith (message d) "Duplicate GORM tag key '".

Definition isUnknownTag (d : GormDiagnostic) : bool :=
  Js.startsWith (message d) "Unknown GORM tag '".

Definition isNotRecommended (d : GormDiagnostic) : bool :=
  Js.startsWith (message d) "GORM tag '".

(** Not a duplicate-key, unknown-tag or not-recommended finding. *)
Definition plain (d : GormDiagnostic) : Prop :=
  isDuplicateKey d = false /\ isUnknownTag d = false
  /\ isNotRecommended d = false.

(** A diagnostic of [processPart] on [part] of [f], with the key as written
    as its [errorTag]. *)
Definition partDiag (s : GoStruct.t) (f : GormTag.t) (part msg : string)
  (lvl : Level) : GormDiagnostic :=
  mkDiagnostic (GoStruct.name s) (GormTag.name f) (GormTag.gormTag f) msg lvl
    (Some (partKey part)).

Definition duplicateKeyDiag (s : GoStruct.t) (f : GormTag.t) (part : string)
  : GormDiagnostic :=
  partDiag s f part (msgDuplicateKey (partKey part)) Error.

Definition unknownTagDiag (s : GoStruct.t) (f : GormTag.t) (part : string)
  : GormDiagnostic :=
  partDiag s f part (msgUnknownTag (partKey part)) Error.

Definition notRecommendedDiag (s : GoStruct.t) (f : GormTag.t) (part : string)
  : GormDiagnostic :=
  partDiag s f part (msgNotRecommended (partKey part)) Warning.

(** What the key classification pushes for one part. *)
Definition validityDiags (s : GoStruct.t) (f : GormTag.t) (part : string)
  : list GormDiagnostic :=
  if negb (valid (isValidGormKey (lowerKeyOf part)))
  then [unknownTagDiag s f part]
  else if negb (recommended (isValidGormKey (lowerKeyOf part)))
  then [notRecommendedDiag s f part] else [].

(** The duplicate-key check and the key classification along the parts of
    a field, [keys] being the keys seen before. *)
Fixpoint fieldLocal (s : GoStruct.t) (f : GormTag.t) (keys : list string)
  (parts : list string) : list GormDiagnostic :=
  match parts with
  | [] => []
  | p :: rest =>
      (pushIf (setHas keys (lowerKeyOf p)) (duplicateKeyDiag s f p)
       ++ validityDiags s f p)
      ++ fieldLocal s f (setAdd keys (lowerKeyOf p)) rest
  end.

(** The key of [part] is in the vocabulary; it is a recommended one. *)
Definition knownPart (part : string) : bool :=
  valid (isValidGormKey (lowerKeyOf part)).

Definition recommendedPart (part : string) : bool :=
  recommended (isValidGormKey (lowerKeyOf part)).

(** No field of [s] carries a tag literal (none, or a blank one). *)
Definition untagged (s : GoStruct.t) : Prop :=
  forall f, In f (GoStruct.fields s) ->
    negb (Js.truthy (GormTag.gormTag f)) || Js.isBlank (GormTag.gormTag f) = true.

Definition plainModel : GoStruct.t :=
  GoStruct.mk "Point"
    [GormTag.mk "X" "int" ""; GormTag.mk "Y" "int" "   "].

Definition repeatedKeys : GoStruct.t :=
  GoStruct.mk "Item"
    [GormTag.mk "Name" "string" "size:10;column:name;Size:20"].

(** [d] is attributed to field [f] of struct [s]. *)
Definition attributed (s : GoStruct.t) (f : GormTag.t) (d : GormDiagnostic)
  : Prop :=
  structName d = GoStruct.name s /\ fieldName d = GormTag.name f
  /\ tag d = GormTag.gormTag f.

(** The conditions of the co-occurrence rules of [validateTagCombinations],
    on the keys seen. *)
Definition ignoreRule (keys : list string) : bool :=
  setHas keys "-" && (1 <? length keys)%nat.

Definition permissionRule (keys : list string) : bool :=
  (1 <? length (List.filter (setHas keys) ["<-"; "->"; "-"]))%nat.

Definition many2manyRule (keys : list string) : bool :=
  setHas keys "many2many" && (setHas keys "foreignkey" || setHas keys "references").

Definition embeddedRule (keys : list string) : bool :=
  setHas keys "embedded" && setHas keys "column".

Definition indexRule (keys : list string) : bool :=
  setHas keys "index" && setHas keys "uniqueindex".

Definition ruleBreakers : GoStruct.t :=
  GoStruct.mk "Broken"
    [GormTag.mk "A" "string" "size:10;-";
     GormTag.mk "B" "string" "->:false;<-:create";
     GormTag.mk "C" "Role" "references:ID;many2many:user_roles";
     GormTag.mk "D" "Address" "column:addr;embedded";
     GormTag.mk "E" "string" "uniqueIndex:idx_a;index:idx_b"].

(** ** Further notions: index names *)

Definition isIndexShared (d : GormDiagnostic) : bool :=
  Js.startsWith (message d) "Index '".

(** A part that declares an index name: index or uniqueIndex with a value. *)
Definition isIndexPart (part : string) : bool :=
  (isKey "index" part || isKey "uniqueindex" part) && Js.truthy (partValue part).

(** The index names declared in a list of fields, each with the name of its
    field, in the order the validator meets them. *)
Definition indexEntries (fs : list GormTag.t) : list (string * string) :=
  flat_map (fun f =>
    map (fun p => (partValue p, GormTag.name f))
      (List.filter isIndexPart (fieldParts f))) fs.

Definition pushEntry (m : list (string * list string)) (e : string * string)
  : list (string * list string) :=
  indexPush m (fst e) (snd e).

(** The names of the fields that use the index name [n], one for each use. *)
Definition usedBy (s : GoStruct.t) (n : string) : list string :=
  map snd (List.filter (fun e => String.eqb (fst e) n)
             (indexEntries (GoStruct.fields s))).

(** [indexNames.get(n)], the empty list standing for an absent name. *)
Definition namesUnder (n : string) (m : list (string * list string))
  : list string :=
  match List.find (fun kv => String.eqb (fst kv) n) m with
  | Some kv => snd kv
  | None => []
  end.

Definition sharedIndex : GoStruct.t :=
  GoStruct.mk "Order"
    [GormTag.mk "UserID" "uint" "index:idx_user_status";
     GormTag.mk "Status" "string" "index:idx_user_status;size:20";
     GormTag.mk "Code" "string" "uniqueIndex:idx_code"].

Definition ownIndexes : GoStruct.t :=
  GoStruct.mk "Item"
    [GormTag.mk "Sku" "string" "uniqueIndex:idx_sku";
     GormTag.mk "Name" "string" "index:idx_name"].

(** ** Further notions: ranges *)

(** A range on one line, at non-negative positions, its end not before its
    start. *)
Definition wellFormed (r : Range) : Prop :=
  line (start r) = line (finish r) /\ 0 <= line (start r)
  /\ 0 <= character (start r) <= character (finish r).

(** The text of [source] that a range on one line covers. *)
Definition highlighted (source : string) (r : Range) : string :=
  Js.substring (nth (Z.to_nat (line (start r))) (Js.split newline source) "")
    (character (start r)) (character (finish r)).

(** [r] is on line [i], whose text is [l], and covers there the field's
    name, the struct's name or the tag named by the diagnostic. *)
Definition marks (l : string) (i : Z) (structName fieldName : string)
  (errorTag : option string) (r : Range) : Prop :=
  line (start r) = i /\ line (finish r) = i
  /\ 0 <= character (start r) <= character (finish r)
  /\ (Js.substring l (character (start r)) (character (finish r)) = fieldName
      \/ Js.substring l (character (start r)) (character (finish r)) = structName
      \/ (truthyTag errorTag = true
          /\ Js.substring l (character (start r)) (character (finish r))
             = tagText errorTag)).

Definition severityOf (l : Level) : DiagnosticSeverity :=
  match l with Error => SeverityError | Warning => SeverityWarning end.

Definition capOf (n : Z) : GormLanguageServerSettings :=
  {| maxNumberOfProblems := n |}.


(** ** Further notions: what a finding is about *)

(** [d] is about a field of a struct among [structs]; the tag it names, when
    it names one, is the key of an entry of that field's tag, as written. *)
Definition grounded (structs : list GoStruct.t) (d : GormDiagnostic) : Prop :=
  exists s f,
    In s structs /\ In f (GoStruct.fields s) /\ attributed s f d
    /\ (errorTag d = None
        \/ exists p, In p (fieldParts f) /\ errorTag d = Some (partKey p)).

(** A diagnostic of the checks on one entry. *)
Definition ofEntry (sn fn tg key : string) (d : GormDiagnostic) : Prop :=
  structName d = sn /\ fieldName d = fn /\ tag d = tg /\ errorTag d = Some key.

(** ** Further notions: the entries of a tag *)

(** A key as it can be written: not empty, no white space around it, no
    colon and no semicolon in it. *)
Definition cleanKey (k : string) : Prop :=
  k <> "" /\ Js.trim k = k /\ occurs ":" k = false /\ occurs ";" k = false.

(** A value as it can be written: no white space around it and no
    semicolon in it; colons are allowed. *)
Definition cleanValue (v : string) : Prop :=
  Js.trim v = v /\ occurs ";" v = false.

(** An entry written out: the key alone, or the key, a colon and the
    value. *)
Definition printEntry (e : string * string) : string :=
  if String.eqb (snd e) "" then fst e else fst e +:+ ":" +:+ snd e.

Definition printTag (es : list (string * string)) : string :=
  Js.join ";" (map printEntry es).

(** The key and the value the validator reads from a part. *)
Definition readEntry (part : string) : string * string :=
  (partKey part, partValue part).

(** ** Further notions: following a match *)

(** Every code unit of [s] is of the class [p]. *)
Fixpoint every (p : ascii -> bool) (s : string) : bool :=
  match s with
  | EmptyString => true
  | String c s' => p c && every p s'
  end.

(** [r] is empty or begins outside the class [p]. *)
Definition stops (p : ascii -> bool) (r : string) : bool :=
  match r with
  | EmptyString => true
  | String c _ => negb (p c)
  end.

(** From [st] the expression [r] takes [st'] first: whatever follows [r]
    and succeeds from [st'] decides the match. *)
Definition leads (r : Re.t) (st st' : Re.state) : Prop :=
  forall (R : Type) (k : Re.state -> option R) (x : R),
    k st' = Some x -> Re.run r st k = Some x.

(** [r] does not match from [st], whatever follows. *)
Definition fails (r : Re.t) (st : Re.state) : Prop :=
  forall (R : Type) (k : Re.state -> option R), Re.run r st k = None.

(** The literal [gorm:] followed by a double quote. *)
Definition gormQuoted : string := "gorm:" +:+ String doubleQuote "".

(** No code unit of [s] is of the class [q]. *)
Definition lacks (q : ascii -> bool) (s : string) : bool :=
  every (fun c => negb (q c)) s.

(** [r] cannot match without a code unit of the class [q] ahead. *)
Definition needs (q : ascii -> bool) (r : Re.t) : Prop :=
  forall (R : Type) (st : Re.state) (k : Re.state -> option R),
    lacks q (Re.rest st) = true -> Re.run r st k = None.

(** ** Further notions: writing structs out *)

Definition tab : ascii := ascii_of_nat 9.

(** What a GORM tag can hold when written between double quotes in a tag
    literal of a struct body. *)
Definition tagChar (c : ascii) : bool :=
  notIn [doubleQuote; backtick; newline; "{"%char; "}"%char] c.

(** What a line of a struct body written by [printStruct] holds. *)
Definition bodyChar (c : ascii) : bool := notIn [newline; "{"%char; "}"%char] c.

Definition goodField (f : GormTag.t) : Prop :=
  GormTag.name f <> "" /\ every Js.isWord (GormTag.name f) = true
  /\ GormTag.type f <> "" /\ every isTypeChar (GormTag.type f) = true
  /\ every tagChar (GormTag.gormTag f) = true.

Definition goodStruct (s : GoStruct.t) : Prop :=
  GoStruct.name s <> "" /\ every Js.isWord (GoStruct.name s) = true
  /\ Forall goodField (GoStruct.fields s).

(** A field as a line of Go: the name, the type and, when there is a GORM
    tag, the tag literal. *)
Definition printField (f : GormTag.t) : string :=
  if String.eqb (GormTag.gormTag f) ""
  then GormTag.name f +:+ " " +:+ GormTag.type f
  else GormTag.name f +:+ " " +:+ GormTag.type f +:+ " "
       +:+ String backtick
             (gormQuoted +:+ GormTag.gormTag f
              +:+ String doubleQuote (String backtick "")).

(** Lines, each ended by a newline. *)
Fixpoint printLines (ls : list string) : string :=
  match ls with
  | [] => ""
  | l :: ls' => l +:+ String newline (printLines ls')
  end.

Definition printBody (s : GoStruct.t) : string :=
  String newline
    (printLines (map (fun f => String tab (printField f)) (GoStruct.fields s))).

Definition printStruct (s : GoStruct.t) : string :=
  "type " +:+ GoStruct.name s +:+ " struct {" +:+ printBody s +:+ "}".

Definition printStructs (ss : list GoStruct.t) : string :=
  printLines (map printStruct ss).

(** [v] is not empty and does not end with white space. *)
Definition kept (v : string) : Prop := v <> "" /\ Js.trimEnd v = v.

Definition sampleStructs : list GoStruct.t :=
  [GoStruct.mk "User"
     [GormTag.mk "ID" "uint" "primaryKey";
      GormTag.mk "Name" "*string" "column:name;size:64";
      GormTag.mk "Tags" "[]string" ""];
   GoStruct.mk "Empty" []].

(** ** Further notions: numeric values *)

(** The keys whose value must be made of digits. *)
Definition numericKeys : list string :=
  ["size"; "precision"; "scale"; "length"; "priority"; "autoincrementincrement"].

(** [type S struct { F T `gorm:"entry"` }], the entry being a key and a
    value. *)
Definition oneEntry (S F T k v : string) : GoStruct.t :=
  GoStruct.mk S [GormTag.mk F T (printEntry (k, v))].

(** ** The settings of a document ([server.ts])

    The module variables the settings handlers read and write.  A cached
    promise is kept as the settings it resolves to, and
    [connection.workspace.getConfiguration] as a function [client] from the
    resource to what the client answers when it is asked. *)

Record ServerState := mkServer {
  hasConfigurationCapability : bool;
  globalSettings : GormLanguageServerSettings;
  documentSettings : gmap string GormLanguageServerSettings
}.

(** The state once [onInitialize] has read the client's capabilities. *)
Definition initialServer (capability : bool) : ServerState :=
  mkServer capability defaultSettings ∅.

Definition getDocumentSettings
  (client : string -> GormLanguageServerSettings) (st : ServerState)
  (resource : string) : GormLanguageServerSettings * ServerState :=
  if negb (hasConfigurationCapability st) then (globalSettings st, st)
  else
    match documentSettings st !! resource with
    | Some result => (result, st)
    | None =>
        let result := client resource in
        (result,
         mkServer (hasConfigurationCapability st) (globalSettings st)
           (<[resource := result]> (documentSettings st)))
    end.

(** [change.settings.gormLanguageServer] may be absent. *)
Definition onDidChangeConfiguration (st : ServerState)
  (gormLanguageServer : option GormLanguageServerSettings) : ServerState :=
  if hasConfigurationCapability st
  then mkServer (hasConfigurationCapability st) (globalSettings st) ∅
  else mkServer (hasConfigurationCapability st)
         (match gormLanguageServer with
          | Some s => s
          | None => defaultSettings
          end)
         (documentSettings st).

Definition onDidClose (st : ServerState) (uri : string) : ServerState :=
  mkServer (hasConfigurationCapability st) (globalSettings st)
    (delete uri (documentSettings st)).

(** ** Further notions: the lines [findFieldRange] goes through *)

(** What a line must hold to declare the struct [S]. *)
Definition headerOf (S : string) : string := "type " +:+ S +:+ " struct".

(** A line inside the struct that the scan passes over: not the closing
    brace, and not starting with the field's name. *)
Definition passedOver (S F line : string) : Prop :=
  Js.includes line (headerOf S) = false
  /\ Js.trim line <> "}"
  /\ Js.startsWith (Js.trim line) F = false.

(** [type Card struct], with a field IDCard before the field ID. *)
Definition cardSource : string :=
  "type Card struct {" +:+ String newline
  ("  IDCard string" +:+ String newline
   ("  ID uint" +:+ String newline "}")).

(** The keys that must come with a value, among the recommended ones. *)
Definition requiredKeys : list string := ["type"; "column"; "check"].

(** What a GORM tag written without quotes is made of: no white space, no
    semicolon, no backtick. *)
Definition bareChar (c : ascii) : bool :=
  negb (Js.isSpace c) && notIn [";"%char; backtick] c.

(** The keys whose value is one of a few words, and the words of each. *)
Definition enumeratedKeys : list string :=
  ["serializer"; "sort"; "autocreatetime"; "autoupdatetime"; "<-"; "->"; "-"].

Definition allowedValues (key : string) : list string :=
  if String.eqb key "serializer" then validSerializers
  else if String.eqb key "sort" then validSortOptions
  else if String.eqb key "autocreatetime" || String.eqb key "autoupdatetime"
  then [""; "nano"; "milli"]
  else if String.eqb key "<-" then ["create"; "update"; "false"]
  else if String.eqb key "->" then ["false"]
  else if String.eqb key "-" then validIgnoreOptions
  else [].
(** ** Basic facts on the loops *)

Lemma unmarked_pushIf c d : unmarked d -> Forall unmarked (pushIf c d).
Proof. intros H. destruct c; simpl; auto. Qed.

Ltac unmarked_now :=
  repeat first
    [ apply List.Forall_nil
    | apply List.Forall_cons
    | apply List.Forall_app; split
    | apply unmarked_pushIf
    | (split; reflexivity) ].

(** The cases of the [switch] of [validateTagValue], the key of each case
    put in place of [key]. *)
Ltac switch_cases key :=
  unfold validateTagValue;
  repeat match goal with
  | |- context [if String.eqb key ?l || String.eqb key ?l' then _ else _] =>
      destruct (String.eqb key l) eqn:?; cbn [orb];
      [ | destruct (String.eqb key l') eqn:? ]
  | |- context [if String.eqb key ?l then _ else _] =>
      destruct (String.eqb key l) eqn:?
  end;
  repeat match goal with
  | H : String.eqb ?k _ = true |- _ =>
      apply String.eqb_eq in H; first [discriminate H | subst k]
  end.

Lemma validateTagValue_unmarked key value sn fn tg ok :
  Forall unmarked (validateTagValue key value sn fn tg ok).
Proof.
  switch_cases key; try solve [unmarked_now].
  - destruct (missing value); unmarked_now.
  - destruct (missing value); [unmarked_now|].
    apply List.Forall_flat_map, List.Forall_forall. intros part _. unmarked_now.
Qed.

Lemma validateTagCombinations_unmarked keys ck sn fn tg ok :
  Forall unmarked (validateTagCombinations keys ck sn fn tg ok).
Proof.
  unfold validateTagCombinations.
  destruct (String.eqb ck "primarykey"); unmarked_now.
Qed.

(** ** One part of a literal *)

Lemma filter_none {A} (p : A -> bool) (l : list A) :
  Forall (fun x => p x = false) l -> List.filter p l = [].
Proof.
  induction 1 as [|x l Hx _ IH]; simpl; [reflexivity|]. now rewrite Hx.
Qed.

Lemma unmarked_column l : Forall unmarked l -> List.filter isDuplicateColumn l = [].
Proof.
  intros H. apply filter_none. eapply List.Forall_impl; [|exact H].
  now intros d [? _].
Qed.

Lemma unmarked_multiple l :
  Forall unmarked l -> List.filter isMultiplePrimaryKeys l = [].
Proof.
  intros H. apply filter_none. eapply List.Forall_impl; [|exact H].
  now intros d [_ ?].
Qed.

(** The diagnostics of one part, apart from the column check. *)
Lemma processPart_keys s f keys st p :
  fst (snd (processPart s f keys st p)) = setAdd keys (lowerKeyOf p).
Proof.
  unfold processPart.
  destruct (String.eqb _ "column" && _); [destruct (_ !! _)|]; reflexivity.
Qed.

Lemma processPart_primaryKeyFields s f keys st p :
  primaryKeyFields (snd (snd (processPart s f keys st p)))
  = primaryKeyFields st
    ++ (if isKey "primarykey" p then [GormTag.name f] else []).
Proof.
  unfold processPart, isKey, lowerKeyOf.
  destruct (String.eqb _ "column" && _); [destruct (_ !! _)|];
    cbn [fst snd primaryKeyFields];
    destruct (String.eqb _ "primarykey"); now rewrite ?List.app_nil_r.
Qed.

Lemma processPart_hasGormTags s f keys st p :
  hasGormTags (snd (snd (processPart s f keys st p))) = hasGormTags st.
Proof.
  unfold processPart.
  destruct (String.eqb _ "column" && _); [destruct (_ !! _)|]; reflexivity.
Qed.

Lemma processPart_columnValues s f keys st p :
  columnValues (snd (snd (processPart s f keys st p)))
  = if isColumnPart p then columnMap (columnValues st) [(f, p)]
    else columnValues st.
Proof.
  unfold processPart, isColumnPart, isKey, lowerKeyOf, entryValue.
  destruct (String.eqb _ "column" && _); cbn [columnMap fst snd];
    [destruct (_ !! _)|]; reflexivity.
Qed.

Lemma processPart_rest_unmarked s f keys p :
  let key := partKey p in
  let lowerKey := Js.toLowerCase key in
  let diag msg lvl :=
    mkDiagnostic (GoStruct.name s) (GormTag.name f) (GormTag.gormTag f)
      msg lvl (Some key) in
  forall dColumn,
  List.filter isDuplicateColumn dColumn = dColumn ->
  List.filter isMultiplePrimaryKeys dColumn = [] ->
  forall keys',
  let out :=
    pushIf (setHas keys lowerKey) (diag (msgDuplicateKey key) Error)
    ++ (pushIf (String.eqb lowerKey "primarykey" && setHas keys' "unique")
          (diag msgPrimaryKeyUnique Error)
        ++ pushIf (String.eqb lowerKey "unique" && setHas keys' "primarykey")
          (diag msgUniquePrimaryKey Error))
    ++ dColumn
    ++ (if negb (valid (isValidGormKey lowerKey))
        then [diag (msgUnknownTag key) Error]
        else if negb (recommended (isValidGormKey lowerKey))
        then [diag (msgNotRecommended key) Warning] else [])
    ++ validateTagValue lowerKey (partValue p) (GoStruct.name s)
         (GormTag.name f) (GormTag.gormTag f) key
    ++ validateTagCombinations keys' lowerKey (GoStruct.name s)
         (GormTag.name f) (GormTag.gormTag f) key in
  List.filter isDuplicateColumn out = dColumn
  /\ List.filter isMultiplePrimaryKeys out = [].
Proof.
  intros key lowerKey diag dColumn Hc Hm keys' out. subst out.
  assert (Hv := validateTagValue_unmarked lowerKey (partValue p)
                  (GoStruct.name s) (GormTag.name f) (GormTag.gormTag f) key).
  assert (Hk := validateTagCombinations_unmarked keys' lowerKey
                  (GoStruct.name s) (GormTag.name f) (GormTag.gormTag f) key).
  assert (H1 : Forall unmarked
                 (pushIf (setHas keys lowerKey) (diag (msgDuplicateKey key) Error)))
    by unmarked_now.
  assert (H2 : Forall unmarked
     (pushIf (String.eqb lowerKey "primarykey" && setHas keys' "unique")
          (diag msgPrimaryKeyUnique Error))) by unmarked_now.
  assert (H2' : Forall unmarked
     (pushIf (String.eqb lowerKey "unique" && setHas keys' "primarykey")
          (diag msgUniquePrimaryKey Error))) by unmarked_now.
  assert (H3 : Forall unmarked
     (if negb (valid (isValidGormKey lowerKey))
        then [diag (msgUnknownTag key) Error]
        else if negb (recommended (isValidGormKey lowerKey))
        then [diag (msgNotRecommended key) Warning] else [])).
  { destruct (negb (valid _)); [unmarked_now|].
    destruct (negb (recommended _)); unmarked_now. }
  split; rewrite !List.filter_app.
  - rewrite (unmarked_column _ H1), (unmarked_column _ H2),
      (unmarked_column _ H2'), (unmarked_column _ H3), (unmarked_column _ Hv), (unmarked_column _ Hk), Hc.
    now rewrite !List.app_nil_r.
  - rewrite (unmarked_multiple _ H1), (unmarked_multiple _ H2),
      (unmarked_multiple _ H2'), (unmarked_multiple _ H3), (unmarked_multiple _ Hv),
      (unmarked_multiple _ Hk), Hm.
    reflexivity.
Qed.

Lemma processPart_column s f keys st p :
  List.filter isDuplicateColumn (fst (processPart s f keys st p))
  = if isColumnPart p then columnReuse s (columnValues st) [(f, p)] else [].
Proof.
  unfold processPart, isColumnPart, isKey, lowerKeyOf, entryValue.
  destruct (String.eqb _ "column" && _); cbn [columnReuse fst snd];
    [destruct (_ !! _) as [owner|]|]; cbn [fst].
  - apply (processPart_rest_unmarked s f keys p [columnDiag s f p owner]);
      reflexivity.
  - apply (processPart_rest_unmarked s f keys p []); reflexivity.
  - apply (processPart_rest_unmarked s f keys p []); reflexivity.
Qed.

Lemma processPart_multiple s f keys st p :
  List.filter isMultiplePrimaryKeys (fst (processPart s f keys st p)) = [].
Proof.
  unfold processPart.
  destruct (String.eqb _ "column" && _);
    [destruct (_ !! _) as [owner|]|]; cbn [fst].
  - apply (processPart_rest_unmarked s f keys p [columnDiag s f p owner]);
      reflexivity.
  - apply (processPart_rest_unmarked s f keys p []); reflexivity.
  - apply (processPart_rest_unmarked s f keys p []); reflexivity.
Qed.

(** ** The loops over parts and fields *)

Lemma partsLoop_cons s f p ps keys st :
  partsLoop s f (p :: ps) keys st
  = let r1 := processPart s f keys st p in
    let r2 := partsLoop s f ps (fst (snd r1)) (snd (snd r1)) in
    (fst r1 ++ fst r2, snd r2).
Proof.
  cbn [partsLoop]. destruct (processPart s f keys st p) as [d1 [k1 st1]].
  cbn [fst snd]. now destruct (partsLoop s f ps k1 st1).
Qed.

Lemma fieldsLoop_cons s f fs st :
  fieldsLoop s (f :: fs) st
  = let r1 := processField s st f in
    let r2 := fieldsLoop s fs (snd r1) in
    (fst r1 ++ fst r2, snd r2).
Proof.
  cbn [fieldsLoop]. destruct (processField s st f) as [d1 st1].
  cbn [fst snd]. now destruct (fieldsLoop s fs st1).
Qed.

Lemma columnMap_app m es1 es2 :
  columnMap m (es1 ++ es2) = columnMap (columnMap m es1) es2.
Proof.
  revert m. induction es1 as [|e es1 IH]; intros m; cbn; [reflexivity|].
  destruct (m !! entryValue e); apply IH.
Qed.

Lemma columnReuse_app s m es1 es2 :
  columnReuse s m (es1 ++ es2)
  = columnReuse s m es1 ++ columnReuse s (columnMap m es1) es2.
Proof.
  revert m. induction es1 as [|e es1 IH]; intros m; cbn; [reflexivity|].
  destruct (m !! entryValue e); cbn; now rewrite IH.
Qed.

Lemma partsLoop_keys s f ps keys st :
  fst (snd (partsLoop s f ps keys st)) = fold_left setAdd (map lowerKeyOf ps) keys.
Proof.
  revert keys st. induction ps as [|p ps IH]; intros keys st; [reflexivity|].
  rewrite partsLoop_cons. cbn [fst snd map fold_left].
  now rewrite IH, processPart_keys.
Qed.

Lemma partsLoop_primaryKeyFields s f ps keys st :
  primaryKeyFields (snd (snd (partsLoop s f ps keys st)))
  = primaryKeyFields st
    ++ repeat (GormTag.name f) (length (List.filter (isKey "primarykey") ps)).
Proof.
  revert keys st. induction ps as [|p ps IH]; intros keys st.
  - cbn. now rewrite List.app_nil_r.
  - rewrite partsLoop_cons. cbn [fst snd List.filter].
    rewrite IH, processPart_primaryKeyFields.
    destruct (isKey "primarykey" p); cbn; now rewrite <- List.app_assoc.
Qed.

Lemma partsLoop_hasGormTags s f ps keys st :
  hasGormTags (snd (snd (partsLoop s f ps keys st))) = hasGormTags st.
Proof.
  revert keys st. induction ps as [|p ps IH]; intros keys st; [reflexivity|].
  rewrite partsLoop_cons. cbn [fst snd].
  now rewrite IH, processPart_hasGormTags.
Qed.

Lemma partsLoop_columnValues s f ps keys st :
  columnValues (snd (snd (partsLoop s f ps keys st)))
  = columnMap (columnValues st) (map (pair f) (List.filter isColumnPart ps)).
Proof.
  revert keys st. induction ps as [|p ps IH]; intros keys st; [reflexivity|].
  rewrite partsLoop_cons. cbn [fst snd List.filter].
  rewrite IH, processPart_columnValues.
  destruct (isColumnPart p); [|reflexivity].
  change (map (pair f) (p :: List.filter isColumnPart ps))
    with ([(f, p)] ++ map (pair f) (List.filter isColumnPart ps)).
  now rewrite columnMap_app.
Qed.

Lemma partsLoop_column s f ps keys st :
  List.filter isDuplicateColumn (fst (partsLoop s f ps keys st))
  = columnReuse s (columnValues st) (map (pair f) (List.filter isColumnPart ps)).
Proof.
  revert keys st. induction ps as [|p ps IH]; intros keys st; [reflexivity|].
  rewrite partsLoop_cons. cbn [fst snd List.filter].
  rewrite List.filter_app, IH, processPart_column, processPart_columnValues.
  destruct (isColumnPart p); [|reflexivity].
  change (map (pair f) (p :: List.filter isColumnPart ps))
    with ([(f, p)] ++ map (pair f) (List.filter isColumnPart ps)).
  now rewrite columnReuse_app.
Qed.

Lemma partsLoop_multiple s f ps keys st :
  List.filter isMultiplePrimaryKeys (fst (partsLoop s f ps keys st)) = [].
Proof.
  revert keys st. induction ps as [|p ps IH]; intros keys st; [reflexivity|].
  rewrite partsLoop_cons. cbn [fst snd].
  now rewrite List.filter_app, IH, processPart_multiple.
Qed.

(** One field, in terms of [fieldParts]. *)
Lemma processField_eq s st f :
  processField s st f
  = let r := partsLoop s f (fieldParts f) []
               (mkState (columnValues st) (primaryKeyFields st) (indexNames st)
                  (hasGormTags st
                   || negb (negb (Js.truthy (GormTag.gormTag f))
                            || Js.isBlank (GormTag.gormTag f)))) in
    (fst r, snd (snd r)).
Proof.
  unfold processField, fieldParts, validateFieldLevelRules.
  destruct (negb (Js.truthy (GormTag.gormTag f)) || Js.isBlank (GormTag.gormTag f)).
  - cbn. rewrite orb_false_r. now destruct st.
  - cbn [negb]. rewrite orb_true_r.
    destruct (partsLoop _ _ _ _ _) as [d [keys st1]]. cbn.
    now rewrite List.app_nil_r.
Qed.

Lemma processField_primaryKeyFields s st f :
  primaryKeyFields (snd (processField s st f))
  = primaryKeyFields st ++ repeat (GormTag.name f) (primaryKeyCount f).
Proof. rewrite processField_eq. cbn. now rewrite partsLoop_primaryKeyFields. Qed.

Lemma processField_columnValues s st f :
  columnValues (snd (processField s st f))
  = columnMap (columnValues st) (columnEntries [f]).
Proof.
  rewrite processField_eq. cbn. rewrite partsLoop_columnValues.
  now rewrite List.app_nil_r.
Qed.

Lemma processField_column s st f :
  List.filter isDuplicateColumn (fst (processField s st f))
  = columnReuse s (columnValues st) (columnEntries [f]).
Proof.
  rewrite processField_eq. cbn. rewrite partsLoop_column.
  now rewrite List.app_nil_r.
Qed.

Lemma processField_multiple s st f :
  List.filter isMultiplePrimaryKeys (fst (processField s st f)) = [].
Proof. rewrite processField_eq. cbn. apply partsLoop_multiple. Qed.

Lemma processField_hasGormTags s st f :
  hasGormTags (snd (processField s st f))
  = hasGormTags st
    || negb (negb (Js.truthy (GormTag.gormTag f)) || Js.isBlank (GormTag.gormTag f)).
Proof. rewrite processField_eq. cbn. now rewrite partsLoop_hasGormTags. Qed.

Lemma columnEntries_cons f fs :
  columnEntries (f :: fs) = columnEntries [f] ++ columnEntries fs.
Proof. unfold columnEntries. cbn [flat_map]. now rewrite List.app_nil_r. Qed.

Lemma fieldsLoop_primaryKeyFields s fs st :
  primaryKeyFields (snd (fieldsLoop s fs st))
  = primaryKeyFields st ++ primaryKeyNames fs.
Proof.
  revert st. induction fs as [|f fs IH]; intros st.
  - cbn. now rewrite List.app_nil_r.
  - rewrite fieldsLoop_cons. cbn [fst snd].
    rewrite IH, processField_primaryKeyFields.
    unfold primaryKeyNames. cbn [flat_map]. now rewrite List.app_assoc.
Qed.

Lemma fieldsLoop_columnValues s fs st :
  columnValues (snd (fieldsLoop s fs st))
  = columnMap (columnValues st) (columnEntries fs).
Proof.
  revert st. induction fs as [|f fs IH]; intros st; [reflexivity|].
  rewrite fieldsLoop_cons. cbn [fst snd].
  rewrite IH, processField_columnValues.
  now rewrite (columnEntries_cons f fs), columnMap_app.
Qed.

Lemma fieldsLoop_column s fs st :
  List.filter isDuplicateColumn (fst (fieldsLoop s fs st))
  = columnReuse s (columnValues st) (columnEntries fs).
Proof.
  revert st. induction fs as [|f fs IH]; intros st; [reflexivity|].
  rewrite fieldsLoop_cons. cbn [fst snd].
  rewrite List.filter_app, IH, processField_column, processField_columnValues.
  now rewrite (columnEntries_cons f fs), columnReuse_app.
Qed.

Lemma fieldsLoop_multiple s fs st :
  List.filter isMultiplePrimaryKeys (fst (fieldsLoop s fs st)) = [].
Proof.
  revert st. induction fs as [|f fs IH]; intros st; [reflexivity|].
  rewrite fieldsLoop_cons. cbn [fst snd].
  now rewrite List.filter_app, IH, processField_multiple.
Qed.

Lemma fieldParts_blank f :
  negb (Js.truthy (GormTag.gormTag f)) || Js.isBlank (GormTag.gormTag f) = true ->
  fieldParts f = [].
Proof. unfold fieldParts. now intros ->. Qed.

(** A struct none of whose fields is tagged has no entries at all. *)
Lemma fieldsLoop_untagged s fs st :
  hasGormTags (snd (fieldsLoop s fs st)) = false ->
  Forall (fun f => fieldParts f = []) fs.
Proof.
  revert st. induction fs as [|f fs IH]; intros st H; [constructor|].
  rewrite fieldsLoop_cons in H. cbn [fst snd] in H.
  assert (Hst : hasGormTags (snd (processField s st f)) = false).
  { destruct (hasGormTags (snd (processField s st f))) eqn:E; [|reflexivity].
    exfalso. revert H. generalize (snd (processField s st f)) E. clear.
    induction fs as [|g fs IHfs]; intros st E H; [cbn in H; congruence|].
    rewrite fieldsLoop_cons in H. cbn [fst snd] in H.
    eapply IHfs; [|exact H]. rewrite processField_hasGormTags. now rewrite E. }
  constructor; [|eapply IH; exact H].
  rewrite processField_hasGormTags in Hst.
  apply orb_false_iff in Hst as [_ Hst]. apply negb_false_iff in Hst.
  now apply fieldParts_blank.
Qed.

(** ** The struct-wide pass *)

Lemma structWide_message s msg lvl n :
  Forall (fun d => message d = msg) (structWide s msg lvl n).
Proof. unfold structWide. destruct (findField s n); repeat constructor. Qed.

Lemma flat_map_Forall {A B} (P : B -> Prop) (f : A -> list B) l :
  (forall x, Forall P (f x)) -> Forall P (flat_map f l).
Proof. intros H. apply List.Forall_flat_map, List.Forall_forall. auto. Qed.

Lemma multiplePrimaryKeys_message s pks :
  Forall (fun d => message d = msgMultiplePrimaryKeys) (multiplePrimaryKeys s pks).
Proof.
  unfold multiplePrimaryKeys. destruct (1 <? length pks)%nat; [|constructor].
  apply flat_map_Forall. intros n. apply structWide_message.
Qed.

Lemma sharedIndexNames_message s names :
  Forall (fun d => Js.startsWith (message d) "Index '" = true)
    (sharedIndexNames s names).
Proof.
  unfold sharedIndexNames. apply flat_map_Forall. intros [n fs].
  destruct (1 <? length fs)%nat; [|constructor].
  apply flat_map_Forall. intros x.
  eapply List.Forall_impl; [|apply structWide_message].
  now intros d ->.
Qed.

Lemma filter_all {A} (p : A -> bool) (l : list A) :
  Forall (fun x => p x = true) l -> List.filter p l = l.
Proof.
  induction 1 as [|x l Hx _ IH]; simpl; [reflexivity|]. now rewrite Hx, IH.
Qed.

Lemma startsWith_Index_column m :
  Js.startsWith m "Index '" = true ->
  Js.startsWith m "Duplicate column name '" = false
  /\ String.eqb m msgMultiplePrimaryKeys = false.
Proof.
  destruct m as [|c m]; [discriminate|]. cbn [Js.startsWith].
  intros H. apply andb_true_iff in H as [H _].
  apply Ascii.eqb_eq in H. subst c. split; reflexivity.
Qed.

Lemma structWide_column s pks names :
  List.filter isDuplicateColumn
    (multiplePrimaryKeys s pks ++ sharedIndexNames s names) = [].
Proof.
  apply filter_none, List.Forall_app. split.
  - eapply List.Forall_impl; [|apply multiplePrimaryKeys_message].
    intros d H. unfold isDuplicateColumn. now rewrite H.
  - eapply List.Forall_impl; [|apply sharedIndexNames_message].
    intros d H. now apply startsWith_Index_column.
Qed.

Lemma structWide_multiple s pks names :
  List.filter isMultiplePrimaryKeys
    (multiplePrimaryKeys s pks ++ sharedIndexNames s names)
  = multiplePrimaryKeys s pks.
Proof.
  rewrite List.filter_app, filter_all, filter_none.
  - apply List.app_nil_r.
  - eapply List.Forall_impl; [|apply sharedIndexNames_message].
    intros d H. now apply startsWith_Index_column.
  - eapply List.Forall_impl; [|apply multiplePrimaryKeys_message].
    intros d H. unfold isMultiplePrimaryKeys. now rewrite H.
Qed.

Lemma primaryKeyNames_untagged fs :
  Forall (fun f => fieldParts f = []) fs -> primaryKeyNames fs = [].
Proof.
  induction 1 as [|f fs Hf _ IH]; [reflexivity|].
  unfold primaryKeyNames, primaryKeyCount in *. cbn [flat_map].
  now rewrite Hf, IH.
Qed.

Lemma validateStruct_column s :
  List.filter isDuplicateColumn (validateStruct s)
  = columnReuse s ∅ (columnEntries (GoStruct.fields s)).
Proof.
  unfold validateStruct. destruct (GoStruct.fields s) as [|f fs] eqn:E;
    [reflexivity|].
  pose proof (fieldsLoop_column s (f :: fs) initialState) as H.
  destruct (fieldsLoop s (f :: fs) initialState) as [d st]. cbn [fst] in H.
  destruct (negb (hasGormTags st)); [exact H|].
  now rewrite List.filter_app, H, structWide_column, List.app_nil_r.
Qed.

Lemma validateStruct_multiple s :
  List.filter isMultiplePrimaryKeys (validateStruct s)
  = multiplePrimaryKeys s (primaryKeyNames (GoStruct.fields s)).
Proof.
  unfold validateStruct. destruct (GoStruct.fields s) as [|f fs] eqn:E;
    [reflexivity|].
  pose proof (fieldsLoop_multiple s (f :: fs) initialState) as H.
  pose proof (fieldsLoop_primaryKeyFields s (f :: fs) initialState) as Hp.
  pose proof (fieldsLoop_untagged s (f :: fs) initialState) as Hu.
  destruct (fieldsLoop s (f :: fs) initialState) as [d st].
  cbn [fst snd] in *. cbn [primaryKeyFields initialState app] in Hp.
  destruct (hasGormTags st); cbn [negb].
  - now rewrite List.filter_app, H, structWide_multiple, Hp.
  - rewrite H, (primaryKeyNames_untagged _ (Hu eq_refl)). reflexivity.
Qed.

Lemma validateGormTags_one s : validateGormTags [s] = validateStruct s.
Proof. unfold validateGormTags. cbn. apply List.app_nil_r. Qed.

(** ** Primary keys: one name per field that carries the key once *)

Lemma findField_distinct s f :
  List.NoDup (map GormTag.name (GoStruct.fields s)) ->
  In f (GoStruct.fields s) ->
  findField s (GormTag.name f) = Some f.
Proof.
  unfold findField. induction (GoStruct.fields s) as [|g fs IH];
    intros Hnd Hin; [destruct Hin|].
  cbn [map] in Hnd. apply List.NoDup_cons_iff in Hnd as [Hg Hnd].
  cbn [List.find]. destruct Hin as [->|Hin].
  - now rewrite String.eqb_refl.
  - destruct (String.eqb (GormTag.name g) (GormTag.name f)) eqn:E.
    + apply String.eqb_eq in E. exfalso. apply Hg. rewrite E.
      now apply List.in_map.
    + now apply IH.
Qed.

Lemma primaryKeyNames_once fs :
  (forall f, In f fs -> primaryKeyCount f <= 1)%nat ->
  primaryKeyNames fs
  = map GormTag.name (List.filter (fun f => (0 <? primaryKeyCount f)%nat) fs).
Proof.
  induction fs as [|f fs IH]; intros H; [reflexivity|].
  unfold primaryKeyNames in *. cbn [flat_map List.filter].
  rewrite IH by (intros g Hg; apply H; now right).
  specialize (H f (or_introl eq_refl)).
  destruct (primaryKeyCount f) as [|[|n]]; [reflexivity|reflexivity|lia].
Qed.

Lemma structWide_keyed s fs :
  List.NoDup (map GormTag.name (GoStruct.fields s)) ->
  (forall f, In f fs -> In f (GoStruct.fields s)) ->
  flat_map (structWide s msgMultiplePrimaryKeys Error) (map GormTag.name fs)
  = map (multipleDiag s) fs.
Proof.
  intros Hnd. induction fs as [|f fs IH]; intros Hin; [reflexivity|].
  cbn [map flat_map]. rewrite IH by (intros g Hg; apply Hin; now right).
  unfold structWide at 1.
  now rewrite (findField_distinct s f Hnd (Hin f (or_introl eq_refl))).
Qed.

(** ** Column reuse: what the map of owners does *)

Lemma columnMap_keep m es w o :
  m !! w = Some o -> columnMap m es !! w = Some o.
Proof.
  revert m. induction es as [|e es IH]; intros m H; cbn; [exact H|].
  destruct (m !! entryValue e) eqn:E; apply IH; [exact H|].
  rewrite lookup_insert_ne; [exact H|]. intros Heq. rewrite Heq in E.
  congruence.
Qed.

Lemma columnMap_fresh m es w :
  m !! w = None -> ~ In w (map entryValue es) -> columnMap m es !! w = None.
Proof.
  revert m. induction es as [|e es IH]; intros m H Hn; cbn; [exact H|].
  cbn in Hn. destruct (m !! entryValue e) eqn:E; apply IH; try tauto.
  rewrite lookup_insert_ne; [exact H|]. tauto.
Qed.

Lemma columnEntries_app fs1 fs2 :
  columnEntries (fs1 ++ fs2) = columnEntries fs1 ++ columnEntries fs2.
Proof. unfold columnEntries. apply List.flat_map_app. Qed.

Lemma columnEntries_values fs :
  map entryValue (columnEntries fs) = flat_map columnValuesOf fs.
Proof.
  induction fs as [|f fs IH]; [reflexivity|].
  rewrite columnEntries_cons, List.map_app, IH. cbn [flat_map].
  f_equal. unfold columnEntries, columnValuesOf. cbn [flat_map].
  rewrite List.app_nil_r, List.map_map. reflexivity.
Qed.

(** An occurrence of [v] among the column values of [f] is an entry. *)
Lemma columnEntries_split f v :
  In v (columnValuesOf f) ->
  exists a p b,
    columnEntries [f] = a ++ (f, p) :: b
    /\ partValue p = v /\ isColumnPart p = true.
Proof.
  unfold columnValuesOf, columnEntries. cbn [flat_map].
  rewrite List.app_nil_r. intros H.
  apply List.in_map_iff in H as (p & Hp & Hin).
  pose proof Hin as Hc. apply List.filter_In in Hc as [_ Hc].
  apply List.in_split in Hin as (a & b & Hab).
  exists (map (pair f) a), p, (map (pair f) b). rewrite Hab, List.map_app.
  now repeat split.
Qed.
(** ** The claims on the struct-wide checks *)

Lemma columnEntries_In fs e :
  In e (columnEntries fs) ->
  In (fst e) fs /\ In (snd e) (fieldParts (fst e))
  /\ isColumnPart (snd e) = true.
Proof.
  unfold columnEntries. intros H.
  apply List.in_flat_map in H as (f & Hf & H).
  apply List.in_map_iff in H as (p & <- & Hp).
  apply List.filter_In in Hp as [Hp Hc]. now repeat split.
Qed.

(** The diagnostics of the column check along entries none of which has
    the value [v] are for entries with another value. *)
Lemma columnReuse_others s v es : forall m,
  (forall e, In e es -> In e (columnEntries (GoStruct.fields s))) ->
  ~ In v (map entryValue es) ->
  Forall (reusesAnother s v) (columnReuse s m es).
Proof.
  induction es as [|e es IH]; intros m Hin Hv; cbn [columnReuse];
    [constructor|].
  cbn [map] in Hv.
  assert (IH' : forall m', Forall (reusesAnother s v) (columnReuse s m' es)).
  { intros m'. apply IH.
    - intros e' He'. apply Hin. now right.
    - intros Hx. apply Hv. now right. }
  destruct (m !! entryValue e) as [owner|]; [|apply IH'].
  constructor; [|apply IH'].
  destruct (columnEntries_In _ e (Hin e (or_introl eq_refl)))
    as (Hf & Hp & Hc).
  exists (fst e), (snd e), owner. repeat split; try assumption.
  intros Hv'. apply Hv. left. exact Hv'.
Qed.

Lemma count_occ_absent (l : list string) (x : string) :
  count_occ string_dec l x = 0%nat -> ~ In x l.
Proof. intros H. now apply List.count_occ_not_In in H. Qed.

(** C2, as the code has it.  In a struct where the value [v] is carried by
    a column entry of field [f1] and by a column entry of a later field
    [f2], and by no other column entry of the struct, exactly one
    duplicate-column diagnostic is emitted for [v]: an error on [f2] whose
    message names [f1] as the owner.  Every other duplicate-column
    diagnostic of the struct is for an entry with another value, so that
    the earlier field gets none for [v]. *)
Theorem column_reuse_reported_once (s : GoStruct.t)
  (pre mid post : list GormTag.t) (f1 f2 : GormTag.t) (v : string) :
  GoStruct.fields s = pre ++ f1 :: mid ++ f2 :: post ->
  In v (columnValuesOf f1) ->
  In v (columnValuesOf f2) ->
  count_occ string_dec (structColumnValues s) v = 2%nat ->
  exists key before after,
    Js.toLowerCase key = "column"
    /\ List.filter isDuplicateColumn (validateGormTags [s])
       = before
         ++ mkDiagnostic (GoStruct.name s) (GormTag.name f2)
              (GormTag.gormTag f2) (msgDuplicateColumn v (GormTag.name f1))
              Error (Some key)
         :: after
    /\ Forall (reusesAnother s v) (before ++ after).
Proof.
  intros Hfs H1 H2 Hv.
  apply columnEntries_split in H1 as (a1 & p1 & b1 & E1 & V1 & C1).
  apply columnEntries_split in H2 as (a2 & p2 & b2 & E2 & V2 & C2).
  set (es1 := columnEntries pre ++ a1).
  set (es2 := b1 ++ columnEntries mid ++ a2).
  set (es3 := b2 ++ columnEntries post).
  assert (Hes : columnEntries (GoStruct.fields s)
                = es1 ++ (f1, p1) :: es2 ++ (f2, p2) :: es3).
  { unfold es1, es2, es3.
    rewrite Hfs, columnEntries_app, columnEntries_cons, columnEntries_app,
      (columnEntries_cons f2), E1, E2.
    repeat (rewrite <- ?List.app_assoc; cbn [app]). reflexivity. }
  assert (Hsub : forall es a b, columnEntries (GoStruct.fields s) = a ++ es ++ b ->
            forall e, In e es -> In e (columnEntries (GoStruct.fields s))).
  { intros es a b E e He. rewrite E. apply List.in_or_app. right.
    apply List.in_or_app. now left. }
  assert (Hc : (count_occ string_dec (map entryValue es1) v
                + count_occ string_dec (map entryValue es2) v
                + count_occ string_dec (map entryValue es3) v = 0)%nat).
  { unfold structColumnValues in Hv.
    rewrite <- columnEntries_values, Hes in Hv.
    rewrite List.map_app, List.count_occ_app in Hv. cbn [map count_occ] in Hv.
    rewrite List.map_app, List.count_occ_app in Hv. cbn [map count_occ] in Hv.
    change (entryValue (f1, p1)) with (partValue p1) in Hv.
    change (entryValue (f2, p2)) with (partValue p2) in Hv.
    destruct (string_dec (partValue p1) v); [|congruence].
    destruct (string_dec (partValue p2) v); [|congruence]. lia. }
  assert (Hv1 : ~ In v (map entryValue es1)) by (apply count_occ_absent; lia).
  assert (Hv2 : ~ In v (map entryValue es2)) by (apply count_occ_absent; lia).
  assert (Hv3 : ~ In v (map entryValue es3)) by (apply count_occ_absent; lia).
  set (m2 := <[v := GormTag.name f1]> (columnMap ∅ es1)).
  exists (partKey p2), (columnReuse s ∅ es1 ++ columnReuse s m2 es2),
    (columnReuse s (columnMap m2 es2) es3).
  split; [|split].
  - unfold isColumnPart, isKey, lowerKeyOf in C2.
    apply andb_true_iff in C2 as [C2 _]. now apply String.eqb_eq in C2.
  - rewrite validateGormTags_one, validateStruct_column, Hes.
    rewrite columnReuse_app. cbn [columnReuse].
    unfold entryValue at 1 2. cbn [fst snd]. rewrite V1.
    rewrite (columnMap_fresh ∅ es1 v (lookup_empty _) Hv1). fold m2.
    rewrite columnReuse_app. cbn [columnReuse].
    unfold entryValue at 1. cbn [fst snd]. rewrite V2.
    rewrite (columnMap_keep m2 es2 v (GormTag.name f1))
      by (unfold m2; apply lookup_insert_eq).
    unfold columnDiag. rewrite V2. now rewrite <- List.app_assoc.
  - rewrite <- List.app_assoc. repeat (apply List.Forall_app; split).
    + apply columnReuse_others; [|exact Hv1].
      apply (Hsub es1 [] ((f1, p1) :: es2 ++ (f2, p2) :: es3)). exact Hes.
    + apply columnReuse_others; [|exact Hv2].
      apply (Hsub es2 (es1 ++ [(f1, p1)]) ((f2, p2) :: es3)).
      now rewrite Hes, <- List.app_assoc.
    + apply columnReuse_others; [|exact Hv3].
      apply (Hsub es3 (es1 ++ (f1, p1) :: es2 ++ [(f2, p2)]) []).
      rewrite Hes, List.app_nil_r.
      repeat (rewrite <- ?List.app_assoc; cbn [app]). reflexivity.
Qed.

Lemma column_reuse_witness :
  exists key before after,
    Js.toLowerCase key = "column"
    /\ List.filter isDuplicateColumn (validateGormTags [twoReuses])
       = before
         ++ mkDiagnostic "Account" "UserID" "column:user_id"
              (msgDuplicateColumn "user_id" "ID") Error (Some key)
         :: after
    /\ Forall (reusesAnother twoReuses "user_id") (before ++ after).
Proof.
  apply (column_reuse_reported_once twoReuses []
           [GormTag.mk "Email" "string" "column:mail"]
           [GormTag.mk "Contact" "string" "column:mail"]
           (GormTag.mk "ID" "uint" "column:user_id")
           (GormTag.mk "UserID" "uint" "column:user_id") "user_id").
  - reflexivity.
  - vm_compute. now left.
  - vm_compute. now left.
  - vm_compute. reflexivity.
Defined.

(** C2 as stated fails: two fields carry the value, the later one in two
    entries, and the reuse is reported twice. *)
Lemma column_reuse_counted_per_entry :
  let s := repeatedInOneField in
  let carriers :=
    List.filter (fun f => existsb (String.eqb "user_id") (columnValuesOf f))
      (GoStruct.fields s) in
  map GormTag.name carriers = ["ID"; "UserID"]
  /\ List.filter isDuplicateColumn (validateGormTags [s])
     = [mkDiagnostic "Account" "UserID" "column:user_id;column:user_id"
          (msgDuplicateColumn "user_id" "ID") Error (Some "column");
        mkDiagnostic "Account" "UserID" "column:user_id;column:user_id"
          (msgDuplicateColumn "user_id" "ID") Error (Some "column")].
Proof. split; vm_compute; reflexivity. Qed.

(** C3, as the code has it.  In a struct whose fields have distinct names
    and none of whose fields repeats the key primaryKey in its literal: when
    N > 1 fields carry the key, exactly N multiple-primary-key errors are
    emitted, one on each such field, the first included, in declaration
    order; when at most one field carries it, none is emitted. *)
Theorem multiple_primary_keys_one_per_field (s : GoStruct.t) :
  List.NoDup (map GormTag.name (GoStruct.fields s)) ->
  (forall f, In f (GoStruct.fields s) -> (primaryKeyCount f <= 1)%nat) ->
  let keyed :=
    List.filter (fun f => (0 <? primaryKeyCount f)%nat) (GoStruct.fields s) in
  List.filter isMultiplePrimaryKeys (validateGormTags [s])
  = if (1 <? length keyed)%nat then map (multipleDiag s) keyed else [].
Proof.
  intros Hnd Hone keyed.
  rewrite validateGormTags_one, validateStruct_multiple.
  rewrite (primaryKeyNames_once _ Hone). fold keyed.
  unfold multiplePrimaryKeys. rewrite List.length_map.
  destruct (1 <? length keyed)%nat; [|reflexivity].
  apply structWide_keyed; [exact Hnd|].
  intros f Hf. unfold keyed in Hf. now apply List.filter_In in Hf as [Hf _].
Qed.

Lemma multiple_primary_keys_witness :
  List.filter isMultiplePrimaryKeys (validateGormTags [twoPrimaryKeys])
  = [multipleDiag twoPrimaryKeys (GormTag.mk "ID1" "uint" "primaryKey");
     multipleDiag twoPrimaryKeys
       (GormTag.mk "ID2" "uint" "primaryKey;autoIncrement")].
Proof.
  apply (multiple_primary_keys_one_per_field twoPrimaryKeys).
  - repeat constructor; cbn; intuition discriminate.
  - intros f [<-|[<-|[<-|[]]]]; vm_compute; lia.
Defined.

(** C3 as stated fails: one field alone, whose literal has the key twice,
    gets multiple-primary-key errors. *)
Lemma multiple_primary_keys_single_field :
  let s := userWith "primaryKey;primaryKey" in
  (length (List.filter (fun f => (0 <? primaryKeyCount f)%nat)
             (GoStruct.fields s)) <= 1)%nat
  /\ List.filter isMultiplePrimaryKeys (validateGormTags [s]) <> [].
Proof. split; [vm_compute; lia | vm_compute; discriminate]. Qed.

(** ** The claims on the combination rules *)

Lemma setHas_In keys k : setHas keys k = true <-> In k keys.
Proof.
  unfold setHas. rewrite List.existsb_exists. split.
  - intros (x & Hx & E). apply String.eqb_eq in E. now subst.
  - intros H. exists k. split; [exact H|apply String.eqb_refl].
Qed.

Lemma setAdd_In keys k x : In x (setAdd keys k) <-> In x keys \/ x = k.
Proof.
  unfold setAdd. destruct (setHas keys k) eqn:E.
  - apply setHas_In in E. split; [now left|]. intros [H| ->]; assumption.
  - rewrite List.in_app_iff. cbn. intuition.
Qed.

(** A diagnostic of the field-local pass of [f] is in the output. *)
Lemma fieldsLoop_emits s fs st f (P : GormDiagnostic -> Prop) :
  In f fs ->
  (forall st', exists d, In d (fst (processField s st' f)) /\ P d) ->
  exists d, In d (fst (fieldsLoop s fs st)) /\ P d.
Proof.
  revert st. induction fs as [|g fs IH]; intros st Hin H; [destruct Hin|].
  rewrite fieldsLoop_cons. cbn [fst snd]. destruct Hin as [->|Hin].
  - destruct (H st) as (d & Hd & HP). exists d.
    split; [apply List.in_or_app; now left|exact HP].
  - destruct (IH (snd (processField s st g)) Hin H) as (d & Hd & HP).
    exists d. split; [apply List.in_or_app; now right|exact HP].
Qed.

Lemma validateStruct_emits s d :
  In d (fst (fieldsLoop s (GoStruct.fields s) initialState)) ->
  In d (validateStruct s).
Proof.
  unfold validateStruct. destruct (GoStruct.fields s) as [|f fs];
    [intros []|].
  destruct (fieldsLoop s (f :: fs) initialState) as [ds st]. cbn [fst].
  destruct (negb (hasGormTags st)); [trivial|].
  intros H. apply List.in_or_app. now left.
Qed.

Lemma validateGormTags_emits structs s f (P : GormDiagnostic -> Prop) :
  In s structs -> In f (GoStruct.fields s) ->
  (forall st, exists d,
      In d (fst (partsLoop s f (fieldParts f) [] st)) /\ P d) ->
  exists d, In d (validateGormTags structs) /\ P d.
Proof.
  intros Hs Hf H.
  destruct (fieldsLoop_emits s (GoStruct.fields s) initialState f P Hf)
    as (d & Hd & HP).
  { intros st'. rewrite processField_eq. cbn [fst]. apply H. }
  exists d. split; [|exact HP].
  unfold validateGormTags. apply List.in_flat_map. exists s.
  split; [exact Hs|now apply validateStruct_emits].
Qed.

Lemma processPart_conflict s f keys st p :
  let keys' := setAdd keys (lowerKeyOf p) in
  (lowerKeyOf p = "primarykey" /\ In "unique" keys'
   \/ lowerKeyOf p = "unique" /\ In "primarykey" keys') ->
  exists d, In d (fst (processPart s f keys st p)) /\ conflictOn s f d.
Proof.
  intros keys' H.
  set (diag := fun msg =>
    mkDiagnostic (GoStruct.name s) (GormTag.name f) (GormTag.gormTag f)
      msg Error (Some (partKey p))).
  assert (Hin : exists msg,
    (msg = msgPrimaryKeyUnique \/ msg = msgUniquePrimaryKey)
    /\ In (diag msg)
         (pushIf (String.eqb (lowerKeyOf p) "primarykey" && setHas keys' "unique")
            (diag msgPrimaryKeyUnique)
          ++ pushIf (String.eqb (lowerKeyOf p) "unique"
                     && setHas keys' "primarykey")
            (diag msgUniquePrimaryKey))).
  { destruct H as [[E Hk]|[E Hk]]; apply setHas_In in Hk; rewrite E, Hk.
    - exists msgPrimaryKeyUnique. split; [now left|]. cbn. now left.
    - exists msgUniquePrimaryKey. split; [now right|]. cbn. now left. }
  destruct Hin as (msg & Hmsg & Hin). exists (diag msg). split.
  - unfold processPart. fold (lowerKeyOf p). fold keys'.
    destruct (String.eqb _ "column" && _); [destruct (_ !! _)|]; cbn [fst];
      apply List.in_or_app; right; apply List.in_or_app; left; exact Hin.
  - unfold conflictOn, isConflict, diag. cbn.
    destruct Hmsg as [-> | ->]; repeat split; reflexivity.
Qed.

Lemma partsLoop_conflict s f ps keys st :
  In "primarykey" (keys ++ map lowerKeyOf ps) ->
  In "unique" (keys ++ map lowerKeyOf ps) ->
  ~ (In "primarykey" keys /\ In "unique" keys) ->
  exists d, In d (fst (partsLoop s f ps keys st)) /\ conflictOn s f d.
Proof.
  revert keys st. induction ps as [|p ps IH]; intros keys st Hp Hu Hn.
  - cbn in Hp, Hu. rewrite List.app_nil_r in Hp, Hu. tauto.
  - rewrite partsLoop_cons. cbn [fst snd]. rewrite processPart_keys.
    set (keys' := setAdd keys (lowerKeyOf p)).
    destruct (List.in_dec string_dec "primarykey" keys') as [Hp'|Hp'];
      [destruct (List.in_dec string_dec "unique" keys') as [Hu'|Hu']|].
    + destruct (processPart_conflict s f keys st p) as (d & Hd & HP).
      { fold keys'. apply setAdd_In in Hp', Hu'.
        destruct Hp' as [Hp'|Hp']; destruct Hu' as [Hu'|Hu'].
        - tauto.
        - right. split; [congruence|]. apply setAdd_In. now left.
        - left. split; [congruence|]. apply setAdd_In. now left.
        - congruence. }
      exists d. split; [apply List.in_or_app; now left|exact HP].
    + destruct (IH keys' (snd (snd (processPart s f keys st p))))
        as (d & Hd & HP); try tauto.
      * apply List.in_or_app. now left.
      * cbn [map] in Hu. apply List.in_app_iff in Hu as [Hu|[Hu|Hu]].
        -- exfalso. apply Hu', setAdd_In. now left.
        -- exfalso. apply Hu', setAdd_In. now right.
        -- apply List.in_or_app. now right.
      * exists d. split; [apply List.in_or_app; now right|exact HP].
    + destruct (IH keys' (snd (snd (processPart s f keys st p))))
        as (d & Hd & HP); try tauto.
      * cbn [map] in Hp. apply List.in_app_iff in Hp as [Hp|[Hp|Hp]].
        -- exfalso. apply Hp', setAdd_In. now left.
        -- exfalso. apply Hp', setAdd_In. now right.
        -- apply List.in_or_app. now right.
      * cbn [map] in Hu. apply List.in_app_iff in Hu as [Hu|[Hu|Hu]].
        -- apply List.in_or_app. left. apply setAdd_In. now left.
        -- apply List.in_or_app. left. apply setAdd_In. now right.
        -- apply List.in_or_app. now right.
      * exists d. split; [apply List.in_or_app; now right|exact HP].
Qed.

(** C1, as the code has it.  For [User] with the single field [ID] tagged
    primaryKey;unique, validation emits exactly one diagnostic: the error of
    the unique/primaryKey conflict, attributed to [ID].  In general, a field
    whose entries include both keys, in either order, gets an error for the
    conflict, attributed to it. *)
Theorem primaryKey_unique_conflict :
  validateGormTags [userWith "primaryKey;unique"]
  = [mkDiagnostic "User" "ID" "primaryKey;unique" msgUniquePrimaryKey Error
       (Some "unique")]
  /\ forall (structs : list GoStruct.t) (s : GoStruct.t) (f : GormTag.t),
       In s structs -> In f (GoStruct.fields s) ->
       In "primarykey" (fieldKeys f) -> In "unique" (fieldKeys f) ->
       exists d, In d (validateGormTags structs) /\ conflictOn s f d.
Proof.
  split; [vm_compute; reflexivity|].
  intros structs s f Hs Hf Hp Hu.
  apply (validateGormTags_emits structs s f (conflictOn s f) Hs Hf).
  intros st. apply partsLoop_conflict; cbn [app]; try assumption.
  intros [[] _].
Qed.

Lemma primaryKey_unique_conflict_witness :
  exists d,
    In d (validateGormTags [userWith "size:64"; userWith "Unique;PRIMARYKEY"])
    /\ conflictOn (userWith "Unique;PRIMARYKEY")
         (GormTag.mk "ID" "uint" "Unique;PRIMARYKEY") d.
Proof.
  apply (proj2 primaryKey_unique_conflict
           [userWith "size:64"; userWith "Unique;PRIMARYKEY"]
           (userWith "Unique;PRIMARYKEY")
           (GormTag.mk "ID" "uint" "Unique;PRIMARYKEY")).
  - right. left. reflexivity.
  - left. reflexivity.
  - vm_compute. right. left. reflexivity.
  - vm_compute. left. reflexivity.
Defined.

(** C1 as stated fails: the literal primaryKey;unique gets one error, not
    two. *)
Lemma primaryKey_unique_single_error :
  let out := validateGormTags [userWith "primaryKey;unique"] in
  length (List.filter isError out) = 1%nat
  /\ length (List.filter isConflict out) <> 2%nat.
Proof. split; [vm_compute; reflexivity | vm_compute; discriminate]. Qed.

(** ** The pairing rule and the time-tracking rule along a field *)

Lemma quiet_pushIf c d : quiet d -> Forall quiet (pushIf c d).
Proof. intros H. destruct c; simpl; auto. Qed.

Ltac quiet_now :=
  repeat first
    [ apply List.Forall_nil
    | apply List.Forall_cons
    | apply List.Forall_app; split
    | apply quiet_pushIf
    | (split; reflexivity) ].

Lemma validateTagValue_quiet key value sn fn tg ok :
  Forall quiet (validateTagValue key value sn fn tg ok).
Proof.
  switch_cases key; try solve [quiet_now].
  - destruct (missing value); quiet_now.
  - destruct (missing value); [quiet_now|].
    apply List.Forall_flat_map, List.Forall_forall. intros part _. quiet_now.
Qed.

Lemma filter_pushIf (p : GormDiagnostic -> bool) c d :
  List.filter p (pushIf c d) = if p d then pushIf c d else [].
Proof. destruct c; cbn; [|now destruct (p d)]. now destruct (p d). Qed.

Lemma validateTagCombinations_pairing keys ck sn fn tg ok :
  List.filter isPairing (validateTagCombinations keys ck sn fn tg ok)
  = pushIf (pairingCond keys ck)
      (mkDiagnostic sn fn tg msgForeignKeyPairing Warning (Some (orKey ok ck))).
Proof.
  unfold validateTagCombinations, pairingCond.
  destruct (String.eqb ck "primarykey");
    rewrite !List.filter_app, !filter_pushIf; cbn [List.filter];
    repeat match goal with
    | |- context [isPairing ?d] =>
        let b := eval lazy in (isPairing d) in
        change (isPairing d) with b
    end; cbn [app]; now rewrite ?List.app_nil_r.
Qed.

Lemma validateTagCombinations_timeTracking keys ck sn fn tg ok :
  List.filter isTimeTracking (validateTagCombinations keys ck sn fn tg ok)
  = pushIf (timeTrackingCond keys ck)
      (mkDiagnostic sn fn tg msgTimeTracking Warning (Some (orKey ok ck))).
Proof.
  unfold validateTagCombinations, timeTrackingCond.
  destruct (String.eqb ck "primarykey");
    rewrite !List.filter_app, !filter_pushIf; cbn [List.filter];
    repeat match goal with
    | |- context [isTimeTracking ?d] =>
        let b := eval lazy in (isTimeTracking d) in
        change (isTimeTracking d) with b
    end; cbn [app]; now rewrite ?List.app_nil_r.
Qed.

Lemma quiet_filter (sel : GormDiagnostic -> bool) l :
  (forall d, quiet d -> sel d = false) -> Forall quiet l -> List.filter sel l = [].
Proof.
  intros Hsel H. apply filter_none. eapply List.Forall_impl; [|exact H].
  exact Hsel.
Qed.

(** Of what one part pushes, only [validateTagCombinations] can push a
    finding of these two rules. *)
Lemma processPart_rest_quiet (sel : GormDiagnostic -> bool) s f keys p :
  (forall d, quiet d -> sel d = false) ->
  let key := partKey p in
  let lowerKey := Js.toLowerCase key in
  let diag msg lvl :=
    mkDiagnostic (GoStruct.name s) (GormTag.name f) (GormTag.gormTag f)
      msg lvl (Some key) in
  forall dColumn, Forall quiet dColumn ->
  forall keys',
  let combinations :=
    validateTagCombinations keys' lowerKey (GoStruct.name s)
      (GormTag.name f) (GormTag.gormTag f) key in
  List.filter sel
    (pushIf (setHas keys lowerKey) (diag (msgDuplicateKey key) Error)
     ++ (pushIf (String.eqb lowerKey "primarykey" && setHas keys' "unique")
           (diag msgPrimaryKeyUnique Error)
         ++ pushIf (String.eqb lowerKey "unique" && setHas keys' "primarykey")
           (diag msgUniquePrimaryKey Error))
     ++ dColumn
     ++ (if negb (valid (isValidGormKey lowerKey))
         then [diag (msgUnknownTag key) Error]
         else if negb (recommended (isValidGormKey lowerKey))
         then [diag (msgNotRecommended key) Warning] else [])
     ++ validateTagValue lowerKey (partValue p) (GoStruct.name s)
          (GormTag.name f) (GormTag.gormTag f) key
     ++ combinations)
  = List.filter sel combinations.
Proof.
  intros Hsel key lowerKey diag dColumn Hc keys' combinations.
  assert (H1 : Forall quiet
     (pushIf (setHas keys lowerKey) (diag (msgDuplicateKey key) Error)))
    by quiet_now.
  assert (H2 : Forall quiet
     (pushIf (String.eqb lowerKey "primarykey" && setHas keys' "unique")
        (diag msgPrimaryKeyUnique Error))) by quiet_now.
  assert (H2' : Forall quiet
     (pushIf (String.eqb lowerKey "unique" && setHas keys' "primarykey")
        (diag msgUniquePrimaryKey Error))) by quiet_now.
  assert (H3 : Forall quiet
     (if negb (valid (isValidGormKey lowerKey))
      then [diag (msgUnknownTag key) Error]
      else if negb (recommended (isValidGormKey lowerKey))
      then [diag (msgNotRecommended key) Warning] else [])).
  { destruct (negb (valid _)); [quiet_now|].
    destruct (negb (recommended _)); quiet_now. }
  assert (H4 := validateTagValue_quiet lowerKey (partValue p)
                  (GoStruct.name s) (GormTag.name f) (GormTag.gormTag f) key).
  rewrite !List.filter_app.
  now rewrite (quiet_filter sel _ Hsel H1), (quiet_filter sel _ Hsel H2),
    (quiet_filter sel _ Hsel H2'), (quiet_filter sel _ Hsel H3),
    (quiet_filter sel _ Hsel H4), (quiet_filter sel _ Hsel Hc).
Qed.

Lemma processPart_quiet (sel : GormDiagnostic -> bool) s f keys st p :
  (forall d, quiet d -> sel d = false) ->
  List.filter sel (fst (processPart s f keys st p))
  = List.filter sel
      (validateTagCombinations (setAdd keys (lowerKeyOf p)) (lowerKeyOf p)
         (GoStruct.name s) (GormTag.name f) (GormTag.gormTag f) (partKey p)).
Proof.
  intros Hsel. unfold processPart, lowerKeyOf.
  destruct (String.eqb _ "column" && _); [destruct (_ !! _) as [owner|]|];
    cbn [fst].
  - apply (processPart_rest_quiet sel s f keys p Hsel [columnDiag s f p owner]).
    quiet_now.
  - apply (processPart_rest_quiet sel s f keys p Hsel []). constructor.
  - apply (processPart_rest_quiet sel s f keys p Hsel []). constructor.
Qed.

Section CombinationRule.

(** A rule of [validateTagCombinations]: [sel] recognises its finding,
    [cond] is its condition and [msg] its message. *)
Variable sel : GormDiagnostic -> bool.
Variable cond : list string -> string -> bool.
Variable msg : string.

Hypothesis sel_quiet : forall d, quiet d -> sel d = false.
Hypothesis sel_combination : forall keys ck sn fn tg ok,
  List.filter sel (validateTagCombinations keys ck sn fn tg ok)
  = pushIf (cond keys ck) (mkDiagnostic sn fn tg msg Warning (Some (orKey ok ck))).
Hypothesis sel_wide : forall s pks names,
  List.filter sel (multiplePrimaryKeys s pks ++ sharedIndexNames s names) = [].

Lemma partsLoop_rule s f ps keys st :
  List.filter sel (fst (partsLoop s f ps keys st))
  = along cond (combinationDiag s f msg) keys ps.
Proof using sel_quiet sel_combination.
  revert keys st. induction ps as [|p ps IH]; intros keys st; [reflexivity|].
  rewrite partsLoop_cons. cbn [fst snd along].
  rewrite List.filter_app, IH, processPart_keys.
  now rewrite (processPart_quiet sel s f keys st p sel_quiet), sel_combination.
Qed.

Lemma fieldsLoop_rule s fs st :
  List.filter sel (fst (fieldsLoop s fs st))
  = flat_map (fun f => along cond (combinationDiag s f msg) [] (fieldParts f)) fs.
Proof using sel_quiet sel_combination.
  revert st. induction fs as [|f fs IH]; intros st; [reflexivity|].
  rewrite fieldsLoop_cons. cbn [fst snd flat_map].
  rewrite List.filter_app, IH, processField_eq. cbn [fst].
  now rewrite partsLoop_rule.
Qed.

Lemma validateStruct_rule s :
  List.filter sel (validateStruct s)
  = flat_map (fun f => along cond (combinationDiag s f msg) [] (fieldParts f))
      (GoStruct.fields s).
Proof using sel_quiet sel_combination sel_wide.
  unfold validateStruct. destruct (GoStruct.fields s) as [|f fs] eqn:E;
    [reflexivity|].
  pose proof (fieldsLoop_rule s (f :: fs) initialState) as H.
  destruct (fieldsLoop s (f :: fs) initialState) as [d st]. cbn [fst] in H.
  destruct (negb (hasGormTags st)); [exact H|].
  now rewrite List.filter_app, H, sel_wide, List.app_nil_r.
Qed.

End CombinationRule.

Lemma structWide_quiet s pks names :
  Forall quiet (multiplePrimaryKeys s pks ++ sharedIndexNames s names).
Proof.
  apply List.Forall_app. split.
  - eapply List.Forall_impl; [|apply multiplePrimaryKeys_message].
    intros d H. unfold quiet, isPairing, isTimeTracking. now rewrite H.
  - eapply List.Forall_impl; [|apply sharedIndexNames_message].
    intros d H. unfold quiet, isPairing, isTimeTracking.
    cbn beta in H. revert H.
    destruct (message d) as [|c m]; [discriminate|]. intros H.
    cbn [Js.startsWith] in H. apply andb_true_iff in H as [H _].
    apply Ascii.eqb_eq in H. subst c. split; reflexivity.
Qed.

(** The pairing warnings of a struct: for each field, those of the rule
    along its entries. *)
Lemma validateStruct_pairing s :
  List.filter isPairing (validateStruct s)
  = flat_map (fun f =>
      along pairingCond (combinationDiag s f msgForeignKeyPairing) []
        (fieldParts f)) (GoStruct.fields s).
Proof.
  apply validateStruct_rule.
  - now intros d [H _].
  - apply validateTagCombinations_pairing.
  - intros s' pks names. apply quiet_filter; [now intros d [H _]|].
    apply structWide_quiet.
Qed.

Lemma validateStruct_timeTracking s :
  List.filter isTimeTracking (validateStruct s)
  = flat_map (fun f =>
      along timeTrackingCond (combinationDiag s f msgTimeTracking) []
        (fieldParts f)) (GoStruct.fields s).
Proof.
  apply validateStruct_rule.
  - now intros d [_ H].
  - apply validateTagCombinations_timeTracking.
  - intros s' pks names. apply quiet_filter; [now intros d [_ H]|].
    apply structWide_quiet.
Qed.

Lemma fold_setAdd_In ks : forall keys x,
  In x (fold_left setAdd ks keys) <-> In x keys \/ In x ks.
Proof.
  induction ks as [|k ks IH]; intros keys x; cbn; [tauto|].
  rewrite IH, setAdd_In. intuition.
Qed.

Lemma along_app cond mk ps1 ps2 : forall keys,
  along cond mk keys (ps1 ++ ps2)
  = along cond mk keys ps1
    ++ along cond mk (fold_left setAdd (map lowerKeyOf ps1) keys) ps2.
Proof.
  induction ps1 as [|p ps1 IH]; intros keys; [reflexivity|].
  cbn [app along map fold_left]. now rewrite IH, List.app_assoc.
Qed.

Lemma setHas_false keys k : ~ In k keys -> setHas keys k = false.
Proof.
  intros H. destruct (setHas keys k) eqn:E; [|reflexivity].
  now apply setHas_In in E.
Qed.

(** A foreignKey entry with no references entry before it is warned about. *)
Lemma pairing_emitted s f ps1 p ps2 :
  fieldParts f = ps1 ++ p :: ps2 ->
  lowerKeyOf p = "foreignkey" ->
  ~ In "references" (map lowerKeyOf ps1) ->
  In (combinationDiag s f msgForeignKeyPairing p) (pairingWarnings s f).
Proof.
  intros Hps Hp Hr. unfold pairingWarnings. rewrite Hps, along_app.
  apply List.in_or_app. right. cbn [along]. apply List.in_or_app. left.
  unfold pairingCond. rewrite Hp.
  rewrite (proj2 (setHas_In _ _)) by (apply setAdd_In; now right).
  rewrite setHas_false; [now left|].
  intros H. apply setAdd_In in H as [H|H]; [|discriminate].
  apply fold_setAdd_In in H as [[]|H]. exact (Hr H).
Qed.

(** When every foreignKey entry comes after a references entry, nothing is
    warned about. *)
Lemma pairing_silent mk ps : forall keys,
  (In "references" keys \/ ~ In "foreignkey" keys) ->
  (forall ps1 p ps2, ps = ps1 ++ p :: ps2 -> lowerKeyOf p = "foreignkey" ->
     In "references" (keys ++ map lowerKeyOf ps1)) ->
  along pairingCond mk keys ps = [].
Proof.
  induction ps as [|p ps IH]; intros keys Hk H; [reflexivity|].
  cbn [along]. set (keys' := setAdd keys (lowerKeyOf p)).
  assert (Hk' : In "references" keys' \/ ~ In "foreignkey" keys').
  { destruct (string_dec (lowerKeyOf p) "foreignkey") as [E|E].
    - left. apply setAdd_In. left.
      specialize (H [] p ps eq_refl E). cbn in H.
      now rewrite List.app_nil_r in H.
    - destruct Hk as [Hk|Hk]; [left; apply setAdd_In; now left|].
      right. intros Hf. apply setAdd_In in Hf as [Hf|Hf]; [tauto|congruence]. }
  rewrite IH; [|exact Hk'|].
  - rewrite List.app_nil_r. unfold pairingCond.
    destruct Hk' as [Hr|Hf].
    + rewrite (proj2 (setHas_In _ _) Hr). now rewrite andb_false_r.
    + now rewrite (setHas_false _ _ Hf).
  - intros ps1 q ps2 E Hq. specialize (H (p :: ps1) q ps2).
    cbn [app map] in H. rewrite E in H. specialize (H eq_refl Hq).
    apply List.in_app_iff in H as [H|[H|H]].
    + apply List.in_or_app. left. apply setAdd_In. now left.
    + apply List.in_or_app. left. apply setAdd_In. now right.
    + apply List.in_or_app. now right.
Qed.

(** An autoUpdateTime entry with an autoCreateTime entry before it gets the
    reminder. *)
Lemma timeTracking_emitted s f ps1 p ps2 :
  fieldParts f = ps1 ++ p :: ps2 ->
  lowerKeyOf p = "autoupdatetime" ->
  In "autocreatetime" (map lowerKeyOf ps1) ->
  In (combinationDiag s f msgTimeTracking p) (timeTrackingWarnings s f).
Proof.
  intros Hps Hp Hc. unfold timeTrackingWarnings. rewrite Hps, along_app.
  apply List.in_or_app. right. cbn [along]. apply List.in_or_app. left.
  unfold timeTrackingCond. rewrite Hp.
  rewrite (proj2 (setHas_In _ "autocreatetime")), (proj2 (setHas_In _ "autoupdatetime")).
  - now left.
  - apply setAdd_In. now right.
  - apply setAdd_In. left. apply fold_setAdd_In. now right.
Qed.

(** When no autoUpdateTime entry has an autoCreateTime entry before it,
    there is no reminder, whatever comes after. *)
Lemma timeTracking_silent mk ps : forall keys,
  (forall ps1 p ps2, ps = ps1 ++ p :: ps2 -> lowerKeyOf p = "autoupdatetime" ->
     ~ In "autocreatetime" (keys ++ map lowerKeyOf ps1)) ->
  along timeTrackingCond mk keys ps = [].
Proof.
  induction ps as [|p ps IH]; intros keys H; [reflexivity|].
  cbn [along]. rewrite IH.
  - rewrite List.app_nil_r. unfold timeTrackingCond.
    destruct (String.eqb (lowerKeyOf p) "autoupdatetime") eqn:E;
      [|now rewrite andb_false_r].
    apply String.eqb_eq in E. specialize (H [] p ps eq_refl E). cbn in H.
    rewrite List.app_nil_r in H.
    rewrite setHas_false; [reflexivity|].
    intros Hc. apply setAdd_In in Hc as [Hc|Hc]; [tauto|]. rewrite E in Hc.
    discriminate.
  - intros ps1 q ps2 E Hq Hc. apply (H (p :: ps1) q ps2).
    + cbn [app]. now rewrite E.
    + exact Hq.
    + cbn [map]. apply List.in_app_iff in Hc as [Hc|Hc].
      * apply setAdd_In in Hc as [Hc|Hc].
        -- apply List.in_or_app. now left.
        -- apply List.in_or_app. right. now left.
      * apply List.in_or_app. right. now right.
Qed.

(** C4 on the code.  With foreignKey before references the field gets the
    pairing warning although both keys are present; with references first
    it gets none; with foreignKey alone it gets it.  In general the pairing
    warnings of a struct are those of its fields; a foreignKey entry gets
    one when no references entry comes before it in the literal, and a field
    gets none when each of its foreignKey entries comes after a references
    entry. *)
Theorem foreignKey_pairing_depends_on_order :
  List.filter isPairing
    (validateGormTags [userWith "foreignKey:UserID;references:ID"])
  = [mkDiagnostic "User" "ID" "foreignKey:UserID;references:ID"
       msgForeignKeyPairing Warning (Some "foreignKey")]
  /\ List.filter isPairing
       (validateGormTags [userWith "references:ID;foreignKey:UserID"]) = []
  /\ List.filter isPairing (validateGormTags [userWith "foreignKey:UserID"])
     = [mkDiagnostic "User" "ID" "foreignKey:UserID" msgForeignKeyPairing
          Warning (Some "foreignKey")]
  /\ (forall s,
        List.filter isPairing (validateGormTags [s])
        = flat_map (pairingWarnings s) (GoStruct.fields s))
  /\ (forall s f ps1 p ps2,
        fieldParts f = ps1 ++ p :: ps2 ->
        lowerKeyOf p = "foreignkey" ->
        ~ In "references" (map lowerKeyOf ps1) ->
        In (combinationDiag s f msgForeignKeyPairing p) (pairingWarnings s f))
  /\ (forall s f,
        (forall ps1 p ps2,
           fieldParts f = ps1 ++ p :: ps2 -> lowerKeyOf p = "foreignkey" ->
           In "references" (map lowerKeyOf ps1)) ->
        pairingWarnings s f = []).
Proof.
  split; [vm_compute; reflexivity|].
  split; [vm_compute; reflexivity|].
  split; [vm_compute; reflexivity|].
  split; [|split].
  - intros s. rewrite validateGormTags_one. apply validateStruct_pairing.
  - apply pairing_emitted.
  - intros s f H. apply pairing_silent; [right; intros []|exact H].
Qed.

Lemma foreignKey_pairing_witness :
  In (combinationDiag (userWith "foreignKey:UserID;references:ID")
        (GormTag.mk "ID" "uint" "foreignKey:UserID;references:ID")
        msgForeignKeyPairing "foreignKey:UserID")
     (pairingWarnings (userWith "foreignKey:UserID;references:ID")
        (GormTag.mk "ID" "uint" "foreignKey:UserID;references:ID"))
  /\ pairingWarnings (userWith "references:ID;foreignKey:UserID")
       (GormTag.mk "ID" "uint" "references:ID;foreignKey:UserID") = [].
Proof.
  destruct foreignKey_pairing_depends_on_order as (_ & _ & _ & _ & H5 & H6).
  split.
  - apply (H5 _ _ [] "foreignKey:UserID" ["references:ID"]).
    + vm_compute. reflexivity.
    + vm_compute. reflexivity.
    + intros [].
  - apply H6. intros ps1 p ps2 E Hp.
    assert (Hparts : fieldParts
              (GormTag.mk "ID" "uint" "references:ID;foreignKey:UserID")
            = ["references:ID"; "foreignKey:UserID"])
      by (vm_compute; reflexivity).
    rewrite Hparts in E.
    destruct ps1 as [|q1 [|q2 [|q3 ps1]]]; cbn in E.
    + injection E as <- _. vm_compute in Hp. discriminate Hp.
    + injection E as <- _. vm_compute. left. reflexivity.
    + injection E as _ _ E. discriminate E.
    + injection E as _ _ E. discriminate E.
Defined.

(** C5 on the code.  With autoCreateTime before autoUpdateTime the field
    gets one co-occurrence finding, a warning; with autoUpdateTime first it
    gets no finding at all.  In general the findings of a struct are those
    of its fields; an autoUpdateTime entry gets one when an autoCreateTime
    entry comes before it, and a field gets none when no autoUpdateTime
    entry has an autoCreateTime entry before it. *)
Theorem time_tracking_depends_on_order :
  validateGormTags [userWith "autoCreateTime;autoUpdateTime"]
  = [mkDiagnostic "User" "ID" "autoCreateTime;autoUpdateTime" msgTimeTracking
       Warning (Some "autoUpdateTime")]
  /\ validateGormTags [userWith "autoUpdateTime;autoCreateTime"] = []
  /\ (forall s,
        List.filter isTimeTracking (validateGormTags [s])
        = flat_map (timeTrackingWarnings s) (GoStruct.fields s))
  /\ (forall s f ps1 p ps2,
        fieldParts f = ps1 ++ p :: ps2 ->
        lowerKeyOf p = "autoupdatetime" ->
        In "autocreatetime" (map lowerKeyOf ps1) ->
        In (combinationDiag s f msgTimeTracking p) (timeTrackingWarnings s f))
  /\ (forall s f,
        (forall ps1 p ps2,
           fieldParts f = ps1 ++ p :: ps2 -> lowerKeyOf p = "autoupdatetime" ->
           ~ In "autocreatetime" (map lowerKeyOf ps1)) ->
        timeTrackingWarnings s f = []).
Proof.
  split; [vm_compute; reflexivity|].
  split; [vm_compute; reflexivity|].
  split; [|split].
  - intros s. rewrite validateGormTags_one. apply validateStruct_timeTracking.
  - apply timeTracking_emitted.
  - intros s f H. apply timeTracking_silent. exact H.
Qed.

Lemma time_tracking_witness :
  In (combinationDiag (userWith "autoCreateTime;autoUpdateTime")
        (GormTag.mk "ID" "uint" "autoCreateTime;autoUpdateTime")
        msgTimeTracking "autoUpdateTime")
     (timeTrackingWarnings (userWith "autoCreateTime;autoUpdateTime")
        (GormTag.mk "ID" "uint" "autoCreateTime;autoUpdateTime"))
  /\ timeTrackingWarnings (userWith "autoUpdateTime;autoCreateTime")
       (GormTag.mk "ID" "uint" "autoUpdateTime;autoCreateTime") = [].
Proof.
  destruct time_tracking_depends_on_order as (_ & _ & _ & H4 & H5).
  split.
  - apply (H4 _ _ ["autoCreateTime"] "autoUpdateTime" []).
    + vm_compute. reflexivity.
    + vm_compute. reflexivity.
    + vm_compute. left. reflexivity.
  - apply H5. intros ps1 p ps2 E Hp.
    assert (Hparts : fieldParts
              (GormTag.mk "ID" "uint" "autoUpdateTime;autoCreateTime")
            = ["autoUpdateTime"; "autoCreateTime"])
      by (vm_compute; reflexivity).
    rewrite Hparts in E.
    destruct ps1 as [|q1 [|q2 [|q3 ps1]]]; cbn in E.
    + intros [].
    + injection E as _ <- _. vm_compute in Hp. discriminate Hp.
    + injection E as _ _ E. discriminate E.
    + injection E as _ _ E. discriminate E.
Defined.

(** ** The quote-balance check *)

Lemma drop_head value : forall i c s',
  Js.drop i value = String c s' ->
  charAt value i = Some c /\ Js.drop (S i) value = s'.
Proof.
  unfold charAt. induction value as [|a value IH]; intros i c s' H.
  - destruct i; discriminate.
  - destruct i as [|i]; cbn in *.
    + injection H as E1 E2. subst. split; reflexivity.
    + now apply IH.
Qed.

Lemma quoteStep_spec value i c prev q :
  charAt value i = Some c ->
  (i = 0%nat /\ prev = None \/ (0 < i)%nat /\ charAt value (i - 1) = prev
                              /\ prev <> None) ->
  quoteStep value i q
  = (if Ascii.eqb c singleQuote then
       if inDoubleQuote q
          || match prev with Some b => Ascii.eqb b backslash | None => false end
       then q
       else {| singleQuoteCount := S (singleQuoteCount q);
               doubleQuoteCount := doubleQuoteCount q;
               inSingleQuote := negb (inSingleQuote q);
               inDoubleQuote := inDoubleQuote q |}
     else if Ascii.eqb c doubleQuote then
       if inSingleQuote q
          || match prev with Some b => Ascii.eqb b backslash | None => false end
       then q
       else {| singleQuoteCount := singleQuoteCount q;
               doubleQuoteCount := S (doubleQuoteCount q);
               inSingleQuote := inSingleQuote q;
               inDoubleQuote := negb (inDoubleQuote q) |}
     else q).
Proof.
  intros Hc Hprev. unfold quoteStep, notEscaped. rewrite Hc.
  assert (Hesc : ((i =? 0)%nat
                  || match charAt value (i - 1) with
                     | Some c0 => negb (Ascii.eqb c0 backslash)
                     | None => true
                     end)
                 = negb match prev with
                        | Some b => Ascii.eqb b backslash
                        | None => false
                        end).
  { destruct Hprev as [[-> ->]|(Hi & Hp & Hn)]; [reflexivity|].
    rewrite Hp. destruct (Nat.eqb_spec i 0); [lia|].
    destruct prev; [reflexivity|congruence]. }
  rewrite Hesc.
  destruct (Ascii.eqb c singleQuote) eqn:E1.
  - apply Ascii.eqb_eq in E1. subst c.
    destruct (inDoubleQuote q), prev as [b|];
      cbn; try destruct (Ascii.eqb b backslash); reflexivity.
  - destruct (Ascii.eqb c doubleQuote) eqn:E2; cbn [andb]; [|reflexivity].
    destruct (inSingleQuote q), prev as [b|];
      cbn; try destruct (Ascii.eqb b backslash); reflexivity.
Qed.

Lemma quoteLoop_spec value : forall n i prev q,
  String.length (Js.drop i value) = n ->
  (i = 0%nat /\ prev = None \/ (0 < i)%nat /\ charAt value (i - 1) = prev
                              /\ prev <> None) ->
  quoteLoop value n i q = scanQuotes prev (Js.drop i value) q.
Proof.
  induction n as [|n IH]; intros i prev q Hlen Hprev.
  - destruct (Js.drop i value); [reflexivity|discriminate].
  - destruct (Js.drop i value) as [|c s'] eqn:E; [discriminate|].
    apply drop_head in E as [Hc Hd]. cbn [quoteLoop scanQuotes].
    rewrite (quoteStep_spec value i c prev q Hc Hprev).
    rewrite <- Hd. apply IH.
    + rewrite Hd. cbn in Hlen. lia.
    + right. replace (S i - 1)%nat with i by lia.
      repeat split; [lia|exact Hc|discriminate].
Qed.

Lemma quoteScan_spec value :
  quoteScan value = scanQuotes None value quoteScanStart.
Proof.
  unfold quoteScan.
  rewrite (quoteLoop_spec value (String.length value) 0 None); auto.
Qed.

Lemma indexOfFrom_found s p : forall from,
  0 <= from -> Js.indexOfFrom from s p <> -1 ->
  exists n, Js.startsWith (Js.drop n s) p = true.
Proof.
  induction s as [|a s IH]; intros from Hf H; cbn in H.
  - destruct (Js.startsWith "" p) eqn:E; [now exists 0%nat|congruence].
  - destruct (Js.startsWith (String a s) p) eqn:E; [now exists 0%nat|].
    destruct (IH (from + 1)) as [n Hn]; [lia|exact H|]. now exists (S n).
Qed.

Lemma includes_occurs s c :
  Js.includes s (String c "") = true -> occurs c s = true.
Proof.
  unfold Js.includes, Js.indexOf. intros H.
  apply negb_true_iff, Z.eqb_neq in H.
  apply indexOfFrom_found in H as [n Hn]; [|lia].
  revert n Hn. induction s as [|a s IH]; intros n Hn.
  - destruct n; discriminate.
  - cbn [occurs]. destruct n as [|n]; cbn in Hn.
    + apply andb_true_iff in Hn as [Hn _].
      apply Ascii.eqb_eq in Hn. subst a. now rewrite Ascii.eqb_refl.
    + rewrite (IH n Hn). apply orb_true_r.
Qed.

Lemma occurs_trimStart c s :
  Js.isSpace c = false -> occurs c s = true ->
  occurs c (Js.trimStart s) = true.
Proof.
  intros Hc. induction s as [|a s IH]; intros H; [discriminate|].
  cbn [Js.trimStart]. destruct (Js.isSpace a) eqn:Ea; [|exact H].
  cbn in H. apply orb_true_iff in H as [H|H]; [|now apply IH].
  apply Ascii.eqb_eq in H. congruence.
Qed.

Lemma occurs_trimEnd c s :
  Js.isSpace c = false -> occurs c s = true -> Js.trimEnd s <> "".
Proof.
  intros Hc. induction s as [|a s IH]; intros H; [discriminate|].
  cbn [Js.trimEnd]. cbn in H. apply orb_true_iff in H as [H|H].
  - apply Ascii.eqb_eq in H. subst a. rewrite Hc.
    destruct (Js.trimEnd s); discriminate.
  - specialize (IH H). destruct (Js.trimEnd s); [congruence|discriminate].
Qed.

Lemma includes_not_missing value c :
  Js.isSpace c = false -> Js.includes value (String c "") = true ->
  missing value = false.
Proof.
  intros Hc H. apply includes_occurs in H.
  unfold missing, Js.truthy, Js.isBlank, Js.trim.
  apply orb_false_iff. split.
  - destruct value; [discriminate|reflexivity].
  - apply String.eqb_neq, (occurs_trimEnd c); [exact Hc|].
    now apply occurs_trimStart.
Qed.

Lemma validateTagValue_comment value sn fn tg ok :
  missing value = false ->
  validateTagValue "comment" value sn fn tg ok
  = pushIf (hasError (checkQuoteClosure value))
      (mkDiagnostic sn fn tg
         ("Comment value has unmatched "
          +:+ render (quoteType (checkQuoteClosure value)) +:+ " quotes. "
          +:+ render (quoteMessage (checkQuoteClosure value)))
         Error (Some (orKey ok "comment")))
    ++ pushIf (Js.includes value (String singleQuote "")
               && Js.includes value (String doubleQuote ""))
         (mkDiagnostic sn fn tg msgMixedQuotes Warning
            (Some (orKey ok "comment"))).
Proof. intros H. unfold validateTagValue. cbn. now rewrite H. Qed.

(** C6 (quote balance).  The counts of [checkQuoteClosure] are those of
    the scan the specification describes; an error is reported exactly when
    one of them is odd, naming the kind (single first) and the count; the
    value it's gets the error citing 1 single quote, the value a\'b gets
    nothing, and a value with both kinds of quotes and both counts even gets
    the mixed-style warning alone. *)
Theorem quote_balance :
  (forall value, quoteScan value = scanQuotes None value quoteScanStart)
  /\ (forall value,
        hasError (checkQuoteClosure value)
        = negb (Nat.even (unescapedSingles value))
          || negb (Nat.even (unescapedDoubles value)))
  /\ (forall value sn fn tg ok,
        missing value = false ->
        Nat.even (unescapedSingles value) = false ->
        In (mkDiagnostic sn fn tg
              (msgUnmatched "single" (unescapedSingles value)) Error
              (Some (orKey ok "comment")))
           (validateTagValue "comment" value sn fn tg ok))
  /\ (forall value sn fn tg ok,
        missing value = false ->
        Nat.even (unescapedSingles value) = true ->
        Nat.even (unescapedDoubles value) = false ->
        In (mkDiagnostic sn fn tg
              (msgUnmatched "double" (unescapedDoubles value)) Error
              (Some (orKey ok "comment")))
           (validateTagValue "comment" value sn fn tg ok))
  /\ (forall sn fn tg ok,
        validateTagValue "comment" "it's" sn fn tg ok
        = [mkDiagnostic sn fn tg (msgUnmatched "single" 1) Error
             (Some (orKey ok "comment"))])
  /\ (forall sn fn tg ok, validateTagValue "comment" "a\'b" sn fn tg ok = [])
  /\ (forall value sn fn tg ok,
        Js.includes value (String singleQuote "") = true ->
        Js.includes value (String doubleQuote "") = true ->
        Nat.even (unescapedSingles value) = true ->
        Nat.even (unescapedDoubles value) = true ->
        validateTagValue "comment" value sn fn tg ok
        = [mkDiagnostic sn fn tg msgMixedQuotes Warning
             (Some (orKey ok "comment"))]).
Proof.
  assert (Hodd : forall n, negb (n mod 2 =? 0)%nat = negb (Nat.even n)).
  { intros n. f_equal.
    destruct (Nat.even n) eqn:E.
    - apply Nat.even_spec in E as [k ->]. apply Nat.eqb_eq.
      rewrite Nat.mul_comm. apply Nat.Div0.mod_mul.
    - apply Nat.eqb_neq. intros H. apply Nat.Div0.mod_divides in H as [k ->].
      rewrite Nat.even_mul in E. discriminate. }
  assert (Herr : forall value,
            hasError (checkQuoteClosure value)
            = negb (Nat.even (unescapedSingles value))
              || negb (Nat.even (unescapedDoubles value))).
  { intros value. unfold checkQuoteClosure, unescapedSingles, unescapedDoubles.
    rewrite <- quoteScan_spec, !Hodd.
    destruct (Nat.even (singleQuoteCount _)), (Nat.even (doubleQuoteCount _));
      reflexivity. }
  split; [exact quoteScan_spec|]. split; [exact Herr|].
  split; [|split; [|split; [|split]]].
  - intros value sn fn tg ok Hm Hs.
    rewrite (validateTagValue_comment _ _ _ _ _ Hm), Herr, Hs.
    cbn [negb orb pushIf app]. left. f_equal.
    unfold checkQuoteClosure, unescapedSingles in *.
    rewrite <- quoteScan_spec in *. rewrite Hodd, Hs. reflexivity.
  - intros value sn fn tg ok Hm Hs Hd.
    rewrite (validateTagValue_comment _ _ _ _ _ Hm), Herr, Hs, Hd.
    cbn [negb orb pushIf app]. left. f_equal.
    unfold checkQuoteClosure, unescapedSingles, unescapedDoubles in *.
    rewrite <- quoteScan_spec in *. rewrite !Hodd, Hs, Hd. reflexivity.
  - intros. vm_compute. reflexivity.
  - intros. vm_compute. reflexivity.
  - intros value sn fn tg ok H1 H2 Hs Hd.
    rewrite validateTagValue_comment
      by (apply (includes_not_missing value singleQuote); [reflexivity|exact H1]).
    now rewrite Herr, Hs, Hd, H1, H2.
Qed.

Lemma quote_balance_witness :
  In (mkDiagnostic "User" "Bio" "comment:it's"
        (msgUnmatched "single" (unescapedSingles "it's")) Error
        (Some (orKey "comment" "comment")))
     (validateTagValue "comment" "it's" "User" "Bio" "comment:it's" "comment")
  /\ In (mkDiagnostic "User" "Bio" "t"
           (msgUnmatched "double"
              (unescapedDoubles (String doubleQuote "open"))) Error
           (Some (orKey "comment" "comment")))
        (validateTagValue "comment" (String doubleQuote "open") "User" "Bio"
           "t" "comment")
  /\ validateTagValue "comment" bothQuotesClosed "User" "Bio" "t" "comment"
     = [mkDiagnostic "User" "Bio" "t" msgMixedQuotes Warning
          (Some (orKey "comment" "comment"))].
Proof.
  destruct quote_balance as (_ & _ & H3 & H4 & _ & _ & H7).
  split; [|split].
  - apply (H3 "it's"); vm_compute; reflexivity.
  - apply (H4 (String doubleQuote "open")); vm_compute; reflexivity.
  - apply (H7 bothQuotesClosed); vm_compute; reflexivity.
Defined.

(** ** Range resolution and the diagnostic cap *)

Lemma scanLines_absent structName fieldName errorTag lines : forall i,
  Forall (fun line =>
            Js.includes line ("type " +:+ structName +:+ " struct") = false)
    lines ->
  scanLines structName fieldName errorTag lines i false false (-1)
  = FellOut false (-1).
Proof.
  induction lines as [|l lines IH]; intros i H; [reflexivity|].
  apply List.Forall_cons_iff in H as [Hl H].
  cbn [scanLines andb]. rewrite Hl. now apply IH.
Qed.

(** C7, as the code has it.  When no line of the document declares the
    named struct, [findFieldRange] returns (it is total: nothing is thrown)
    the range from line 0, character 0 to line 0, character 1: one character
    wide, at the start of the document. *)
Theorem findFieldRange_nothing_found
  (source structName fieldName : string) (errorTag : option string) :
  structAbsent source structName ->
  findFieldRange source structName fieldName errorTag = documentStart.
Proof.
  intros H. unfold findFieldRange.
  now rewrite (scanLines_absent structName fieldName errorTag _ 0 H).
Qed.

Lemma findFieldRange_nothing_found_witness :
  structAbsent sampleSource "Account"
  /\ findFieldRange sampleSource "Account" "ID" (Some "unique") = documentStart.
Proof.
  assert (H : structAbsent sampleSource "Account")
    by (repeat constructor).
  split; [exact H|].
  exact (findFieldRange_nothing_found sampleSource "Account" "ID"
           (Some "unique") H).
Defined.

(** C7 as stated fails: the fallback range is not zero-width. *)
Lemma findFieldRange_fallback_not_empty :
  let r := findFieldRange sampleSource "Account" "ID" None in
  start r = mkPosition 0 0 /\ finish r <> start r.
Proof. split; [vm_compute; reflexivity | vm_compute; discriminate]. Qed.

Lemma slice0_default {A} (l : list A) : slice0 l 1000 = firstn 1000 l.
Proof. reflexivity. Qed.

Lemma parseGoStructs_blank text :
  negb (Js.truthy text) || Js.isBlank text = true -> parseGoStructs text = [].
Proof. unfold parseGoStructs. now intros ->. Qed.

(** C9 (a cap of zero).  With [maxNumberOfProblems] 0 the cap applied is
    1000, not 0 (which would keep nothing): the file's diagnostics are the
    first 1000 of the validation, as with the default settings, and their
    number is the smaller of 1000 and the number found; the sample document
    still gets its diagnostic. *)
Theorem zero_cap_falls_back_to_default :
  maxProblems zeroCap = 1000
  /\ (forall ds : list GormDiagnostic,
        slice0 ds 0 = [] /\ limitedDiagnostics zeroCap ds = firstn 1000 ds)
  /\ (forall hasRelated uri text,
        validateGoFile zeroCap hasRelated uri text
        = map (toLsp hasRelated uri text)
            (firstn 1000 (validateGormTags (parseGoStructs text))))
  /\ (forall hasRelated uri text,
        validateGoFile zeroCap hasRelated uri text
        = validateGoFile defaultSettings hasRelated uri text)
  /\ (forall hasRelated uri text,
        length (validateGoFile zeroCap hasRelated uri text)
        = Nat.min 1000 (length (validateGormTags (parseGoStructs text))))
  /\ length (validateGoFile zeroCap false "file:///user.go" sampleSource)
     = 1%nat.
Proof.
  assert (H : forall hasRelated uri text,
            validateGoFile zeroCap hasRelated uri text
            = map (toLsp hasRelated uri text)
                (firstn 1000 (validateGormTags (parseGoStructs text)))).
  { intros hasRelated uri text. unfold validateGoFile.
    destruct (negb (Js.truthy text) || Js.isBlank text) eqn:E.
    - now rewrite (parseGoStructs_blank text E).
    - destruct (parseGoStructs text) as [|s structs]; [reflexivity|].
      destruct (validateGormTags (s :: structs)); reflexivity. }
  split; [reflexivity|]. split; [intros ds; split; reflexivity|].
  split; [exact H|]. split; [|split].
  - intros hasRelated uri text. unfold validateGoFile.
    destruct (negb (Js.truthy text) || Js.isBlank text); [reflexivity|].
    destruct (parseGoStructs text); [reflexivity|].
    destruct (validateGormTags _); reflexivity.
  - intros hasRelated uri text.
    now rewrite H, List.length_map, List.length_firstn.
  - vm_compute. reflexivity.
Qed.

(** ** Struct extraction never runs out of fuel *)

(** A match ends where the input is no longer than where it began. *)
Lemma run_shrinks (r : Re.t) : forall (R : Type) st (k : Re.state -> option R) x,
  Re.run r st k = Some x ->
  exists st', k st' = Some x
    /\ (String.length (Re.rest st') <= String.length (Re.rest st))%nat.
Proof.
  induction r as [|p|a IHa b IHb|a IHa|n a IHa| |]; intros R st k x H;
    cbn [Re.run] in H.
  - exists st. split; [exact H|lia].
  - destruct (Re.rest st) as [|c s'] eqn:E; [discriminate|].
    destruct (p c); [|discriminate].
    eexists. split; [exact H|]. cbn. lia.
  - apply IHa in H as (st1 & H1 & L1). apply IHb in H1 as (st2 & H2 & L2).
    exists st2. split; [exact H2|lia].
  - remember (S (String.length (Re.rest st))) as fuel eqn:Ef. clear Ef.
    revert st H. induction fuel as [|fuel IHf]; intros st H;
      cbn [Re.starLoop] in H.
    + exists st. split; [exact H|lia].
    + match type of H with
      | match ?m with _ => _ end = _ => destruct m as [y|] eqn:E
      end.
      * injection H as ->. apply IHa in E as (st1 & H1 & L1).
        destruct (Re.pos st <? Re.pos st1)%nat; [|discriminate].
        apply IHf in H1 as (st2 & H2 & L2). exists st2. split; [exact H2|lia].
      * exists st. split; [exact H|lia].
  - apply IHa in H as (st1 & H1 & L1). eexists. split; [exact H1|exact L1].
  - destruct (Re.pos st =? 0)%nat; [|discriminate].
    exists st. split; [exact H|lia].
  - destruct (Re.rest st) eqn:E; [|discriminate].
    exists st. split; [exact H|rewrite E; cbn; lia].
Qed.

(** An expression that begins with a code unit consumes at least one. *)
Lemma run_consumes p a b (R : Type) st (k : Re.state -> option R) x :
  Re.run (Re.Seq (Re.Seq (Re.Chr p) a) b) st k = Some x ->
  exists st', k st' = Some x
    /\ (String.length (Re.rest st') < String.length (Re.rest st))%nat.
Proof.
  cbn [Re.run]. destruct (Re.rest st) as [|c s'] eqn:E; [discriminate|].
  destruct (p c); [|discriminate]. intros H.
  apply run_shrinks in H as (st1 & H1 & L1).
  apply run_shrinks in H1 as (st2 & H2 & L2).
  exists st2. split; [exact H2|]. cbn in *. lia.
Qed.

Lemma search_structRegex_consumes s : forall p m,
  Re.search structRegex p s = Some m ->
  (String.length (Re.rest m) < String.length s)%nat.
Proof.
  induction s as [|c s IH]; intros p m H; cbn [Re.search] in H.
  - destruct (Re.matchAt structRegex p "") as [m'|] eqn:E; [|discriminate].
    injection H as ->. unfold Re.matchAt in E.
    apply run_consumes in E as (st' & E' & L). injection E' as ->.
    exact L.
  - destruct (Re.matchAt structRegex p (String c s)) as [m'|] eqn:E.
    + injection H as ->. unfold Re.matchAt in E.
      apply run_consumes in E as (st' & E' & L). injection E' as ->.
      exact L.
    + apply IH in H. cbn. lia.
Qed.

(** The result of the loop does not depend on the fuel, once there is more
    of it than input left: the fuel of [parseGoStructs] is never used up. *)
Lemma structsLoop_fuel : forall fuel1 fuel2 p s,
  (String.length s < fuel1)%nat -> (String.length s < fuel2)%nat ->
  structsLoop fuel1 p s = structsLoop fuel2 p s.
Proof.
  induction fuel1 as [|fuel1 IH]; intros fuel2 p s H1 H2; [lia|].
  destruct fuel2 as [|fuel2]; [lia|]. cbn [structsLoop].
  destruct (Re.search structRegex p s) as [m|] eqn:E; [|reflexivity].
  apply search_structRegex_consumes in E. f_equal. apply IH; lia.
Qed.

(** The extraction loop of [parseGoStructs] never runs out of fuel: any
    fuel beyond the length of the text gives the same structs. *)
Lemma parseGoStructs_fuel text fuel :
  (String.length text < fuel)%nat ->
  negb (Js.truthy text) || Js.isBlank text = false ->
  parseGoStructs text = structsLoop fuel 0 text.
Proof.
  intros Hf Hb. unfold parseGoStructs. rewrite Hb.
  apply structsLoop_fuel; lia.
Qed.

(** ** Further properties: duplicate keys and the key classification *)

Lemma plain_pushIf c d : plain d -> Forall plain (pushIf c d).
Proof. intros H. destruct c; simpl; auto. Qed.

Ltac plain_now :=
  repeat first
    [ apply List.Forall_nil
    | apply List.Forall_cons
    | apply List.Forall_app; split
    | apply plain_pushIf
    | (repeat split; reflexivity) ].

Lemma validateTagValue_plain key value sn fn tg ok :
  Forall plain (validateTagValue key value sn fn tg ok).
Proof.
  switch_cases key; try solve [plain_now].
  - destruct (missing value); plain_now.
  - destruct (missing value); [plain_now|].
    apply List.Forall_flat_map, List.Forall_forall. intros part _. plain_now.
Qed.

Lemma validateTagCombinations_plain keys ck sn fn tg ok :
  Forall plain (validateTagCombinations keys ck sn fn tg ok).
Proof.
  unfold validateTagCombinations.
  destruct (String.eqb ck "primarykey"); plain_now.
Qed.

Lemma plain_filter (sel : GormDiagnostic -> bool) l :
  (forall d, plain d -> sel d = false) -> Forall plain l -> List.filter sel l = [].
Proof.
  intros Hsel H. apply filter_none. eapply List.Forall_impl; [|exact H].
  exact Hsel.
Qed.

Lemma processPart_rest_plain (sel : GormDiagnostic -> bool) s f keys p :
  (forall d, plain d -> sel d = false) ->
  let key := partKey p in
  let lowerKey := Js.toLowerCase key in
  let diag msg lvl :=
    mkDiagnostic (GoStruct.name s) (GormTag.name f) (GormTag.gormTag f)
      msg lvl (Some key) in
  forall dColumn, Forall plain dColumn ->
  forall keys',
  List.filter sel
    (pushIf (setHas keys lowerKey) (diag (msgDuplicateKey key) Error)
     ++ (pushIf (String.eqb lowerKey "primarykey" && setHas keys' "unique")
           (diag msgPrimaryKeyUnique Error)
         ++ pushIf (String.eqb lowerKey "unique" && setHas keys' "primarykey")
           (diag msgUniquePrimaryKey Error))
     ++ dColumn
     ++ (if negb (valid (isValidGormKey lowerKey))
         then [diag (msgUnknownTag key) Error]
         else if negb (recommended (isValidGormKey lowerKey))
         then [diag (msgNotRecommended key) Warning] else [])
     ++ validateTagValue lowerKey (partValue p) (GoStruct.name s)
          (GormTag.name f) (GormTag.gormTag f) key
     ++ validateTagCombinations keys' lowerKey (GoStruct.name s)
          (GormTag.name f) (GormTag.gormTag f) key)
  = List.filter sel
      (pushIf (setHas keys (lowerKeyOf p)) (duplicateKeyDiag s f p)
       ++ validityDiags s f p).
Proof.
  intros Hsel key lowerKey diag dColumn Hc keys'.
  assert (H2 : Forall plain
     (pushIf (String.eqb lowerKey "primarykey" && setHas keys' "unique")
        (diag msgPrimaryKeyUnique Error))) by plain_now.
  assert (H2' : Forall plain
     (pushIf (String.eqb lowerKey "unique" && setHas keys' "primarykey")
        (diag msgUniquePrimaryKey Error))) by plain_now.
  assert (H4 := validateTagValue_plain lowerKey (partValue p)
                  (GoStruct.name s) (GormTag.name f) (GormTag.gormTag f) key).
  assert (H5 := validateTagCombinations_plain keys' lowerKey
                  (GoStruct.name s) (GormTag.name f) (GormTag.gormTag f) key).
  rewrite !List.filter_app.
  rewrite (plain_filter sel _ Hsel H2), (plain_filter sel _ Hsel H2'),
    (plain_filter sel _ Hsel H4), (plain_filter sel _ Hsel H5),
    (plain_filter sel _ Hsel Hc).
  cbn [app]. rewrite List.app_nil_r. reflexivity.
Qed.

Lemma processPart_plain (sel : GormDiagnostic -> bool) s f keys st p :
  (forall d, plain d -> sel d = false) ->
  List.filter sel (fst (processPart s f keys st p))
  = List.filter sel
      (pushIf (setHas keys (lowerKeyOf p)) (duplicateKeyDiag s f p)
       ++ validityDiags s f p).
Proof.
  intros Hsel. unfold processPart.
  destruct (String.eqb _ "column" && _); [destruct (_ !! _) as [owner|]|];
    cbn [fst].
  - apply (processPart_rest_plain sel s f keys p Hsel [columnDiag s f p owner]).
    plain_now.
  - apply (processPart_rest_plain sel s f keys p Hsel []). constructor.
  - apply (processPart_rest_plain sel s f keys p Hsel []). constructor.
Qed.

Lemma partsLoop_plain (sel : GormDiagnostic -> bool) s f ps :
  (forall d, plain d -> sel d = false) ->
  forall keys st,
  List.filter sel (fst (partsLoop s f ps keys st))
  = List.filter sel (fieldLocal s f keys ps).
Proof.
  intros Hsel. induction ps as [|p ps IH]; intros keys st; [reflexivity|].
  rewrite partsLoop_cons. cbn [fst snd fieldLocal].
  rewrite !List.filter_app, IH, processPart_keys.
  now rewrite (processPart_plain sel s f keys st p Hsel), List.filter_app.
Qed.

Lemma fieldsLoop_plain (sel : GormDiagnostic -> bool) s fs :
  (forall d, plain d -> sel d = false) ->
  forall st,
  List.filter sel (fst (fieldsLoop s fs st))
  = List.filter sel (flat_map (fun f => fieldLocal s f [] (fieldParts f)) fs).
Proof.
  intros Hsel. induction fs as [|f fs IH]; intros st; [reflexivity|].
  rewrite fieldsLoop_cons. cbn [fst snd flat_map].
  rewrite !List.filter_app, IH, processField_eq. cbn [fst].
  now rewrite (partsLoop_plain sel s f _ Hsel).
Qed.

Lemma structWide_plain s pks names :
  Forall plain (multiplePrimaryKeys s pks ++ sharedIndexNames s names).
Proof.
  apply List.Forall_app. split.
  - eapply List.Forall_impl; [|apply multiplePrimaryKeys_message].
    intros d H. unfold plain, isDuplicateKey, isUnknownTag, isNotRecommended.
    now rewrite H.
  - eapply List.Forall_impl; [|apply sharedIndexNames_message].
    intros d H. unfold plain, isDuplicateKey, isUnknownTag, isNotRecommended.
    cbn beta in H. revert H.
    destruct (message d) as [|c m]; [discriminate|]. intros H.
    cbn [Js.startsWith] in H. apply andb_true_iff in H as [H _].
    apply Ascii.eqb_eq in H. subst c. repeat split; reflexivity.
Qed.

Lemma validateStruct_plain (sel : GormDiagnostic -> bool) s :
  (forall d, plain d -> sel d = false) ->
  List.filter sel (validateStruct s)
  = List.filter sel
      (flat_map (fun f => fieldLocal s f [] (fieldParts f)) (GoStruct.fields s)).
Proof.
  intros Hsel. unfold validateStruct.
  destruct (GoStruct.fields s) as [|f fs] eqn:E; [reflexivity|].
  pose proof (fieldsLoop_plain sel s (f :: fs) Hsel initialState) as H.
  destruct (fieldsLoop s (f :: fs) initialState) as [d st]. cbn [fst] in H.
  destruct (negb (hasGormTags st)); [exact H|].
  rewrite List.filter_app, H.
  rewrite (plain_filter sel _ Hsel (structWide_plain s _ _)).
  apply List.app_nil_r.
Qed.

Lemma fieldsLoop_blank s fs st :
  (forall f, In f fs ->
     negb (Js.truthy (GormTag.gormTag f)) || Js.isBlank (GormTag.gormTag f) = true) ->
  fieldsLoop s fs st = ([], st).
Proof.
  revert st. induction fs as [|f fs IH]; intros st H; [reflexivity|].
  assert (Hf : processField s st f = ([], st)).
  { unfold processField. now rewrite (H f (or_introl eq_refl)). }
  rewrite fieldsLoop_cons, Hf. cbn [fst snd app].
  rewrite IH by (intros g Hg; apply H; now right). reflexivity.
Qed.

Lemma validateStruct_untagged s : untagged s -> validateStruct s = [].
Proof.
  intros H. unfold validateStruct.
  destruct (GoStruct.fields s) as [|f fs] eqn:E; [reflexivity|].
  rewrite fieldsLoop_blank; [reflexivity|].
  intros g Hg. apply H. now rewrite E.
Qed.

(** X1.  A struct none of whose fields carries a tag literal contributes no
    diagnostic, wherever it stands in the list: the diagnostics of the list
    are those of the list without it.  A list of such structs only gets
    none at all. *)
Theorem untagged_structs_are_skipped :
  (forall (before after : list GoStruct.t) (s : GoStruct.t),
     untagged s ->
     validateGormTags (before ++ s :: after)
     = validateGormTags (before ++ after))
  /\ (forall structs : list GoStruct.t,
        (forall s, In s structs -> untagged s) ->
        validateGormTags structs = []).
Proof.
  split.
  - intros before after s H. unfold validateGormTags.
    rewrite !List.flat_map_app. cbn [flat_map].
    now rewrite (validateStruct_untagged s H).
  - intros structs H. unfold validateGormTags.
    induction structs as [|s structs IH]; [reflexivity|].
    cbn [flat_map]. rewrite IH by (intros t Ht; apply H; now right).
    rewrite List.app_nil_r. apply validateStruct_untagged, H. now left.
Qed.

Lemma untagged_structs_witness :
  validateGormTags mixedStructs = validateGormTags [twoColumns; twoPrimaryKeys]
  /\ validateGormTags [plainModel; plainModel] = [].
Proof.
  split.
  - apply (proj1 untagged_structs_are_skipped [twoColumns] [twoPrimaryKeys]
             (GoStruct.mk "Point" [GormTag.mk "X" "int" ""])).
    intros f [<-|[]]. reflexivity.
  - apply (proj2 untagged_structs_are_skipped).
    intros s [<-|[<-|[]]]; intros f [<-|[<-|[]]]; reflexivity.
Defined.

Lemma fieldLocal_app s f ps1 ps2 : forall keys,
  fieldLocal s f keys (ps1 ++ ps2)
  = fieldLocal s f keys ps1
    ++ fieldLocal s f (fold_left setAdd (map lowerKeyOf ps1) keys) ps2.
Proof.
  induction ps1 as [|p ps1 IH]; intros keys; [reflexivity|].
  cbn [app fieldLocal map fold_left]. now rewrite IH, List.app_assoc.
Qed.

Lemma validityDiags_not_duplicate s f p :
  List.filter isDuplicateKey (validityDiags s f p) = [].
Proof.
  unfold validityDiags. destruct (negb (valid _)); [reflexivity|].
  now destruct (negb (recommended _)).
Qed.

Lemma fieldLocal_distinct s f ps : forall keys,
  List.NoDup (map lowerKeyOf ps) ->
  (forall k, In k (map lowerKeyOf ps) -> ~ In k keys) ->
  List.filter isDuplicateKey (fieldLocal s f keys ps) = [].
Proof.
  induction ps as [|p ps IH]; intros keys Hnd Hk; [reflexivity|].
  cbn [map] in Hnd, Hk. apply List.NoDup_cons_iff in Hnd as [Hp Hnd].
  cbn [fieldLocal]. rewrite !List.filter_app, validityDiags_not_duplicate.
  rewrite setHas_false by (apply Hk; now left). cbn [pushIf List.filter app].
  apply IH; [exact Hnd|].
  intros k Hin Hin'. apply setAdd_In in Hin' as [Hin'| ->].
  - apply (Hk k); [now right|exact Hin'].
  - exact (Hp Hin).
Qed.

Lemma only_selected_emitted (sel : GormDiagnostic -> bool) s d :
  (forall d', plain d' -> sel d' = false) ->
  sel d = true ->
  In d (flat_map (fun f => fieldLocal s f [] (fieldParts f)) (GoStruct.fields s)) ->
  In d (validateGormTags [s]).
Proof.
  intros Hsel Hd Hin. rewrite validateGormTags_one.
  assert (H : In d (List.filter sel (validateStruct s))).
  { rewrite (validateStruct_plain sel s Hsel). apply List.filter_In. now split. }
  now apply List.filter_In in H as [H _].
Qed.

(** X2.  A part whose key, lower-cased, is the key of an earlier part of the
    same field gets the duplicate-key error, with the key as it is written
    in that part; a struct in which the keys of each field are distinct
    gets no duplicate-key error. *)
Theorem duplicate_keys_reported :
  (forall s f ps1 p1 ps2 p2 ps3,
     In f (GoStruct.fields s) ->
     fieldParts f = ps1 ++ p1 :: ps2 ++ p2 :: ps3 ->
     lowerKeyOf p2 = lowerKeyOf p1 ->
     In (duplicateKeyDiag s f p2) (validateGormTags [s]))
  /\ (forall s,
        (forall f, In f (GoStruct.fields s) -> List.NoDup (fieldKeys f)) ->
        List.filter isDuplicateKey (validateGormTags [s]) = []).
Proof.
  split.
  - intros s f ps1 p1 ps2 p2 ps3 Hf Hps Hk.
    apply (only_selected_emitted isDuplicateKey).
    + now intros d (H & _).
    + reflexivity.
    + apply List.in_flat_map. exists f. split; [exact Hf|].
      rewrite Hps.
      replace (ps1 ++ p1 :: ps2 ++ p2 :: ps3)
        with ((ps1 ++ p1 :: ps2) ++ p2 :: ps3)
        by (now rewrite <- List.app_assoc).
      rewrite fieldLocal_app. apply List.in_or_app. right.
      cbn [fieldLocal]. apply List.in_or_app. left.
      apply List.in_or_app. left.
      rewrite (proj2 (setHas_In _ _)); [now left|].
      apply fold_setAdd_In. right. rewrite Hk, List.map_app.
      apply List.in_or_app. right. now left.
  - intros s H. rewrite validateGormTags_one.
    rewrite (validateStruct_plain isDuplicateKey)
      by (now intros d (Hd & _)).
    apply filter_none, List.Forall_forall. intros d Hd.
    apply List.in_flat_map in Hd as (f & Hf & Hd).
    destruct (isDuplicateKey d) eqn:E; [|reflexivity]. exfalso.
    assert (Hin : In d (List.filter isDuplicateKey
                          (fieldLocal s f [] (fieldParts f))))
      by (apply List.filter_In; now split).
    rewrite fieldLocal_distinct in Hin; [exact Hin|exact (H f Hf)|].
    intros k _ [].
Qed.

Lemma duplicate_keys_witness :
  In (duplicateKeyDiag repeatedKeys
        (GormTag.mk "Name" "string" "size:10;column:name;Size:20") "Size:20")
     (validateGormTags [repeatedKeys])
  /\ List.filter isDuplicateKey (validateGormTags [twoColumns]) = [].
Proof.
  destruct duplicate_keys_reported as [H1 H2]. split.
  - apply (H1 repeatedKeys _ [] "size:10" ["column:name"] "Size:20" []).
    + left. reflexivity.
    + vm_compute. reflexivity.
    + vm_compute. reflexivity.
  - apply H2. intros f [<-|[<-|[<-|[]]]]; vm_compute;
      repeat constructor; cbn; intuition discriminate.
Defined.

Lemma fieldLocal_unknown s f ps : forall keys,
  List.filter isUnknownTag (fieldLocal s f keys ps)
  = map (unknownTagDiag s f) (List.filter (fun p => negb (knownPart p)) ps).
Proof.
  induction ps as [|p ps IH]; intros keys; [reflexivity|].
  cbn [fieldLocal List.filter]. rewrite !List.filter_app, IH, filter_pushIf.
  change (isUnknownTag (duplicateKeyDiag s f p)) with false. cbn [app].
  unfold validityDiags, knownPart.
  destruct (negb (valid _)); [reflexivity|].
  now destruct (negb (recommended _)).
Qed.

Lemma fieldLocal_notRecommended s f ps : forall keys,
  List.filter isNotRecommended (fieldLocal s f keys ps)
  = map (notRecommendedDiag s f)
      (List.filter (fun p => knownPart p && negb (recommendedPart p)) ps).
Proof.
  induction ps as [|p ps IH]; intros keys; [reflexivity|].
  cbn [fieldLocal List.filter]. rewrite !List.filter_app, IH, filter_pushIf.
  change (isNotRecommended (duplicateKeyDiag s f p)) with false. cbn [app].
  unfold validityDiags, knownPart, recommendedPart.
  destruct (valid _); cbn [negb andb]; [|reflexivity].
  now destruct (recommended _).
Qed.

Lemma filter_flat_map {A B} (p : B -> bool) (g : A -> list B) l :
  List.filter p (flat_map g l) = flat_map (fun x => List.filter p (g x)) l.
Proof.
  induction l as [|x l IH]; [reflexivity|].
  cbn [flat_map]. now rewrite List.filter_app, IH.
Qed.

(** X3.  The unknown-tag errors of a struct are one for each part whose key
    is outside the vocabulary, in the order of the fields and of their
    parts, each with the key as written; the not-recommended warnings are
    one for each part whose key is in the vocabulary without being
    recommended.  A part with a recommended key gets neither. *)
Theorem key_classification_findings (s : GoStruct.t) :
  List.filter isUnknownTag (validateGormTags [s])
  = flat_map (fun f =>
      map (unknownTagDiag s f)
        (List.filter (fun p => negb (knownPart p)) (fieldParts f)))
      (GoStruct.fields s)
  /\ List.filter isNotRecommended (validateGormTags [s])
     = flat_map (fun f =>
         map (notRecommendedDiag s f)
           (List.filter (fun p => knownPart p && negb (recommendedPart p))
              (fieldParts f)))
         (GoStruct.fields s).
Proof.
  rewrite validateGormTags_one. split.
  - rewrite (validateStruct_plain isUnknownTag) by (now intros d (_ & H & _)).
    rewrite filter_flat_map. apply List.flat_map_ext. intros f.
    apply fieldLocal_unknown.
  - rewrite (validateStruct_plain isNotRecommended)
      by (now intros d (_ & _ & H)).
    rewrite filter_flat_map. apply List.flat_map_ext. intros f.
    apply fieldLocal_notRecommended.
Qed.

(** ** The primary key counted per occurrence *)





(** ** Further properties: the co-occurrence rules *)

Lemma processPart_combinations s f keys st p d :
  In d (validateTagCombinations (setAdd keys (lowerKeyOf p)) (lowerKeyOf p)
          (GoStruct.name s) (GormTag.name f) (GormTag.gormTag f) (partKey p)) ->
  In d (fst (processPart s f keys st p)).
Proof.
  intros H. unfold processPart. fold (lowerKeyOf p).
  destruct (String.eqb _ "column" && _); [destruct (_ !! _)|]; cbn [fst];
    do 5 (apply List.in_or_app; right); exact H.
Qed.

(** A rule on the keys seen that holds once all the keys of the field are
    seen has fired by then. *)
Lemma partsLoop_rule_fires (rule : list string -> bool)
  (P : GormDiagnostic -> Prop) s f ps :
  (forall keys ck ok, rule keys = true ->
     exists d,
       In d (validateTagCombinations keys ck (GoStruct.name s)
               (GormTag.name f) (GormTag.gormTag f) ok) /\ P d) ->
  forall keys st,
  rule (fold_left setAdd (map lowerKeyOf ps) keys) = true ->
  rule keys = false ->
  exists d, In d (fst (partsLoop s f ps keys st)) /\ P d.
Proof.
  intros Hrule. induction ps as [|p ps IH]; intros keys st Hall Hnow.
  - cbn in Hall. congruence.
  - rewrite partsLoop_cons. cbn [fst snd]. cbn [map fold_left] in Hall.
    destruct (rule (setAdd keys (lowerKeyOf p))) eqn:E.
    + destruct (Hrule _ (lowerKeyOf p) (partKey p) E) as (d & Hd & HP).
      exists d. split; [|exact HP]. apply List.in_or_app. left.
      now apply processPart_combinations.
    + rewrite processPart_keys.
      destruct (IH _ (snd (snd (processPart s f keys st p))) Hall E)
        as (d & Hd & HP).
      exists d. split; [apply List.in_or_app; now right|exact HP].
Qed.

Lemma rule_fires (rule : list string -> bool) (P : GormDiagnostic -> Prop)
  structs s f :
  rule [] = false ->
  (forall keys ck ok, rule keys = true ->
     exists d,
       In d (validateTagCombinations keys ck (GoStruct.name s)
               (GormTag.name f) (GormTag.gormTag f) ok) /\ P d) ->
  In s structs -> In f (GoStruct.fields s) ->
  rule (fold_left setAdd (fieldKeys f) []) = true ->
  exists d, In d (validateGormTags structs) /\ P d.
Proof.
  intros H0 Hrule Hs Hf Hall.
  apply (validateGormTags_emits structs s f P Hs Hf). intros st.
  now apply (partsLoop_rule_fires rule P s f (fieldParts f) Hrule).
Qed.

Lemma allKeys_has f k :
  In k (fieldKeys f) -> setHas (fold_left setAdd (fieldKeys f) []) k = true.
Proof. intros H. apply setHas_In, fold_setAdd_In. now right. Qed.

Ltac in_pushed :=
  lazymatch goal with
  | |- In _ (_ ++ _) =>
      apply List.in_or_app; first [left; solve [in_pushed] | right; in_pushed]
  | |- In _ _ => left; reflexivity
  end.

Lemma two_members (l : list string) a b :
  In a l -> In b l -> a <> b -> (1 <? length l)%nat = true.
Proof.
  intros Ha Hb Hab. apply Nat.ltb_lt.
  destruct l as [|x [|y l]]; cbn in *; [tauto| |lia].
  destruct Ha as [<-|[]], Hb as [<-|[]]. congruence.
Qed.

(** X4.  The co-occurrence rules do not depend on the order of the keys in
    the literal.  A field with the ignore flag and another key, with two of
    the three permission keys, with many2many and foreignKey or references,
    or with embedded and column gets the rule's error, attributed to it; a
    field with index and uniqueIndex gets the rule's warning. *)
Theorem cooccurrence_rules_fire_in_either_order
  (structs : list GoStruct.t) (s : GoStruct.t) (f : GormTag.t) :
  In s structs -> In f (GoStruct.fields s) ->
  (forall k, In "-" (fieldKeys f) -> In k (fieldKeys f) -> k <> "-" ->
     exists d, In d (validateGormTags structs) /\ attributed s f d
       /\ level d = Error
       /\ Js.startsWith (message d)
            "Field marked as ignored ('-') cannot have other tags: " = true)
  /\ (forall a b, In a ["<-"; "->"; "-"] -> In b ["<-"; "->"; "-"] -> a <> b ->
        In a (fieldKeys f) -> In b (fieldKeys f) ->
        exists d, In d (validateGormTags structs) /\ attributed s f d
          /\ level d = Error
          /\ Js.startsWith (message d) "Conflicting permission tags: " = true)
  /\ (In "many2many" (fieldKeys f) ->
      In "foreignkey" (fieldKeys f) \/ In "references" (fieldKeys f) ->
      exists d, In d (validateGormTags structs) /\ attributed s f d
        /\ level d = Error /\ message d = msgMany2many)
  /\ (In "embedded" (fieldKeys f) -> In "column" (fieldKeys f) ->
      exists d, In d (validateGormTags structs) /\ attributed s f d
        /\ level d = Error /\ message d = msgEmbeddedColumn)
  /\ (In "index" (fieldKeys f) -> In "uniqueindex" (fieldKeys f) ->
      exists d, In d (validateGormTags structs) /\ attributed s f d
        /\ level d = Warning /\ message d = msgIndexBoth).
Proof.
  intros Hs Hf. split; [|split; [|split; [|split]]].
  - intros k H1 Hk Hne.
    apply (rule_fires ignoreRule _ structs s f eq_refl); try assumption.
    + intros keys ck ok H. unfold ignoreRule in H.
      eexists. split.
      * unfold validateTagCombinations. rewrite H. cbn [pushIf]. in_pushed.
      * repeat split; reflexivity.
    + unfold ignoreRule. rewrite (allKeys_has f "-" H1). cbn [andb].
      apply (two_members _ "-" k); [| |congruence];
        apply fold_setAdd_In; now right.
  - intros a b Ha Hb Hab H1 H2.
    apply (rule_fires permissionRule _ structs s f eq_refl); try assumption.
    + intros keys ck ok H. unfold permissionRule in H.
      eexists. split.
      * unfold validateTagCombinations. rewrite H. cbn [pushIf]. in_pushed.
      * repeat split; reflexivity.
    + unfold permissionRule.
      apply (two_members _ a b); [| |exact Hab];
        apply List.filter_In; (split; [assumption|now apply allKeys_has]).
  - intros H1 H2.
    apply (rule_fires many2manyRule _ structs s f eq_refl); try assumption.
    + intros keys ck ok H. unfold many2manyRule in H.
      eexists. split.
      * unfold validateTagCombinations. rewrite H. cbn [pushIf]. in_pushed.
      * repeat split; reflexivity.
    + unfold many2manyRule. rewrite (allKeys_has f _ H1).
      destruct H2 as [H2|H2]; rewrite (allKeys_has f _ H2);
        cbn; now rewrite ?orb_true_r.
  - intros H1 H2.
    apply (rule_fires embeddedRule _ structs s f eq_refl); try assumption.
    + intros keys ck ok H. unfold embeddedRule in H.
      eexists. split.
      * unfold validateTagCombinations. rewrite H. cbn [pushIf]. in_pushed.
      * repeat split; reflexivity.
    + unfold embeddedRule.
      now rewrite (allKeys_has f _ H1), (allKeys_has f _ H2).
  - intros H1 H2.
    apply (rule_fires indexRule _ structs s f eq_refl); try assumption.
    + intros keys ck ok H. unfold indexRule in H.
      eexists. split.
      * unfold validateTagCombinations. rewrite H. cbn [pushIf]. in_pushed.
      * repeat split; reflexivity.
    + unfold indexRule.
      now rewrite (allKeys_has f _ H1), (allKeys_has f _ H2).
Qed.

Lemma cooccurrence_rules_witness :
  (exists d, In d (validateGormTags [ruleBreakers])
     /\ attributed ruleBreakers (GormTag.mk "A" "string" "size:10;-") d
     /\ level d = Error
     /\ Js.startsWith (message d)
          "Field marked as ignored ('-') cannot have other tags: " = true)
  /\ (exists d, In d (validateGormTags [ruleBreakers])
        /\ attributed ruleBreakers (GormTag.mk "B" "string" "->:false;<-:create") d
        /\ level d = Error
        /\ Js.startsWith (message d) "Conflicting permission tags: " = true)
  /\ (exists d, In d (validateGormTags [ruleBreakers])
        /\ attributed ruleBreakers
             (GormTag.mk "C" "Role" "references:ID;many2many:user_roles") d
        /\ level d = Error /\ message d = msgMany2many)
  /\ (exists d, In d (validateGormTags [ruleBreakers])
        /\ attributed ruleBreakers
             (GormTag.mk "D" "Address" "column:addr;embedded") d
        /\ level d = Error /\ message d = msgEmbeddedColumn)
  /\ (exists d, In d (validateGormTags [ruleBreakers])
        /\ attributed ruleBreakers
             (GormTag.mk "E" "string" "uniqueIndex:idx_a;index:idx_b") d
        /\ level d = Warning /\ message d = msgIndexBoth).
Proof.
  assert (Hs : In ruleBreakers [ruleBreakers]) by (left; reflexivity).
  split; [|split; [|split; [|split]]].
  - destruct (cooccurrence_rules_fire_in_either_order [ruleBreakers]
                ruleBreakers (GormTag.mk "A" "string" "size:10;-") Hs)
      as (H & _); [left; reflexivity|].
    apply (H "size").
    + vm_compute. right. left. reflexivity.
    + vm_compute. left. reflexivity.
    + discriminate.
  - destruct (cooccurrence_rules_fire_in_either_order [ruleBreakers]
                ruleBreakers (GormTag.mk "B" "string" "->:false;<-:create") Hs)
      as (_ & H & _); [right; left; reflexivity|].
    apply (H "->" "<-").
    + right. left. reflexivity.
    + left. reflexivity.
    + discriminate.
    + vm_compute. left. reflexivity.
    + vm_compute. right. left. reflexivity.
  - destruct (cooccurrence_rules_fire_in_either_order [ruleBreakers]
                ruleBreakers
                (GormTag.mk "C" "Role" "references:ID;many2many:user_roles") Hs)
      as (_ & _ & H & _); [right; right; left; reflexivity|].
    apply H.
    + vm_compute. right. left. reflexivity.
    + right. vm_compute. left. reflexivity.
  - destruct (cooccurrence_rules_fire_in_either_order [ruleBreakers]
                ruleBreakers
                (GormTag.mk "D" "Address" "column:addr;embedded") Hs)
      as (_ & _ & _ & H & _); [right; right; right; left; reflexivity|].
    apply H.
    + vm_compute. right. left. reflexivity.
    + vm_compute. left. reflexivity.
  - destruct (cooccurrence_rules_fire_in_either_order [ruleBreakers]
                ruleBreakers
                (GormTag.mk "E" "string" "uniqueIndex:idx_a;index:idx_b") Hs)
      as (_ & _ & _ & _ & H); [right; right; right; right; left; reflexivity|].
    apply H.
    + vm_compute. right. left. reflexivity.
    + vm_compute. left. reflexivity.
Defined.

(** ** Further properties: index names shared by fields *)

Lemma namesUnder_push m v x n :
  namesUnder n (indexPush m v x)
  = if String.eqb v n then namesUnder n m ++ [x] else namesUnder n m.
Proof.
  unfold namesUnder. induction m as [|[k fs] m IH]; cbn.
  - destruct (String.eqb v n); reflexivity.
  - destruct (String.eqb k v) eqn:Ekv; cbn.
    + apply String.eqb_eq in Ekv. subst k.
      destruct (String.eqb v n); reflexivity.
    + destruct (String.eqb k n) eqn:Ekn; [|exact IH].
      apply String.eqb_eq in Ekn. subst k.
      now rewrite String.eqb_sym, Ekv.
Qed.

Lemma keys_push_In m v x k :
  In k (map fst (indexPush m v x)) -> In k (map fst m) \/ k = v.
Proof.
  induction m as [|[k' fs] m IH]; cbn.
  - intros [<-|[]]. now right.
  - destruct (String.eqb k' v); cbn; [tauto|].
    intros [H|H]; [tauto|]. destruct (IH H); tauto.
Qed.

Lemma keys_push m v x :
  List.NoDup (map fst m) -> List.NoDup (map fst (indexPush m v x)).
Proof.
  induction m as [|[k fs] m IH]; cbn; intros Hnd.
  - repeat constructor. intros [].
  - apply List.NoDup_cons_iff in Hnd as [Hk Hnd].
    destruct (String.eqb k v) eqn:E; cbn.
    + now constructor.
    + constructor; [|now apply IH]. intros H.
      apply keys_push_In in H as [H|H]; [tauto|]. subst k.
      now rewrite String.eqb_refl in E.
Qed.

Lemma namesUnder_In m n fs :
  List.NoDup (map fst m) -> In (n, fs) m -> namesUnder n m = fs.
Proof.
  unfold namesUnder. induction m as [|[k gs] m IH]; intros Hnd Hin;
    [destruct Hin|].
  cbn in Hnd. apply List.NoDup_cons_iff in Hnd as [Hk Hnd]. cbn.
  destruct Hin as [E|Hin].
  - injection E as -> ->. now rewrite String.eqb_refl.
  - destruct (String.eqb k n) eqn:E; [|now apply IH].
    apply String.eqb_eq in E. subst k. exfalso. apply Hk.
    change n with (fst (n, fs)). now apply List.in_map.
Qed.

Lemma namesUnder_found m n :
  namesUnder n m <> [] -> In (n, namesUnder n m) m.
Proof.
  unfold namesUnder. induction m as [|[k gs] m IH]; cbn; [congruence|].
  destruct (String.eqb k n) eqn:E; cbn.
  - apply String.eqb_eq in E. subst k. now left.
  - intros H. right. now apply IH.
Qed.

Lemma indexTable_keys es : forall m,
  List.NoDup (map fst m) -> List.NoDup (map fst (fold_left pushEntry es m)).
Proof.
  induction es as [|e es IH]; intros m H; [exact H|].
  cbn [fold_left]. apply IH. now apply keys_push.
Qed.

Lemma indexTable_names es n : forall m,
  namesUnder n (fold_left pushEntry es m)
  = namesUnder n m
    ++ map snd (List.filter (fun e => String.eqb (fst e) n) es).
Proof.
  induction es as [|e es IH]; intros m; cbn [fold_left List.filter map].
  - now rewrite List.app_nil_r.
  - rewrite IH. unfold pushEntry at 1. rewrite namesUnder_push.
    destruct (String.eqb (fst e) n); cbn [map];
      now rewrite <- ?List.app_assoc.
Qed.

Lemma noindex_pushIf c d :
  isIndexShared d = false -> Forall (fun d => isIndexShared d = false) (pushIf c d).
Proof. intros H. destruct c; simpl; auto. Qed.

Ltac noindex_now :=
  repeat first
    [ apply List.Forall_nil
    | apply List.Forall_cons
    | apply List.Forall_app; split
    | apply noindex_pushIf
    | reflexivity ].

Lemma validateTagValue_noindex key value sn fn tg ok :
  Forall (fun d => isIndexShared d = false)
    (validateTagValue key value sn fn tg ok).
Proof.
  switch_cases key; try solve [noindex_now].
  - destruct (missing value); noindex_now.
  - destruct (missing value); [noindex_now|].
    apply List.Forall_flat_map, List.Forall_forall. intros part _. noindex_now.
Qed.

Lemma validateTagCombinations_noindex keys ck sn fn tg ok :
  Forall (fun d => isIndexShared d = false)
    (validateTagCombinations keys ck sn fn tg ok).
Proof.
  unfold validateTagCombinations.
  destruct (String.eqb ck "primarykey"); noindex_now.
Qed.

Lemma processPart_noindex s f keys st p :
  Forall (fun d => isIndexShared d = false) (fst (processPart s f keys st p)).
Proof.
  unfold processPart.
  destruct (String.eqb _ "column" && _); [destruct (_ !! _)|]; cbn [fst];
    (apply List.Forall_app; split; [noindex_now|]);
    (apply List.Forall_app; split; [noindex_now|]);
    (apply List.Forall_app; split; [noindex_now|]);
    (apply List.Forall_app; split;
       [|apply List.Forall_app; split;
           [apply validateTagValue_noindex
           |apply validateTagCombinations_noindex]]);
    (destruct (negb (valid (isValidGormKey (Js.toLowerCase (partKey p)))));
       [noindex_now|];
     destruct (negb (recommended (isValidGormKey (Js.toLowerCase (partKey p)))));
       noindex_now).
Qed.

Lemma partsLoop_noindex s f ps : forall keys st,
  Forall (fun d => isIndexShared d = false) (fst (partsLoop s f ps keys st)).
Proof.
  induction ps as [|p ps IH]; intros keys st; [constructor|].
  rewrite partsLoop_cons. cbn [fst snd]. apply List.Forall_app. split.
  - apply processPart_noindex.
  - apply IH.
Qed.

Lemma fieldsLoop_noindex s fs : forall st,
  Forall (fun d => isIndexShared d = false) (fst (fieldsLoop s fs st)).
Proof.
  induction fs as [|f fs IH]; intros st; [constructor|].
  rewrite fieldsLoop_cons. cbn [fst snd]. apply List.Forall_app. split.
  - rewrite processField_eq. cbn [fst]. apply partsLoop_noindex.
  - apply IH.
Qed.

Lemma processPart_indexNames s f keys st p :
  indexNames (snd (snd (processPart s f keys st p)))
  = if isIndexPart p then pushEntry (indexNames st) (partValue p, GormTag.name f)
    else indexNames st.
Proof.
  unfold processPart, isIndexPart, isKey, lowerKeyOf, pushEntry.
  destruct (String.eqb _ "column" && _); [destruct (_ !! _)|];
    cbn [fst snd indexNames]; reflexivity.
Qed.

Lemma partsLoop_indexNames s f ps : forall keys st,
  indexNames (snd (snd (partsLoop s f ps keys st)))
  = fold_left pushEntry
      (map (fun p => (partValue p, GormTag.name f)) (List.filter isIndexPart ps))
      (indexNames st).
Proof.
  induction ps as [|p ps IH]; intros keys st; [reflexivity|].
  rewrite partsLoop_cons. cbn [fst snd List.filter].
  rewrite IH, processPart_indexNames.
  now destruct (isIndexPart p).
Qed.

Lemma fieldsLoop_indexNames s fs : forall st,
  indexNames (snd (fieldsLoop s fs st))
  = fold_left pushEntry (indexEntries fs) (indexNames st).
Proof.
  induction fs as [|f fs IH]; intros st; [reflexivity|].
  rewrite fieldsLoop_cons. cbn [fst snd].
  rewrite IH, processField_eq. cbn [snd].
  rewrite partsLoop_indexNames. cbn [indexNames].
  unfold indexEntries. cbn [flat_map]. now rewrite List.fold_left_app.
Qed.

Lemma indexEntries_untagged fs :
  Forall (fun f => fieldParts f = []) fs -> indexEntries fs = [].
Proof.
  induction 1 as [|f fs Hf _ IH]; [reflexivity|].
  unfold indexEntries in *. cbn [flat_map]. now rewrite Hf, IH.
Qed.

Lemma flat_map_nothing {A B} (f : A -> list B) l :
  (forall x, In x l -> f x = []) -> flat_map f l = [].
Proof.
  induction l as [|a l IH]; intros H; [reflexivity|].
  cbn [flat_map]. rewrite (H a (or_introl eq_refl)), IH; [reflexivity|].
  intros x Hx. apply H. now right.
Qed.

(** The index findings of a struct are those of the struct-wide pass on
    the table of index names. *)
Lemma validateStruct_index s :
  List.filter isIndexShared (validateStruct s)
  = sharedIndexNames s
      (fold_left pushEntry (indexEntries (GoStruct.fields s)) []).
Proof.
  unfold validateStruct. destruct (GoStruct.fields s) as [|f fs] eqn:E;
    [reflexivity|].
  pose proof (fieldsLoop_noindex s (f :: fs) initialState) as H.
  pose proof (fieldsLoop_indexNames s (f :: fs) initialState) as Hi.
  pose proof (fieldsLoop_untagged s (f :: fs) initialState) as Hu.
  destruct (fieldsLoop s (f :: fs) initialState) as [d st].
  cbn [fst snd] in *. cbn [indexNames initialState] in Hi.
  destruct (hasGormTags st); cbn [negb].
  - rewrite !List.filter_app, (filter_none _ _ H), Hi. cbn [app].
    rewrite filter_none, filter_all; [reflexivity| |].
    + apply sharedIndexNames_message.
    + eapply List.Forall_impl; [|apply multiplePrimaryKeys_message].
      intros d' Hd. unfold isIndexShared. now rewrite Hd.
  - rewrite (filter_none _ _ H), (indexEntries_untagged _ (Hu eq_refl)).
    reflexivity.
Qed.

Lemma usedBy_fields s n x :
  In x (usedBy s n) -> exists f, In f (GoStruct.fields s) /\ GormTag.name f = x.
Proof.
  unfold usedBy, indexEntries. intros H.
  apply List.in_map_iff in H as ([v y] & <- & H).
  apply List.filter_In in H as [H _].
  apply List.in_flat_map in H as (f & Hf & H).
  apply List.in_map_iff in H as (p & Hp & _).
  injection Hp as _ <-. now exists f.
Qed.

Lemma findField_named s x :
  (exists f, In f (GoStruct.fields s) /\ GormTag.name f = x) ->
  exists g, findField s x = Some g /\ GormTag.name g = x.
Proof.
  intros (f & Hf & Hx). unfold findField.
  destruct (List.find _ (GoStruct.fields s)) as [g|] eqn:E.
  - exists g. split; [reflexivity|].
    apply List.find_some in E as [_ E]. now apply String.eqb_eq in E.
  - exfalso. pose proof (List.find_none _ _ E f Hf) as H. cbn in H.
    rewrite Hx, String.eqb_refl in H. discriminate.
Qed.

Lemma tableNames s n :
  namesUnder n (fold_left pushEntry (indexEntries (GoStruct.fields s)) [])
  = usedBy s n.
Proof. now rewrite indexTable_names. Qed.

(** X5.  An index name used more than once in a struct (by index or
    uniqueIndex entries with that value) brings a warning on every field
    that uses it, the message listing the users in order; when no index
    name is used twice, the struct gets no such warning. *)
Theorem shared_index_names_warned (s : GoStruct.t) :
  (forall n x,
     (1 < length (usedBy s n))%nat -> In x (usedBy s n) ->
     exists d, In d (validateGormTags [s])
       /\ structName d = GoStruct.name s /\ fieldName d = x
       /\ level d = Warning /\ errorTag d = None
       /\ message d = msgIndexShared n (usedBy s n))
  /\ ((forall n, (length (usedBy s n) <= 1)%nat) ->
      List.filter isIndexShared (validateGormTags [s]) = []).
Proof.
  split.
  - intros n x Hn Hx.
    destruct (findField_named s x (usedBy_fields s n x Hx)) as (g & Hg & Hname).
    exists (mkDiagnostic (GoStruct.name s) (GormTag.name g) (GormTag.gormTag g)
              (msgIndexShared n (usedBy s n)) Warning None).
    split; [|now repeat split].
    rewrite validateGormTags_one.
    assert (H : In (mkDiagnostic (GoStruct.name s) (GormTag.name g)
                      (GormTag.gormTag g) (msgIndexShared n (usedBy s n))
                      Warning None)
                  (List.filter isIndexShared (validateStruct s))).
    { rewrite validateStruct_index. unfold sharedIndexNames.
      apply List.in_flat_map. exists (n, usedBy s n). split.
      - rewrite <- tableNames. apply namesUnder_found. rewrite tableNames.
        destruct (usedBy s n); [destruct Hx|discriminate].
      - apply Nat.ltb_lt in Hn. rewrite Hn. apply List.in_flat_map.
        exists x. split; [exact Hx|]. unfold structWide. rewrite Hg.
        now left. }
    now apply List.filter_In in H as [H _].
  - intros H. rewrite validateGormTags_one, validateStruct_index.
    unfold sharedIndexNames.
    pose proof (indexTable_keys (indexEntries (GoStruct.fields s)) []
                  (List.NoDup_nil _)) as Hk.
    apply flat_map_nothing. intros [n fs] Hin.
    rewrite <- (namesUnder_In _ _ _ Hk Hin), tableNames.
    destruct (Nat.ltb_spec 1 (length (usedBy s n))); [|reflexivity].
    specialize (H n). lia.
Qed.

Lemma shared_index_names_witness :
  (exists d, In d (validateGormTags [sharedIndex])
     /\ structName d = "Order" /\ fieldName d = "Status"
     /\ level d = Warning /\ errorTag d = None
     /\ message d
        = "Index 'idx_user_status' is used by multiple fields: UserID, Status. Ensure this is intended for composite index.")
  /\ List.filter isIndexShared (validateGormTags [ownIndexes]) = [].
Proof.
  split.
  - apply (proj1 (shared_index_names_warned sharedIndex)
             "idx_user_status" "Status").
    + vm_compute. lia.
    + vm_compute. right. left. reflexivity.
  - apply (proj2 (shared_index_names_warned ownIndexes)).
    intros n. unfold usedBy.
    assert (E : indexEntries (GoStruct.fields ownIndexes)
                = [("idx_sku", "Sku"); ("idx_name", "Name")])
      by (vm_compute; reflexivity).
    rewrite E. cbn [List.filter fst].
    destruct (String.eqb "idx_sku" n) eqn:E1;
      destruct (String.eqb "idx_name" n) eqn:E2; cbn; try lia.
    apply String.eqb_eq in E1, E2. subst n. discriminate.
Defined.

(** ** Where a finding is shown *)

Lemma startsWith_take p : forall s,
  Js.startsWith s p = true -> Js.take (String.length p) s = p.
Proof.
  induction p as [|a p IH]; intros s H; [now destruct s|].
  destruct s as [|b s]; [discriminate|]. cbn in H |- *.
  apply andb_true_iff in H as [Hab H]. apply Ascii.eqb_eq in Hab.
  subst b. now rewrite IH.
Qed.

Lemma startsWith_app p q : forall s,
  Js.startsWith s (p +:+ q) = true ->
  Js.startsWith s p = true
  /\ Js.startsWith (Js.drop (String.length p) s) q = true.
Proof.
  induction p as [|a p IH]; intros s H; [now split|].
  destruct s as [|b s]; [discriminate|]. cbn in H |- *.
  apply andb_true_iff in H as [Hab H]. rewrite Hab.
  now apply IH.
Qed.

Lemma drop_drop m : forall n s, Js.drop n (Js.drop m s) = Js.drop (m + n) s.
Proof.
  induction m as [|m IH]; intros n s; [reflexivity|].
  destruct s as [|c s]; cbn; [now destruct n|apply IH].
Qed.

Lemma indexOfFrom_hit s p : forall from,
  Js.indexOfFrom from s p <> -1 ->
  from <= Js.indexOfFrom from s p
  /\ Js.startsWith
       (Js.drop (Z.to_nat (Js.indexOfFrom from s p - from)) s) p = true.
Proof.
  induction s as [|a s IH]; intros from H; cbn in H |- *.
  - destruct (Js.startsWith "" p) eqn:E; [|congruence].
    rewrite Z.sub_diag. split; [lia|exact E].
  - destruct (Js.startsWith (String a s) p) eqn:E.
    + rewrite Z.sub_diag. split; [lia|exact E].
    + destruct (IH (from + 1) H) as [Hle Hs]. split; [lia|].
      replace (Z.to_nat (Js.indexOfFrom (from + 1) s p - from))
        with (S (Z.to_nat (Js.indexOfFrom (from + 1) s p - (from + 1))))
        by lia.
      exact Hs.
Qed.

Lemma indexOfFrom_occurs p n : forall s from,
  0 <= from -> Js.startsWith (Js.drop n s) p = true ->
  Js.indexOfFrom from s p <> -1.
Proof.
  induction n as [|n IH]; intros s from Hf H.
  - destruct s; cbn in H |- *; rewrite H; lia.
  - destruct s as [|a s]; cbn in H |- *.
    + rewrite H. lia.
    + destruct (Js.startsWith (String a s) p); [lia|].
      apply IH; [lia|exact H].
Qed.

(** Where [indexOf] finds [p], [p] stands. *)
Lemma indexOf_text s p :
  Js.indexOf s p <> -1 ->
  0 <= Js.indexOf s p
  /\ Js.substring s (Js.indexOf s p)
       (Js.indexOf s p + Z.of_nat (String.length p)) = p.
Proof.
  intros H. destruct (indexOfFrom_hit s p 0 H) as [Hle Hs].
  fold (Js.indexOf s p) in *. split; [exact Hle|].
  unfold Js.substring. rewrite Z.sub_0_r in Hs.
  replace (Z.to_nat (Js.indexOf s p + Z.of_nat (String.length p)
                     - Js.indexOf s p))
    with (String.length p) by lia.
  now apply startsWith_take.
Qed.

Lemma startsWith_trimEnd s : forall p,
  Js.startsWith (Js.trimEnd s) p = true -> Js.startsWith s p = true.
Proof.
  induction s as [|c s IH]; intros p H; [exact H|].
  destruct p as [|a p]; [reflexivity|].
  cbn [Js.trimEnd] in H. cbn [Js.startsWith].
  destruct (Js.trimEnd s) as [|b t] eqn:E.
  - destruct (Js.isSpace c); [discriminate|].
    cbn in H. apply andb_true_iff in H as [Hac H]. rewrite Hac.
    destruct p; [reflexivity|discriminate].
  - cbn [Js.startsWith] in H. apply andb_true_iff in H as [Hac H].
    rewrite Hac. now apply IH.
Qed.

Lemma trimStart_drop s : exists n, Js.trimStart s = Js.drop n s.
Proof.
  induction s as [|c s [n IH]]; [now exists 0%nat|].
  cbn [Js.trimStart]. destruct (Js.isSpace c).
  - now exists (S n).
  - now exists 0%nat.
Qed.

Lemma startsWith_trim_found l p :
  Js.startsWith (Js.trim l) p = true -> Js.indexOf l p <> -1.
Proof.
  intros H. apply startsWith_trimEnd in H.
  destruct (trimStart_drop l) as [n Hn]. rewrite Hn in H.
  now apply (indexOfFrom_occurs p n).
Qed.

Lemma includes_found s p : Js.includes s p = true -> Js.indexOf s p <> -1.
Proof. unfold Js.includes. intros H. now apply negb_true_iff, Z.eqb_neq in H. Qed.

(** A line that declares the struct has the struct's name on it. *)
Lemma header_has_name l structName :
  Js.includes l ("type " +:+ structName +:+ " struct") = true ->
  Js.indexOf l structName <> -1.
Proof.
  intros H. apply includes_found in H.
  apply indexOfFrom_found in H as [n Hn]; [|lia].
  apply (startsWith_app "type ") in Hn as [_ Hn].
  apply startsWith_app in Hn as [Hn _].
  rewrite drop_drop in Hn.
  now apply (indexOfFrom_occurs structName (n + String.length "type ")).
Qed.

Lemma fieldLineRange_marks l i structName fieldName errorTag :
  0 <= i -> Js.startsWith (Js.trim l) fieldName = true ->
  marks l i structName fieldName errorTag
    (fieldLineRange l i fieldName errorTag).
Proof.
  intros Hi Hf. apply startsWith_trim_found, indexOf_text in Hf as [Hn Ht].
  assert (Hname : marks l i structName fieldName errorTag
            (mkRange (mkPosition i (Js.indexOf l fieldName))
               (mkPosition i (Js.indexOf l fieldName
                              + Z.of_nat (String.length fieldName))))).
  { unfold marks. cbn. repeat split; try lia. now left. }
  unfold fieldLineRange.
  destruct (truthyTag errorTag && Js.includes l "gorm:") eqn:E; [|exact Hname].
  apply andb_true_iff in E as [Et Eg].
  destruct (negb (Js.indexOf (Js.substringFrom l (Js.indexOf l "gorm:"))
                    (tagText errorTag) =? -1)) eqn:Ei; [|exact Hname].
  apply negb_true_iff, Z.eqb_neq in Ei.
  apply includes_found, indexOf_text in Eg as [Hg _].
  apply indexOf_text in Ei as [He Hte].
  set (g := Js.indexOf l "gorm:") in *.
  set (e := Js.indexOf (Js.substringFrom l g) (tagText errorTag)) in *.
  unfold marks. cbn. repeat split; try lia.
  right. right. split; [exact Et|].
  unfold Js.substring, Js.substringFrom in Hte |- *.
  rewrite drop_drop in Hte.
  replace (Z.to_nat (g + e)) with (Z.to_nat g + Z.to_nat e)%nat by lia.
  replace (g + e + Z.of_nat (String.length (tagText errorTag)) - (g + e))
    with (e + Z.of_nat (String.length (tagText errorTag)) - e) by lia.
  exact Hte.
Qed.

(** What the scan of the lines gives: a range that marks a name on its line,
    or, falling out, the line that declares the struct when one was met. *)
Lemma scanLines_marks structName fieldName errorTag lines :
  forall pre inStruct structFound structStartLine,
  (structFound = true ->
   0 <= structStartLine < Z.of_nat (length pre)
   /\ Js.includes (nth (Z.to_nat structStartLine) pre "")
        ("type " +:+ structName +:+ " struct") = true) ->
  match scanLines structName fieldName errorTag lines
          (Z.of_nat (length pre)) inStruct structFound structStartLine with
  | Returned r =>
      0 <= line (start r) < Z.of_nat (length (pre ++ lines))
      /\ marks (nth (Z.to_nat (line (start r))) (pre ++ lines) "")
           (line (start r)) structName fieldName errorTag r
  | FellOut found startLine =>
      found = true ->
      0 <= startLine < Z.of_nat (length (pre ++ lines))
      /\ Js.includes (nth (Z.to_nat startLine) (pre ++ lines) "")
           ("type " +:+ structName +:+ " struct") = true
  end.
Proof.
  induction lines as [|l lines IH];
    intros pre inStruct structFound structStartLine H.
  - cbn [scanLines]. rewrite List.app_nil_r. exact H.
  - assert (Hnext : Z.of_nat (length pre) + 1 = Z.of_nat (length (pre ++ [l])))
      by (rewrite List.length_app; cbn; lia).
    assert (Happ : pre ++ l :: lines = (pre ++ [l]) ++ lines)
      by (now rewrite <- List.app_assoc).
    assert (Hkeep : structFound = true ->
              0 <= structStartLine < Z.of_nat (length (pre ++ [l]))
              /\ Js.includes (nth (Z.to_nat structStartLine) (pre ++ [l]) "")
                   ("type " +:+ structName +:+ " struct") = true).
    { intros Hf. destruct (H Hf) as [Hr Hi]. split; [lia|].
      rewrite List.app_nth1; [exact Hi|lia]. }
    cbn [scanLines].
    destruct (Js.includes l ("type " +:+ structName +:+ " struct")) eqn:Eh.
    + rewrite Hnext, Happ. apply IH. intros _. split; [lia|].
      rewrite Nat2Z.id, List.nth_middle. exact Eh.
    + destruct (inStruct && structFound) eqn:Es.
      * destruct (String.eqb (Js.trim l) "}").
        { intros Hf. destruct (H Hf) as [Hr Hi].
          rewrite List.length_app. split; [cbn; lia|].
          rewrite List.app_nth1; [exact Hi|lia]. }
        destruct (Js.startsWith (Js.trim l) fieldName) eqn:Ef.
        { pose proof (fieldLineRange_marks l (Z.of_nat (length pre))
                        structName fieldName errorTag ltac:(lia) Ef) as Hm.
          destruct Hm as (Hs & He & Hm). rewrite Hs.
          rewrite Nat2Z.id, List.nth_middle, List.length_app.
          split; [cbn; lia|]. now repeat split. }
        rewrite Hnext, Happ. now apply IH.
      * rewrite Hnext, Happ. now apply IH.
Qed.

(** The range of a finding is the start of the document or marks a name on
    one line of the document. *)
Lemma findFieldRange_found source structName fieldName errorTag :
  let r := findFieldRange source structName fieldName errorTag in
  r = documentStart
  \/ (0 <= line (start r) < Z.of_nat (length (Js.split newline source))
      /\ marks (nth (Z.to_nat (line (start r))) (Js.split newline source) "")
           (line (start r)) structName fieldName errorTag r).
Proof.
  unfold findFieldRange.
  assert (H := scanLines_marks structName fieldName errorTag
                 (Js.split newline source) [] false false (-1)
                 ltac:(discriminate)).
  cbn [length app] in H. change (Z.of_nat 0) with 0 in H.
  destruct (scanLines structName fieldName errorTag (Js.split newline source)
              0 false false (-1)) as [r|found startLine].
  - now right.
  - destruct found; [|now left]. destruct (H eq_refl) as [Hr Hi].
    cbn [andb]. destruct (0 <=? startLine) eqn:E; [|now left]. right.
    cbn [start finish line character].
    apply header_has_name, indexOf_text in Hi as [Hn Ht].
    split; [lia|].
    unfold marks. cbn. repeat split; try lia. right. now left.
Qed.

(** X6.  The range [findFieldRange] gives is the start of the document, or
    it lies on one line of the document, at non-negative positions, its end
    not before its start, and the text it covers there is the field's name,
    the struct's name or the tag the finding names. *)
Theorem findFieldRange_marks_a_name
  (source structName fieldName : string) (errorTag : option string) :
  let r := findFieldRange source structName fieldName errorTag in
  r = documentStart
  \/ (wellFormed r
      /\ line (start r) < Z.of_nat (length (Js.split newline source))
      /\ (highlighted source r = fieldName
          \/ highlighted source r = structName
          \/ (truthyTag errorTag = true
              /\ highlighted source r = tagText errorTag))).
Proof.
  intros r.
  destruct (findFieldRange_found source structName fieldName errorTag)
    as [H|[Hl (Hs & He & Hc & Ht)]]; [now left|right].
  fold r in Hl, Hs, He, Hc, Ht.
  split; [|split; [lia|exact Ht]].
  unfold wellFormed. rewrite He. repeat split; lia.
Qed.

Lemma toLsp_range hasRelated uri text d :
  range (toLsp hasRelated uri text d)
  = findFieldRange text (structName d) (fieldName d) (errorTag d).
Proof.
  unfold toLsp. cbn [range].
  destruct (findFieldRange_found text (structName d) (fieldName d) (errorTag d))
    as [H|[Hl (Hs & He & Hc & _)]].
  - rewrite H. reflexivity.
  - destruct (findFieldRange text (structName d) (fieldName d) (errorTag d))
      as [[l1 c1] [l2 c2]].
    cbn [start finish line character] in *.
    rewrite !Z.max_r by lia.
    replace (l2 <? l1) with false by (symmetry; apply Z.ltb_ge; lia).
    replace (c2 <? c1) with false by (symmetry; apply Z.ltb_ge; lia).
    now rewrite andb_false_r.
Qed.

Lemma slice0_nil {A} e : slice0 (@nil A) e = [].
Proof. unfold slice0. destruct (e <? 0); apply List.firstn_nil. Qed.

(** The early returns of [validateGoFile] give what the loop would. *)
Lemma validateGoFile_eq settings hasRelated uri text :
  validateGoFile settings hasRelated uri text
  = map (toLsp hasRelated uri text)
      (limitedDiagnostics settings (validateGormTags (parseGoStructs text))).
Proof.
  unfold validateGoFile, limitedDiagnostics.
  destruct (negb (Js.truthy text) || Js.isBlank text) eqn:E.
  - rewrite (parseGoStructs_blank text E).
    change (validateGormTags []) with (@nil GormDiagnostic).
    now rewrite slice0_nil.
  - destruct (parseGoStructs text) as [|s structs].
    + change (validateGormTags []) with (@nil GormDiagnostic).
      now rewrite slice0_nil.
    + destruct (validateGormTags (s :: structs)); [|reflexivity].
      now rewrite slice0_nil.
Qed.

(** X7.  What is published for a document is the validator's findings on
    the structs parsed from it, in their order and up to the cap, each with
    its message, the severity of its level, and as its range exactly what
    [findFieldRange] gives: the clamping of negative positions and the
    repair of an inverted range never change a range. *)
Theorem published_as_found
  (settings : GormLanguageServerSettings) (hasRelated : bool)
  (uri text : string) :
  map (fun D => (range D, lspMessage D, severity D))
    (validateGoFile settings hasRelated uri text)
  = map (fun d => (findFieldRange text (structName d) (fieldName d) (errorTag d),
                   message d, severityOf (level d)))
      (limitedDiagnostics settings (validateGormTags (parseGoStructs text))).
Proof.
  rewrite validateGoFile_eq, List.map_map. apply List.map_ext.
  intros d. now rewrite toLsp_range.
Qed.



(** ** The line a finding is shown on *)

Lemma scanLines_before S F et pre tail : forall i,
  Forall (fun p => Js.includes p (headerOf S) = false) pre ->
  scanLines S F et (pre ++ tail) i false false (-1)
  = scanLines S F et tail (i + Z.of_nat (length pre)) false false (-1).
Proof.
  induction pre as [|p pre IH]; intros i H.
  - cbn [app length]. now rewrite Z.add_0_r.
  - apply List.Forall_cons_iff in H as [Hp H].
    cbn [app scanLines]. fold (headerOf S). rewrite Hp. cbn [andb].
    rewrite (IH (i + 1) H). f_equal. cbn [length]. lia.
Qed.

Lemma scanLines_inside S F et mid tail startLine : forall i,
  Forall (passedOver S F) mid ->
  scanLines S F et (mid ++ tail) i true true startLine
  = scanLines S F et tail (i + Z.of_nat (length mid)) true true startLine.
Proof.
  induction mid as [|m mid IH]; intros i H.
  - cbn [app length]. now rewrite Z.add_0_r.
  - apply List.Forall_cons_iff in H as [(Hh & Hc & Hf) H].
    cbn [app scanLines]. fold (headerOf S). rewrite Hh. cbn [andb].
    apply String.eqb_neq in Hc. rewrite Hc, Hf.
    rewrite (IH (i + 1) H). f_equal. cbn [length]. lia.
Qed.



(** X10.  Where the struct is declared and no line between the declaration
    and the closing brace (or the end of the document) starts with the
    field's name, the finding is shown on the struct's name, on the line of
    the declaration. *)
Theorem findFieldRange_field_not_found
  (source S F : string) (et : option string)
  (pre : list string) (header : string) (mid closing : list string) :
  Js.split newline source = pre ++ header :: mid ++ closing ->
  Forall (fun p => Js.includes p (headerOf S) = false) pre ->
  Js.includes header (headerOf S) = true ->
  Forall (passedOver S F) mid ->
  (closing = []
   \/ exists c rest, closing = c :: rest
        /\ Js.includes c (headerOf S) = false /\ Js.trim c = "}") ->
  findFieldRange source S F et
  = mkRange
      (mkPosition (Z.of_nat (length pre)) (Js.indexOf header S))
      (mkPosition (Z.of_nat (length pre))
         (Js.indexOf header S + Z.of_nat (String.length S))).
Proof.
  intros Hs Hpre Hh Hmid Hc. unfold findFieldRange. rewrite Hs.
  rewrite (scanLines_before S F et pre _ 0 Hpre).
  cbn [scanLines]. fold (headerOf S). rewrite Hh.
  rewrite (scanLines_inside S F et mid _ _ _ Hmid).
  assert (E : scanLines S F et closing
                (0 + Z.of_nat (length pre) + 1 + Z.of_nat (length mid))
                true true (0 + Z.of_nat (length pre))
              = FellOut true (0 + Z.of_nat (length pre))).
  { destruct Hc as [->|(c & rest & -> & Hn & Ht)]; [reflexivity|].
    cbn [scanLines]. fold (headerOf S). rewrite Hn, Ht. reflexivity. }
  rewrite E. cbn [andb]. rewrite Z.add_0_l.
  replace (0 <=? Z.of_nat (length pre)) with true
    by (symmetry; apply Z.leb_le; lia).
  rewrite Nat2Z.id, List.nth_middle. reflexivity.
Qed.

Lemma findFieldRange_field_not_found_witness :
  findFieldRange cardSource "Card" "Name" (Some "size")
  = mkRange (mkPosition 0 5) (mkPosition 0 9).
Proof.
  apply (findFieldRange_field_not_found cardSource "Card" "Name" (Some "size")
           [] "type Card struct {" ["  IDCard string"; "  ID uint"] ["}"]);
    try reflexivity.
  - constructor.
  - repeat constructor; discriminate.
  - right. exists "}", []. now repeat split.
Defined.

(** ** What a finding is about *)

Lemma Forall_pushIf (P : GormDiagnostic -> Prop) c d :
  P d -> Forall P (pushIf c d).
Proof. intros H. destruct c; simpl; auto. Qed.

Ltac entry_now :=
  repeat first
    [ apply List.Forall_nil
    | apply List.Forall_cons
    | apply List.Forall_app; split
    | apply Forall_pushIf
    | solve [repeat split] ].

Lemma validateTagValue_ofEntry key value sn fn tg ok :
  Forall (ofEntry sn fn tg (orKey ok key))
    (validateTagValue key value sn fn tg ok).
Proof.
  switch_cases key; try solve [entry_now].
  - destruct (missing value); entry_now.
  - destruct (missing value); [entry_now|].
    apply List.Forall_flat_map, List.Forall_forall. intros part _. entry_now.
Qed.

Lemma validateTagCombinations_ofEntry keys ck sn fn tg ok :
  Forall (ofEntry sn fn tg (orKey ok ck))
    (validateTagCombinations keys ck sn fn tg ok).
Proof.
  unfold validateTagCombinations.
  destruct (String.eqb ck "primarykey"); entry_now.
Qed.

(** [originalKey || key], the key being the original one in lower case. *)
Lemma orKey_written k : orKey k (Js.toLowerCase k) = k.
Proof. unfold orKey. now destruct k. Qed.

Lemma processPart_ofEntry s f keys st p :
  Forall (ofEntry (GoStruct.name s) (GormTag.name f) (GormTag.gormTag f)
            (partKey p))
    (fst (processPart s f keys st p)).
Proof.
  pose proof (validateTagValue_ofEntry (Js.toLowerCase (partKey p))
                (partValue p) (GoStruct.name s) (GormTag.name f)
                (GormTag.gormTag f) (partKey p)) as Hv.
  pose proof (validateTagCombinations_ofEntry
                (setAdd keys (Js.toLowerCase (partKey p)))
                (Js.toLowerCase (partKey p)) (GoStruct.name s)
                (GormTag.name f) (GormTag.gormTag f) (partKey p)) as Hc.
  rewrite orKey_written in Hv, Hc.
  unfold processPart.
  destruct (String.eqb _ "column" && _); [destruct (_ !! _)|]; cbn [fst];
    (apply List.Forall_app; split; [entry_now|]);
    (apply List.Forall_app; split; [entry_now|]);
    (apply List.Forall_app; split; [entry_now|]);
    (apply List.Forall_app; split;
       [|apply List.Forall_app; split; [exact Hv|exact Hc]]);
    (destruct (negb (valid (isValidGormKey (Js.toLowerCase (partKey p)))));
       [entry_now|];
     destruct (negb (recommended (isValidGormKey (Js.toLowerCase (partKey p)))));
       entry_now).
Qed.

Lemma partsLoop_ofEntry s f ps : forall keys st,
  Forall (fun d => exists p, In p ps
            /\ ofEntry (GoStruct.name s) (GormTag.name f) (GormTag.gormTag f)
                 (partKey p) d)
    (fst (partsLoop s f ps keys st)).
Proof.
  induction ps as [|p ps IH]; intros keys st; [constructor|].
  rewrite partsLoop_cons. cbn [fst snd]. apply List.Forall_app. split.
  - eapply List.Forall_impl; [|apply processPart_ofEntry].
    intros d Hd. exists p. split; [now left|exact Hd].
  - eapply List.Forall_impl; [|apply IH].
    intros d (q & Hq & Hd). exists q. split; [now right|exact Hd].
Qed.

Lemma fieldsLoop_grounded s fs : forall st,
  Forall (fun d => exists f, In f fs /\ attributed s f d
            /\ exists p, In p (fieldParts f) /\ errorTag d = Some (partKey p))
    (fst (fieldsLoop s fs st)).
Proof.
  induction fs as [|f fs IH]; intros st; [constructor|].
  rewrite fieldsLoop_cons. cbn [fst snd]. apply List.Forall_app. split.
  - rewrite processField_eq. cbn [fst].
    eapply List.Forall_impl; [|apply partsLoop_ofEntry].
    intros d (p & Hp & Hs & Hf & Ht & He). exists f.
    split; [now left|]. split; [now repeat split|]. now exists p.
  - eapply List.Forall_impl; [|apply IH].
    intros d (g & Hg & Hd). exists g. split; [now right|exact Hd].
Qed.

Lemma structWide_grounded s msg lvl x :
  Forall (fun d => exists f, In f (GoStruct.fields s) /\ attributed s f d
            /\ errorTag d = None)
    (structWide s msg lvl x).
Proof.
  unfold structWide, findField.
  destruct (List.find _ (GoStruct.fields s)) as [g|] eqn:E; [|constructor].
  apply List.find_some in E as [Hg _].
  constructor; [|constructor]. exists g. now repeat split.
Qed.

Lemma validateStruct_grounded s :
  Forall (fun d => exists f, In f (GoStruct.fields s) /\ attributed s f d
            /\ (errorTag d = None
                \/ exists p, In p (fieldParts f)
                     /\ errorTag d = Some (partKey p)))
    (validateStruct s).
Proof.
  assert (Hw : forall msg lvl xs,
    Forall (fun d => exists f, In f (GoStruct.fields s) /\ attributed s f d
              /\ (errorTag d = None
                  \/ exists p, In p (fieldParts f)
                       /\ errorTag d = Some (partKey p)))
      (flat_map (structWide s msg lvl) xs)).
  { intros msg lvl xs. apply List.Forall_flat_map, List.Forall_forall.
    intros x _. eapply List.Forall_impl; [|apply structWide_grounded].
    intros d (f & Hf & Ha & He). exists f. auto. }
  unfold validateStruct. destruct (GoStruct.fields s) as [|f fs] eqn:E;
    [constructor|].
  pose proof (fieldsLoop_grounded s (f :: fs) initialState) as H.
  destruct (fieldsLoop s (f :: fs) initialState) as [d st].
  cbn [fst] in H.
  assert (Hd : Forall (fun d => exists g, In g (f :: fs)
                         /\ attributed s g d
                         /\ (errorTag d = None
                             \/ exists p, In p (fieldParts g)
                                  /\ errorTag d = Some (partKey p))) d).
  { eapply List.Forall_impl; [|exact H].
    intros d' (g & Hg & Ha & Hp). exists g. auto. }
  destruct (negb (hasGormTags st)); [exact Hd|].
  apply List.Forall_app. split; [exact Hd|]. apply List.Forall_app. split.
  - unfold multiplePrimaryKeys.
    destruct (1 <? length (primaryKeyFields st))%nat; [apply Hw|constructor].
  - unfold sharedIndexNames. apply List.Forall_flat_map, List.Forall_forall.
    intros [n xs] _. destruct (1 <? length xs)%nat; [apply Hw|constructor].
Qed.

(** X11.  Every finding is about a struct of the list and one of its fields,
    whose name and tag literal it carries; the tag it names, if any, is the
    key of an entry of that tag, as written there. *)
Theorem findings_are_grounded (structs : list GoStruct.t) :
  Forall (grounded structs) (validateGormTags structs).
Proof.
  unfold validateGormTags. apply List.Forall_flat_map, List.Forall_forall.
  intros s Hs. eapply List.Forall_impl; [|apply validateStruct_grounded].
  intros d (f & Hf & Ha & He). exists s, f. auto.
Qed.

(** ** Reading the entries of a tag *)

Lemma length_trimStart s : (String.length (Js.trimStart s) <= String.length s)%nat.
Proof.
  induction s as [|c s IH]; [reflexivity|].
  cbn [Js.trimStart]. destruct (Js.isSpace c); cbn [String.length]; lia.
Qed.

Lemma length_trimEnd s : (String.length (Js.trimEnd s) <= String.length s)%nat.
Proof.
  induction s as [|c s IH]; [reflexivity|].
  cbn [Js.trimEnd]. destruct (Js.trimEnd s).
  - destruct (Js.isSpace c); cbn [String.length]; lia.
  - cbn [String.length] in *. lia.
Qed.

Lemma trimStart_head c s :
  Js.trimStart (String c s) = String c s -> Js.isSpace c = false.
Proof.
  cbn [Js.trimStart]. destruct (Js.isSpace c); [|reflexivity].
  intros H. pose proof (length_trimStart s) as Hl. rewrite H in Hl.
  cbn [String.length] in Hl. lia.
Qed.

Lemma trim_fixed s :
  Js.trim s = s -> Js.trimStart s = s /\ Js.trimEnd s = s.
Proof.
  unfold Js.trim. intros H.
  assert (Hs : Js.trimStart s = s).
  { pose proof (length_trimEnd (Js.trimStart s)) as H1.
    rewrite H in H1. destruct s as [|c s]; [reflexivity|].
    cbn [Js.trimStart] in *. destruct (Js.isSpace c); [|reflexivity].
    pose proof (length_trimStart s). cbn [String.length] in H1. lia. }
  split; [exact Hs|]. now rewrite Hs in H.
Qed.

Lemma append_cons c k x : String c k +:+ x = String c (k +:+ x).
Proof. reflexivity. Qed.

Lemma append_nil x : "" +:+ x = x.
Proof. reflexivity. Qed.

Lemma append_nil_r a : a +:+ "" = a.
Proof.
  induction a as [|c a IH]; [reflexivity|]. rewrite append_cons. now f_equal.
Qed.

Lemma append_assoc a b c : (a +:+ b) +:+ c = a +:+ b +:+ c.
Proof.
  induction a as [|x a IH]; [reflexivity|]. rewrite !append_cons. now f_equal.
Qed.

Lemma length_append a b :
  String.length (a +:+ b) = (String.length a + String.length b)%nat.
Proof.
  induction a as [|c a IH]; [reflexivity|].
  rewrite append_cons. cbn [String.length]. now rewrite IH.
Qed.

Lemma trimStart_app k x :
  k <> "" -> Js.trimStart k = k -> Js.trimStart (k +:+ x) = k +:+ x.
Proof.
  destruct k as [|c k]; [congruence|]. intros _ H.
  apply trimStart_head in H. rewrite append_cons. cbn [Js.trimStart].
  now rewrite H.
Qed.

Lemma trimEnd_app v : v <> "" -> Js.trimEnd v = v ->
  forall x, Js.trimEnd (x +:+ v) = x +:+ v.
Proof.
  intros Hv H x. induction x as [|c x IH]; [exact H|].
  rewrite append_cons. cbn [Js.trimEnd].
  rewrite IH. destruct (x +:+ v) eqn:E; [|reflexivity].
  destruct x; [rewrite append_nil in E; congruence|discriminate].
Qed.

Lemma trimEnd_colon v : Js.trimEnd v = v -> Js.trimEnd (String ":" v) = String ":" v.
Proof. intros H. cbn. rewrite H. now destruct v. Qed.

Lemma occurs_app c a b : occurs c (a +:+ b) = occurs c a || occurs c b.
Proof.
  induction a as [|x a IH]; [reflexivity|].
  rewrite append_cons. cbn [occurs]. now rewrite IH, orb_assoc.
Qed.

Lemma split_clean sep k : occurs sep k = false -> Js.split sep k = [k].
Proof.
  induction k as [|a k IH]; [reflexivity|]. cbn. intros H.
  apply orb_false_iff in H as [Ha Hk]. now rewrite Ha, (IH Hk).
Qed.

Lemma split_app_sep sep k r :
  occurs sep k = false ->
  Js.split sep (k +:+ String sep r) = k :: Js.split sep r.
Proof.
  induction k as [|a k IH]; intros H.
  - rewrite append_nil. cbn [Js.split]. now rewrite Ascii.eqb_refl.
  - cbn [occurs] in H. apply orb_false_iff in H as [Ha Hk].
    rewrite append_cons. cbn [Js.split]. now rewrite Ha, (IH Hk).
Qed.

(** Splitting what was joined gives the pieces back. *)
Lemma split_join sep l :
  l <> [] -> Forall (fun p => occurs sep p = false) l ->
  Js.split sep (Js.join (String sep "") l) = l.
Proof.
  induction l as [|x l IH]; [congruence|]. intros _ H.
  apply List.Forall_cons_iff in H as [Hx Hl].
  destruct l as [|y l]; [now apply split_clean|].
  change (Js.join (String sep "") (x :: y :: l))
    with (x +:+ String sep (Js.join (String sep "") (y :: l))).
  rewrite (split_app_sep _ _ _ Hx), IH; [reflexivity|discriminate|exact Hl].
Qed.

Lemma indexOfFrom_absent c s : forall from,
  occurs c s = false -> Js.indexOfFrom from s (String c "") = -1.
Proof.
  induction s as [|a s IH]; intros from H; [reflexivity|].
  cbn in H |- *. apply orb_false_iff in H as [Ha Hs].
  rewrite Ascii.eqb_sym, Ha. cbn. now apply IH.
Qed.

Lemma indexOfFrom_at c k r : forall from,
  occurs c k = false ->
  Js.indexOfFrom from (k +:+ String c r) (String c "")
  = from + Z.of_nat (String.length k).
Proof.
  induction k as [|a k IH]; intros from H.
  - rewrite append_nil. cbn [Js.indexOfFrom Js.startsWith].
    rewrite Ascii.eqb_refl. cbn. lia.
  - cbn [occurs] in H. apply orb_false_iff in H as [Ha Hk].
    rewrite append_cons. cbn [Js.indexOfFrom Js.startsWith].
    rewrite Ascii.eqb_sym, Ha. cbn [andb]. rewrite (IH _ Hk).
    cbn [String.length]. lia.
Qed.

Lemma take_app k x : Js.take (String.length k) (k +:+ x) = k.
Proof.
  induction k as [|a k IH]; [now destruct x|].
  rewrite append_cons. cbn [String.length Js.take]. now f_equal.
Qed.

Lemma drop_app k x : Js.drop (String.length k) (k +:+ x) = x.
Proof. induction k as [|a k IH]; [reflexivity|exact IH]. Qed.

Lemma readEntry_printEntry k v :
  cleanKey k -> cleanValue v -> readEntry (printEntry (k, v)) = (k, v).
Proof.
  intros (Hk & Htk & Hck & _) (Htv & _).
  unfold printEntry, readEntry, partKey, partValue. cbn [fst snd].
  destruct (String.eqb v "") eqn:Ev.
  - apply String.eqb_eq in Ev. subst v. unfold Js.indexOf.
    rewrite (indexOfFrom_absent _ _ _ Hck). cbn. now rewrite Htk.
  - change (k +:+ ":" +:+ v) with (k +:+ String ":" v).
    unfold Js.indexOf. rewrite (indexOfFrom_at ":" k v 0 Hck).
    replace (0 <? 0 + Z.of_nat (String.length k)) with true.
    2:{ symmetry. apply Z.ltb_lt. destruct k; [congruence|cbn; lia]. }
    unfold Js.substring, Js.substringFrom.
    replace (Z.to_nat (0 + Z.of_nat (String.length k) - 0))
      with (String.length k) by lia.
    replace (Z.to_nat (0 + Z.of_nat (String.length k) + 1))
      with (String.length k + 1)%nat by lia.
    change (Z.to_nat 0) with 0%nat. cbn [Js.drop].
    rewrite take_app, Htk, <- drop_drop, drop_app. cbn [Js.drop].
    now rewrite Htv.
Qed.

Lemma printEntry_clean k v :
  cleanKey k -> cleanValue v ->
  Js.trim (printEntry (k, v)) = printEntry (k, v)
  /\ printEntry (k, v) <> ""
  /\ occurs ";" (printEntry (k, v)) = false.
Proof.
  intros (Hk & Htk & _ & Hsk) (Htv & Hsv).
  unfold printEntry. cbn [fst snd].
  destruct (String.eqb v "") eqn:Ev; [now repeat split|].
  apply String.eqb_neq in Ev.
  change (k +:+ ":" +:+ v) with (k +:+ String ":" v).
  apply trim_fixed in Htk as [Hks _]. apply trim_fixed in Htv as [_ Hve].
  repeat split.
  - unfold Js.trim. rewrite (trimStart_app _ _ Hk Hks).
    apply trimEnd_app; [discriminate|now apply trimEnd_colon].
  - destruct k; [congruence|discriminate].
  - rewrite occurs_app, Hsk. cbn [occurs orb]. rewrite Hsv. reflexivity.
Qed.

Lemma tagParts_printTag es :
  Forall (fun e => cleanKey (fst e) /\ cleanValue (snd e)) es ->
  tagParts (printTag es) = map printEntry es.
Proof.
  intros H. destruct es as [|e es]; [reflexivity|].
  assert (Hc : Forall (fun p => Js.trim p = p /\ p <> ""
                                /\ occurs ";" p = false)
                 (map printEntry (e :: es))).
  { apply List.Forall_map. eapply List.Forall_impl; [|exact H].
    intros [k v] [Hk Hv]. now apply printEntry_clean. }
  unfold tagParts, printTag. rewrite split_join.
  - remember (map printEntry (e :: es)) as ps eqn:E. clear E H.
    induction Hc as [|p ps (Ht & Hn & _) _ IH]; [reflexivity|].
    cbn [map List.filter]. rewrite Ht, IH.
    destruct p; [congruence|reflexivity].
  - discriminate.
  - eapply List.Forall_impl; [|exact Hc]. now intros p (_ & _ & Hp).
Qed.

(** X12.  A tag written as entries separated by semicolons, each a key or
    a key, a colon and a value, is read back by the validator as these
    entries, with these keys and values: the keys not empty, without colon
    or semicolon, the values without semicolon (colons are kept), and
    neither with white space around it. *)
Theorem entries_read_back (es : list (string * string)) :
  Forall (fun e => cleanKey (fst e) /\ cleanValue (snd e)) es ->
  map readEntry (tagParts (printTag es)) = es.
Proof.
  intros H. rewrite (tagParts_printTag es H), List.map_map.
  induction H as [|[k v] es [Hk Hv] _ IH]; [reflexivity|].
  cbn [map]. now rewrite IH, readEntry_printEntry.
Qed.

Lemma entries_read_back_witness :
  map readEntry (tagParts "column:name;default:12:30;not null")
  = [("column", "name"); ("default", "12:30"); ("not null", "")].
Proof.
  apply (entries_read_back
           [("column", "name"); ("default", "12:30"); ("not null", "")]).
  repeat constructor; discriminate.
Defined.

(** ** Numeric values *)

Lemma fieldParts_oneEntry F T k v :
  cleanKey k -> cleanValue v ->
  fieldParts (GormTag.mk F T (printEntry (k, v))) = [printEntry (k, v)].
Proof.
  intros Hk Hv. destruct (printEntry_clean k v Hk Hv) as (Ht & Hn & _).
  unfold fieldParts. cbn [GormTag.gormTag].
  replace (negb (Js.truthy (printEntry (k, v))) || Js.isBlank (printEntry (k, v)))
    with false.
  - apply (tagParts_printTag [(k, v)]).
    constructor; [split; assumption|constructor].
  - symmetry. apply orb_false_iff. unfold Js.truthy, Js.isBlank.
    rewrite Ht. apply String.eqb_neq in Hn. now rewrite Hn.
Qed.

Lemma numeric_findings S F T k v :
  cleanKey k -> cleanValue v -> In (Js.toLowerCase k) numericKeys ->
  exists msg,
    validateGormTags [oneEntry S F T k v]
    = pushIf (Js.truthy v && negb (Js.isDigits v))
        (mkDiagnostic S F (printEntry (k, v)) msg Error (Some k))
    /\ Js.startsWith msg "Invalid " = true.
Proof.
  intros Hk Hv Hin. rewrite validateGormTags_one.
  unfold validateStruct, oneEntry. cbn [GoStruct.fields].
  rewrite fieldsLoop_cons, processField_eq.
  rewrite (fieldParts_oneEntry F T k v Hk Hv), partsLoop_cons.
  pose proof (readEntry_printEntry k v Hk Hv) as Hr. unfold readEntry in Hr.
  injection Hr as Hpk Hpv.
  assert (Ho : forall x, orKey k x = k).
  { intros x. unfold orKey. destruct k; [now destruct Hk|reflexivity]. }
  unfold processPart. rewrite Hpk, Hpv.
  cbn [In numericKeys] in Hin.
  repeat (destruct Hin as [Hl|Hin]; [rewrite <- Hl|]); [..|destruct Hin];
    cbn -[Js.truthy Js.isDigits]; rewrite Ho;
    match goal with
    | |- context [isValidGormKey ?x] =>
        change (isValidGormKey x) with {| valid := true; recommended := true |}
    end;
    cbn [valid recommended negb app];
    (eexists; split;
     [destruct (negb (negb (negb (Js.truthy (printEntry (k, v)))
                            || (Js.trimEnd (Js.trimStart (printEntry (k, v)))
                                =? "")%string)));
        rewrite ?List.app_nil_r; reflexivity
     |reflexivity]).
Qed.

(** X13.  A field whose tag is one entry with a numeric key (size,
    precision, scale, length, priority, autoIncrementIncrement, in any
    case) gets no finding when the value is empty or made of digits only
    (0 included), and otherwise exactly one, an error on that key that
    calls the value invalid. *)
Theorem numeric_values_checked (S F T k v : string) :
  cleanKey k -> cleanValue v -> In (Js.toLowerCase k) numericKeys ->
  (v = "" \/ Js.isDigits v = true -> validateGormTags [oneEntry S F T k v] = [])
  /\ (v <> "" -> Js.isDigits v = false ->
      exists msg,
        validateGormTags [oneEntry S F T k v]
        = [mkDiagnostic S F (printEntry (k, v)) msg Error (Some k)]
        /\ Js.startsWith msg "Invalid " = true).
Proof.
  intros Hk Hv Hin.
  destruct (numeric_findings S F T k v Hk Hv Hin) as (msg & He & Hm).
  split.
  - intros [->|Hd]; rewrite He; [reflexivity|].
    rewrite Hd. now rewrite andb_false_r.
  - intros Hne Hd. exists msg. split; [|exact Hm].
    rewrite He, Hd. destruct v; [congruence|reflexivity].
Qed.

Lemma numeric_values_checked_witness :
  validateGormTags [oneEntry "User" "Name" "string" "Size" "0"] = []
  /\ exists msg,
       validateGormTags [oneEntry "User" "Name" "string" "Size" "-1"]
       = [mkDiagnostic "User" "Name" "Size:-1" msg Error (Some "Size")]
       /\ Js.startsWith msg "Invalid " = true.
Proof.
  assert (Hk : cleanKey "Size") by (repeat split; discriminate).
  split.
  - apply (proj1 (numeric_values_checked "User" "Name" "string" "Size" "0"
                    Hk ltac:(now split) ltac:(now left))).
    now right.
  - apply (proj2 (numeric_values_checked "User" "Name" "string" "Size" "-1"
                    Hk ltac:(now split) ltac:(now left)));
      [discriminate|reflexivity].
Defined.

(** ** Values that must be there *)

Lemma missing_clean v : cleanValue v -> missing v = String.eqb v "".
Proof.
  intros [Ht _]. unfold missing, Js.truthy, Js.isBlank. rewrite Ht.
  now destruct (String.eqb v "").
Qed.

Lemma required_findings S F T k v :
  cleanKey k -> cleanValue v -> In (Js.toLowerCase k) requiredKeys ->
  exists msg,
    validateGormTags [oneEntry S F T k v]
    = pushIf (String.eqb v "")
        (mkDiagnostic S F (printEntry (k, v)) msg Error (Some k))
    /\ Js.includes msg " requires " = true.
Proof.
  intros Hk Hv Hin. rewrite validateGormTags_one.
  unfold validateStruct, oneEntry. cbn [GoStruct.fields].
  rewrite fieldsLoop_cons, processField_eq.
  rewrite (fieldParts_oneEntry F T k v Hk Hv), partsLoop_cons.
  pose proof (readEntry_printEntry k v Hk Hv) as Hr. unfold readEntry in Hr.
  injection Hr as Hpk Hpv.
  assert (Ho : forall x, orKey k x = k).
  { intros x. unfold orKey. destruct k; [now destruct Hk|reflexivity]. }
  pose proof (missing_clean v Hv) as Hm.
  unfold processPart. rewrite Hpk, Hpv.
  cbn [In requiredKeys] in Hin.
  repeat (destruct Hin as [Hl|Hin]; [rewrite <- Hl|]); [..|destruct Hin];
    cbn -[Js.truthy missing lookup insert]; rewrite ?Ho, Hm;
    rewrite ?lookup_empty;
    match goal with
    | |- context [isValidGormKey ?x] =>
        change (isValidGormKey x) with {| valid := true; recommended := true |}
    end;
    cbn [valid recommended negb app];
    (eexists; split;
     [destruct (Js.truthy v);
      match goal with
      | |- (if ?c then _ else _) = _ => destruct c
      end;
      cbn [app]; rewrite ?List.app_nil_r; reflexivity
     |reflexivity]).
Qed.

(** X14.  A field whose tag is one entry with the key type, column or
    check (in any case) gets exactly one finding when the entry has no
    value, an error on that key saying what it requires, and none when it
    has one. *)
Theorem required_values_checked (S F T k v : string) :
  cleanKey k -> cleanValue v -> In (Js.toLowerCase k) requiredKeys ->
  (v <> "" -> validateGormTags [oneEntry S F T k v] = [])
  /\ (v = "" ->
      exists msg,
        validateGormTags [oneEntry S F T k v]
        = [mkDiagnostic S F k msg Error (Some k)]
        /\ Js.includes msg " requires " = true).
Proof.
  intros Hk Hv Hin.
  destruct (required_findings S F T k v Hk Hv Hin) as (msg & He & Hm).
  split.
  - intros Hne. rewrite He. apply String.eqb_neq in Hne. now rewrite Hne.
  - intros ->. exists msg. split; [|exact Hm]. exact He.
Qed.

Lemma required_values_checked_witness :
  validateGormTags [oneEntry "User" "Name" "string" "column" "user_name"] = []
  /\ exists msg,
       validateGormTags [oneEntry "User" "Name" "string" "Column" ""]
       = [mkDiagnostic "User" "Name" "Column" msg Error (Some "Column")]
       /\ Js.includes msg " requires " = true.
Proof.
  split.
  - apply (proj1 (required_values_checked "User" "Name" "string" "column"
                    "user_name" ltac:(repeat split; discriminate)
                    ltac:(now split) ltac:(right; now left))).
    discriminate.
  - apply (proj2 (required_values_checked "User" "Name" "string" "Column" ""
                    ltac:(repeat split; discriminate)
                    ltac:(now split) ltac:(right; now left))).
    reflexivity.
Defined.

(** ** Values that are one of a few words *)

Lemma arrayIncludes_In l x : arrayIncludes l x = true <-> In x l.
Proof.
  unfold arrayIncludes. rewrite List.existsb_exists. split.
  - intros (y & Hy & E). apply String.eqb_eq in E. now subst y.
  - intros H. exists x. split; [exact H|apply String.eqb_refl].
Qed.

Lemma enumerated_findings S F T k v :
  cleanKey k -> cleanValue v -> In (Js.toLowerCase k) enumeratedKeys ->
  exists msg,
    validateGormTags [oneEntry S F T k v]
    = pushIf (Js.truthy v
              && negb (arrayIncludes (allowedValues (Js.toLowerCase k))
                         (Js.toLowerCase v)))
        (mkDiagnostic S F (printEntry (k, v)) msg Error (Some k))
    /\ Js.startsWith msg "Invalid " = true.
Proof.
  intros Hk Hv Hin. rewrite validateGormTags_one.
  unfold validateStruct, oneEntry. cbn [GoStruct.fields].
  rewrite fieldsLoop_cons, processField_eq.
  rewrite (fieldParts_oneEntry F T k v Hk Hv), partsLoop_cons.
  pose proof (readEntry_printEntry k v Hk Hv) as Hr. unfold readEntry in Hr.
  injection Hr as Hpk Hpv.
  assert (Ho : forall x, orKey k x = k).
  { intros x. unfold orKey. destruct k; [now destruct Hk|reflexivity]. }
  unfold processPart. rewrite Hpk, Hpv.
  cbn [In enumeratedKeys] in Hin.
  repeat (destruct Hin as [Hl|Hin]; [rewrite <- Hl|]); [..|destruct Hin];
    cbn -[Js.truthy Js.toLowerCase arrayIncludes]; rewrite Ho;
    match goal with
    | |- context [isValidGormKey ?x] =>
        change (isValidGormKey x) with {| valid := true; recommended := true |}
    end;
    cbn [valid recommended negb app];
    (eexists; split;
     [match goal with
      | |- (if ?c then _ else _) = _ => destruct c
      end;
      rewrite ?List.app_nil_r;
      first [ reflexivity
            | unfold arrayIncludes; cbn [existsb]; rewrite orb_false_r;
              reflexivity ]
     |reflexivity]).
Qed.

(** X15.  A field whose tag is one entry with the key serializer, sort,
    autoCreateTime, autoUpdateTime, the write or read permission or the
    ignore flag (in any case) gets no finding when the value is empty or,
    lower-cased, one of the words allowed for the key, and otherwise
    exactly one: an error on that key that calls the value invalid. *)
Theorem enumerated_values_checked (S F T k v : string) :
  cleanKey k -> cleanValue v -> In (Js.toLowerCase k) enumeratedKeys ->
  (v = "" \/ In (Js.toLowerCase v) (allowedValues (Js.toLowerCase k)) ->
   validateGormTags [oneEntry S F T k v] = [])
  /\ (v <> "" ->
      ~ In (Js.toLowerCase v) (allowedValues (Js.toLowerCase k)) ->
      exists msg,
        validateGormTags [oneEntry S F T k v]
        = [mkDiagnostic S F (printEntry (k, v)) msg Error (Some k)]
        /\ Js.startsWith msg "Invalid " = true).
Proof.
  intros Hk Hv Hin.
  destruct (enumerated_findings S F T k v Hk Hv Hin) as (msg & He & Hm).
  split.
  - intros [->|Hd]; rewrite He; [reflexivity|].
    apply arrayIncludes_In in Hd. rewrite Hd. now rewrite andb_false_r.
  - intros Hne Hd. exists msg. split; [|exact Hm]. rewrite He.
    destruct (arrayIncludes (allowedValues (Js.toLowerCase k))
                (Js.toLowerCase v)) eqn:E.
    + now apply arrayIncludes_In in E.
    + destruct v; [congruence|reflexivity].
Qed.

Lemma enumerated_values_checked_witness :
  validateGormTags [oneEntry "User" "Data" "string" "serializer" "JSON"] = []
  /\ exists msg,
       validateGormTags [oneEntry "User" "Data" "string" "serializer" "xml"]
       = [mkDiagnostic "User" "Data" "serializer:xml" msg Error
            (Some "serializer")]
       /\ Js.startsWith msg "Invalid " = true.
Proof.
  assert (Hk : cleanKey "serializer") by (repeat split; discriminate).
  split.
  - apply (proj1 (enumerated_values_checked "User" "Data" "string"
                    "serializer" "JSON" Hk ltac:(now split) ltac:(now left))).
    right. now left.
  - apply (proj2 (enumerated_values_checked "User" "Data" "string"
                    "serializer" "xml" Hk ltac:(now split) ltac:(now left)));
      [discriminate|].
    cbn. intros [H|[H|[H|[]]]]; discriminate H.
Defined.

(** ** Following a match of the parser's expressions *)

Lemma leads_eps st : leads Re.Eps st st.
Proof. intros R k x H. exact H. Qed.

Lemma leads_chr p c pos r caps :
  p c = true ->
  leads (Re.Chr p) (Re.mkSt pos (String c r) caps) (Re.mkSt (S pos) r caps).
Proof. intros Hp R k x H. cbn. now rewrite Hp. Qed.

Lemma leads_seq a b st st1 st2 :
  leads a st st1 -> leads b st1 st2 -> leads (Re.Seq a b) st st2.
Proof.
  intros Ha Hb R k x H. cbn [Re.run]. apply Ha. now apply Hb.
Qed.

Lemma leads_group n a st st1 :
  leads a st st1 ->
  leads (Re.Group n a) st
    (Re.mkSt (Re.pos st1) (Re.rest st1)
       ((n, Js.take (Re.pos st1 - Re.pos st) (Re.rest st)) :: Re.caps st1)).
Proof. intros Ha R k x H. cbn [Re.run]. apply Ha. exact H. Qed.

Lemma leads_bol r caps : leads Re.Bol (Re.mkSt 0 r caps) (Re.mkSt 0 r caps).
Proof. intros R k x H. exact H. Qed.

Lemma leads_eol pos caps :
  leads Re.Eol (Re.mkSt pos "" caps) (Re.mkSt pos "" caps).
Proof. intros R k x H. exact H. Qed.

Lemma leads_lit P : forall pos r caps,
  leads (Re.lit P) (Re.mkSt pos (P +:+ r) caps)
    (Re.mkSt (pos + String.length P) r caps).
Proof.
  induction P as [|a P IH]; intros pos r caps.
  - rewrite append_nil. cbn [String.length]. rewrite Nat.add_0_r.
    apply leads_eps.
  - rewrite append_cons. cbn [Re.lit String.length].
    eapply leads_seq; [apply leads_chr, Ascii.eqb_refl|].
    rewrite Nat.add_succ_r. apply (IH (S pos)).
Qed.

Lemma run_chr {R : Type} p pos c r caps (k : Re.state -> option R) :
  Re.run (Re.Chr p) (Re.mkSt pos (String c r) caps) k
  = if p c then k (Re.mkSt (S pos) r caps) else None.
Proof. reflexivity. Qed.

Lemma run_chr_end {R : Type} p pos caps (k : Re.state -> option R) :
  Re.run (Re.Chr p) (Re.mkSt pos "" caps) k = None.
Proof. reflexivity. Qed.

Lemma starLoop_class {R : Type} p (k : Re.state -> option R) x r caps :
  stops p r = true ->
  forall X fuel pos,
  every p X = true -> (String.length X <= fuel)%nat ->
  k (Re.mkSt (pos + String.length X) r caps) = Some x ->
  Re.starLoop (Re.run (Re.Chr p)) k fuel (Re.mkSt pos (X +:+ r) caps) = Some x.
Proof.
  intros Hr X. induction X as [|c X IH]; intros fuel pos HX Hf Hk.
  - rewrite append_nil. cbn [String.length] in Hk. rewrite Nat.add_0_r in Hk.
    destruct fuel as [|fuel]; [exact Hk|]. cbn [Re.starLoop].
    destruct r as [|c r]; [now rewrite run_chr_end|]. cbn in Hr.
    apply negb_true_iff in Hr. now rewrite run_chr, Hr.
  - cbn [every] in HX. apply andb_true_iff in HX as [Hc HX].
    cbn [String.length] in Hf, Hk.
    destruct fuel as [|fuel]; [lia|]. rewrite append_cons.
    cbn [Re.starLoop]. rewrite run_chr, Hc. cbn [Re.pos].
    replace (pos <? S pos)%nat with true by (symmetry; apply Nat.ltb_lt; lia).
    rewrite (IH fuel (S pos) HX); [reflexivity|lia|].
    now rewrite Nat.add_succ_r in Hk.
Qed.

(** The greedy star of a class takes all the code units of the class there
    are. *)
Lemma leads_star_class p X pos r caps :
  every p X = true -> stops p r = true ->
  leads (Re.Star (Re.Chr p)) (Re.mkSt pos (X +:+ r) caps)
    (Re.mkSt (pos + String.length X) r caps).
Proof.
  intros HX Hr R k x H. cbn [Re.run Re.rest].
  apply starLoop_class; try assumption.
  rewrite length_append. lia.
Qed.

Lemma leads_star_none p pos r caps :
  stops p r = true ->
  leads (Re.Star (Re.Chr p)) (Re.mkSt pos r caps) (Re.mkSt pos r caps).
Proof.
  intros Hr. pose proof (leads_star_class p "" pos r caps eq_refl Hr) as H.
  rewrite append_nil in H. cbn [String.length] in H.
  now rewrite Nat.add_0_r in H.
Qed.

Lemma leads_plus_class p X pos r caps :
  X <> "" -> every p X = true -> stops p r = true ->
  leads (Re.plus (Re.Chr p)) (Re.mkSt pos (X +:+ r) caps)
    (Re.mkSt (pos + String.length X) r caps).
Proof.
  destruct X as [|c X]; [congruence|]. intros _ HX Hr.
  cbn [every] in HX. apply andb_true_iff in HX as [Hc HX].
  rewrite append_cons. cbn [String.length]. rewrite Nat.add_succ_r.
  eapply leads_seq; [now apply leads_chr|].
  now apply (leads_star_class p X (S pos)).
Qed.

Lemma leads_star_stop a st : fails a st -> leads (Re.Star a) st st.
Proof.
  intros Ha R k x H. cbn [Re.run Re.starLoop]. now rewrite Ha.
Qed.

Lemma search_here r p s m :
  Re.matchAt r p s = Some m -> Re.search r p s = Some m.
Proof. intros H. destruct s; cbn [Re.search]; now rewrite H. Qed.

Lemma matchAt_leads r p s st :
  leads r (Re.mkSt p s []) st -> Re.matchAt r p s = Some st.
Proof. intros H. unfold Re.matchAt. now apply H. Qed.

(** ** Reading the tag literal *)

Lemma startsWith_app_eq p q : forall s,
  Js.startsWith s (p +:+ q)
  = Js.startsWith s p && Js.startsWith (Js.drop (String.length p) s) q.
Proof.
  induction p as [|a p IH]; intros s; [reflexivity|].
  rewrite append_cons. destruct s as [|b s]; [reflexivity|].
  cbn [Js.startsWith String.length Js.drop]. now rewrite IH, andb_assoc.
Qed.

(** A literal at the head of an expression: the input starts with it, or
    there is no match. *)
Lemma run_lit {R : Type} P b : forall pos s caps (k : Re.state -> option R),
  Re.run (Re.Seq (Re.lit P) b) (Re.mkSt pos s caps) k
  = if Js.startsWith s P
    then Re.run b (Re.mkSt (pos + String.length P)
                     (Js.drop (String.length P) s) caps) k
    else None.
Proof.
  induction P as [|a P IH]; intros pos s caps k.
  - cbn [Re.lit Re.run Js.startsWith String.length Js.drop].
    now rewrite Nat.add_0_r.
  - destruct s as [|c s]; [reflexivity|].
    cbn [Re.lit Js.startsWith String.length Js.drop].
    change (Re.run (Re.Seq (Re.Seq (Re.Chr (Ascii.eqb a)) (Re.lit P)) b)
              (Re.mkSt pos (String c s) caps) k)
      with (if Ascii.eqb a c
            then Re.run (Re.Seq (Re.lit P) b) (Re.mkSt (S pos) s caps) k
            else None).
    rewrite IH, Nat.add_succ_r. now destruct (Ascii.eqb a c).
Qed.

(** The search goes on to where [indexOf] finds the literal an expression
    must start with. *)
Lemma search_indexOf r P :
  (forall p s, Js.startsWith s P = false -> Re.matchAt r p s = None) ->
  forall s from p n,
  0 <= from -> Js.indexOfFrom from s P = from + Z.of_nat n ->
  Re.search r p s = Re.search r (p + n) (Js.drop n s).
Proof.
  intros Hr s. induction s as [|c s IH]; intros from p n Hf H.
  - cbn in H. destruct (Js.startsWith "" P); [|lia].
    replace n with 0%nat by lia. now rewrite Nat.add_0_r.
  - cbn [Js.indexOfFrom] in H.
    destruct (Js.startsWith (String c s) P) eqn:E.
    + replace n with 0%nat by lia. now rewrite Nat.add_0_r.
    + destruct (indexOfFrom_hit s P (from + 1)) as [Hle _]; [lia|].
      destruct n as [|n]; [lia|].
      cbn [Re.search Js.drop]. rewrite (Hr p _ E), Nat.add_succ_r.
      apply (IH (from + 1) (S p) n); lia.
Qed.

Lemma every_notIn c X : occurs c X = false -> every (notIn [c]) X = true.
Proof.
  induction X as [|a X IH]; [reflexivity|]. cbn [occurs every]. intros H.
  apply orb_false_iff in H as [Ha HX]. rewrite (IH HX), andb_true_r.
  unfold notIn. cbn. now rewrite Ha.
Qed.

(** The first of the patterns of [parseGormTag], where the input has the
    literal, a segment without double quote and a double quote. *)
Lemma gormPattern_leads p X post :
  occurs doubleQuote X = false ->
  Re.matchAt (nth 0 gormPatterns Re.Eps) p
    (gormQuoted +:+ X +:+ String doubleQuote post)
  = Some (Re.mkSt (S (p + 6 + String.length X)) post [(1%nat, X)]).
Proof.
  intros HX. apply matchAt_leads. cbn [nth gormPatterns Re.seq].
  eapply leads_seq; [apply (leads_lit "gorm:")|].
  eapply leads_seq; [apply leads_chr, Ascii.eqb_refl|].
  eapply leads_seq.
  - apply leads_group, leads_star_class; [now apply every_notIn|reflexivity].
  - cbn [Re.pos Re.rest Re.caps].
    replace (S (p + String.length "gorm:") + String.length X
             - S (p + String.length "gorm:"))%nat
      with (String.length X) by lia.
    rewrite take_app.
    replace (S (p + String.length "gorm:") + String.length X)%nat
      with (p + 6 + String.length X)%nat by (cbn; lia).
    apply leads_chr, Ascii.eqb_refl.
Qed.

Lemma gormPattern_needs_literal p s :
  Js.startsWith s gormQuoted = false ->
  Re.matchAt (nth 0 gormPatterns Re.Eps) p s = None.
Proof.
  intros H. unfold Re.matchAt. cbn [nth gormPatterns Re.seq].
  rewrite run_lit. unfold gormQuoted in H.
  rewrite startsWith_app_eq in H.
  destruct (Js.startsWith s "gorm:"); [|reflexivity]. cbn [andb] in H.
  destruct (Js.drop (String.length "gorm:") s) as [|c r]; [reflexivity|].
  cbn [Re.run Re.rest]. cbn in H. rewrite andb_true_r in H. now rewrite H.
Qed.

Lemma startsWith_split p : forall s,
  Js.startsWith s p = true -> s = p +:+ Js.drop (String.length p) s.
Proof.
  induction p as [|a p IH]; intros s H; [reflexivity|].
  destruct s as [|b s]; [discriminate|]. cbn [Js.startsWith] in H.
  apply andb_true_iff in H as [Hab H]. apply Ascii.eqb_eq in Hab. subst b.
  rewrite append_cons. cbn [String.length Js.drop]. f_equal. now apply IH.
Qed.

(** A string with a code unit that is not white space somewhere is neither
    empty nor blank. *)
Lemma not_missing_at n c p s :
  Js.isSpace c = false -> Js.startsWith (Js.drop n s) (String c p) = true ->
  negb (Js.truthy s) || Js.isBlank s = false.
Proof.
  intros Hc H. apply (includes_not_missing s c Hc).
  unfold Js.includes, Js.indexOf. apply negb_true_iff, Z.eqb_neq.
  apply (indexOfFrom_occurs (String c "") n); [lia|].
  change (String c p) with (String c "" +:+ p) in H.
  now apply startsWith_app in H as [H _].
Qed.

(** X16.  Where the tag literal of a field has [gorm:] followed by a double
    quote, the GORM tag read from it is the segment from there to the next
    double quote; the first such place counts. *)
Theorem parseGormTag_double_quoted (tags : string) (n : nat) (X post : string) :
  Js.indexOf tags gormQuoted = Z.of_nat n ->
  Js.drop (n + 6) tags = X +:+ String doubleQuote post ->
  occurs doubleQuote X = false ->
  parseGormTag tags = X.
Proof.
  intros Hn Hd HX.
  destruct (indexOfFrom_hit tags gormQuoted 0) as [_ Hs];
    [unfold Js.indexOf in Hn; lia|].
  fold (Js.indexOf tags gormQuoted) in Hs.
  rewrite Hn, Z.sub_0_r, Nat2Z.id in Hs.
  assert (Ht : Js.drop n tags = gormQuoted +:+ X +:+ String doubleQuote post).
  { rewrite (startsWith_split _ _ Hs) at 1. f_equal.
    rewrite drop_drop. exact Hd. }
  unfold parseGormTag.
  rewrite (not_missing_at n "g" _ tags eq_refl Hs).
  change gormPatterns with (nth 0 gormPatterns Re.Eps :: tl gormPatterns).
  cbn [firstMatch].
  rewrite (search_indexOf _ gormQuoted gormPattern_needs_literal tags 0 0 n);
    [|lia|exact Hn].
  rewrite Ht, (search_here _ _ _ _ (gormPattern_leads _ X post HX)).
  reflexivity.
Qed.

Lemma parseGormTag_double_quoted_witness :
  parseGormTag
    ("json:" +:+ String doubleQuote ("name" +:+ String doubleQuote
       (" gorm:" +:+ String doubleQuote ("column:name;size:64"
          +:+ String doubleQuote " validate:x"))))
  = "column:name;size:64".
Proof.
  apply (parseGormTag_double_quoted _ 12 "column:name;size:64" " validate:x");
    reflexivity.
Defined.

(** ** Reading a field line *)

Lemma space_not_type c : Js.isSpace c = true -> isTypeChar c = false.
Proof.
  destruct c as [[] [] [] [] [] [] [] []]; vm_compute;
    first [reflexivity | discriminate].
Qed.

Lemma space_not_word c : Js.isSpace c = true -> Js.isWord c = false.
Proof.
  intros H. apply space_not_type in H. unfold isTypeChar in H.
  now apply orb_false_iff in H as [H _].
Qed.

Lemma word_not_space c : Js.isWord c = true -> Js.isSpace c = false.
Proof.
  intros H. destruct (Js.isSpace c) eqn:E; [|reflexivity].
  apply space_not_word in E. congruence.
Qed.

Lemma type_not_space c : isTypeChar c = true -> Js.isSpace c = false.
Proof.
  intros H. destruct (Js.isSpace c) eqn:E; [|reflexivity].
  apply space_not_type in E. congruence.
Qed.

(** After a run of one class, another class stops. *)
Lemma stops_after (p q : ascii -> bool) X r :
  (forall c, q c = true -> p c = false) ->
  every q X = true -> (X = "" -> stops p r = true) ->
  stops p (X +:+ r) = true.
Proof.
  intros Hpq HX Hr. destruct X as [|c X]; [now apply Hr|].
  rewrite append_cons. cbn [every] in HX.
  apply andb_true_iff in HX as [Hc _]. cbn. now rewrite (Hpq c Hc).
Qed.

Lemma leads_captured n a X pos r caps :
  leads a (Re.mkSt pos (X +:+ r) caps) (Re.mkSt (pos + String.length X) r caps) ->
  leads (Re.Group n a) (Re.mkSt pos (X +:+ r) caps)
    (Re.mkSt (pos + String.length X) r ((n, X) :: caps)).
Proof.
  intros H. pose proof (leads_group n _ _ _ H) as Hg. revert Hg.
  cbn [Re.pos Re.rest Re.caps].
  replace (pos + String.length X - pos)%nat with (String.length X) by lia.
  rewrite take_app. intros Hg. apply Hg.
Qed.

(** The expression for a field with tags on a line that has a name, white
    space, a type, maybe white space, and the tags between backticks. *)
Lemma fieldWithTags_leads F sp1 T sp2 tags trail :
  F <> "" -> every Js.isWord F = true ->
  sp1 <> "" -> every Js.isSpace sp1 = true ->
  T <> "" -> every isTypeChar T = true ->
  every Js.isSpace sp2 = true ->
  occurs backtick tags = false ->
  exists p,
    Re.matchAt fieldWithTagsRegex 0
      (F +:+ sp1 +:+ T +:+ sp2 +:+ String backtick (tags +:+ String backtick trail))
    = Some (Re.mkSt p trail [(3%nat, tags); (2%nat, T); (1%nat, F)]).
Proof.
  intros HF HFw Hs1 Hs1s HT HTt Hs2 Htags.
  eexists. apply matchAt_leads. unfold fieldWithTagsRegex. cbn [Re.seq].
  eapply leads_seq; [apply leads_bol|].
  eapply leads_seq.
  { apply leads_star_none.
    apply (stops_after _ Js.isWord); [apply word_not_space|exact HFw|].
    congruence. }
  eapply leads_seq.
  { apply leads_captured, leads_plus_class; [exact HF|exact HFw|].
    apply (stops_after _ Js.isSpace); [apply space_not_word|exact Hs1s|].
    congruence. }
  eapply leads_seq.
  { apply leads_plus_class; [exact Hs1|exact Hs1s|].
    apply (stops_after _ isTypeChar); [apply type_not_space|exact HTt|].
    congruence. }
  eapply leads_seq.
  { apply leads_captured, leads_plus_class; [exact HT|exact HTt|].
    apply (stops_after _ Js.isSpace); [apply space_not_type|exact Hs2|].
    reflexivity. }
  eapply leads_seq.
  { apply leads_star_class; [exact Hs2|reflexivity]. }
  eapply leads_seq; [apply leads_chr, Ascii.eqb_refl|].
  eapply leads_seq.
  { apply leads_captured, leads_star_class;
      [now apply every_notIn|reflexivity]. }
  apply leads_chr, Ascii.eqb_refl.
Qed.

(** What [parseFieldLine] gives once the expression for a field with tags
    has matched the trimmed line. *)
Lemma parseFieldLine_matched line c L m :
  Js.trim line = String c L -> Js.isWord c = true ->
  Re.search fieldWithTagsRegex 0 (String c L) = Some m ->
  Re.group 1 (Re.caps m) <> "" -> Re.group 2 (Re.caps m) <> "" ->
  parseFieldLine line
  = [GormTag.mk (Re.group 1 (Re.caps m)) (Re.group 2 (Re.caps m))
       (parseGormTag (Re.group 3 (Re.caps m)))].
Proof.
  intros Hl Hc Hm H1 H2. unfold parseFieldLine. rewrite Hl, Hm.
  assert (Hslash : Ascii.eqb "/" c = false).
  { apply Ascii.eqb_neq. intros <-. discriminate Hc. }
  cbn [Js.truthy String.eqb negb orb Js.startsWith]. rewrite Hslash.
  cbn [andb]. unfold Js.truthy.
  apply String.eqb_neq in H1, H2. now rewrite H1, H2.
Qed.

(** X17.  A line of a struct body that reads, white space at its ends
    apart, as a name, white space, a type, maybe white space, and a tag
    literal between backticks gives one field: this name, this type, and
    the GORM tag read from the literal.  What follows the closing backtick
    is not looked at. *)
Theorem parseFieldLine_with_tags
  (line F sp1 T sp2 tags trail : string) :
  Js.trim line
  = F +:+ sp1 +:+ T +:+ sp2 +:+ String backtick (tags +:+ String backtick trail) ->
  F <> "" -> every Js.isWord F = true ->
  sp1 <> "" -> every Js.isSpace sp1 = true ->
  T <> "" -> every isTypeChar T = true ->
  every Js.isSpace sp2 = true ->
  occurs backtick tags = false ->
  parseFieldLine line = [GormTag.mk F T (parseGormTag tags)].
Proof.
  intros Hl HF HFw Hs1 Hs1s HT HTt Hs2 Htags.
  destruct (fieldWithTags_leads F sp1 T sp2 tags trail) as [p Hm];
    try assumption.
  apply search_here in Hm.
  destruct F as [|c F]; [congruence|]. rewrite append_cons in Hl, Hm.
  cbn [every] in HFw. apply andb_true_iff in HFw as [Hc _].
  now rewrite (parseFieldLine_matched line c _ _ Hl Hc Hm).
Qed.

Lemma parseFieldLine_with_tags_witness :
  parseFieldLine
    ("  Name   *string `json:" +:+ String doubleQuote ("n" +:+ String doubleQuote
       (" gorm:" +:+ String doubleQuote ("size:64" +:+ String doubleQuote
          "` // the name"))))
  = [GormTag.mk "Name" "*string" "size:64"].
Proof.
  apply (parseFieldLine_with_tags _ "Name" "   " "*string" " "
           ("json:" +:+ String doubleQuote ("n" +:+ String doubleQuote
              (" gorm:" +:+ String doubleQuote ("size:64"
                 +:+ String doubleQuote ""))))
           " // the name");
    first [reflexivity | discriminate].
Defined.

(** ** Lines that give no field, or a field without tags *)

(** What is left after a match is a suffix of what was there. *)
Lemma run_suffix (r : Re.t) : forall (R : Type) st (k : Re.state -> option R) x,
  Re.run r st k = Some x ->
  exists st', k st' = Some x /\ exists n, Re.rest st' = Js.drop n (Re.rest st).
Proof.
  induction r as [|p|a IHa b IHb|a IHa|n a IHa| |]; intros R st k x H;
    cbn [Re.run] in H.
  - exists st. split; [exact H|now exists 0%nat].
  - destruct (Re.rest st) as [|c s'] eqn:E; [discriminate|].
    destruct (p c); [|discriminate].
    eexists. split; [exact H|]. now exists 1%nat.
  - apply IHa in H as (st1 & H1 & n1 & E1).
    apply IHb in H1 as (st2 & H2 & n2 & E2).
    exists st2. split; [exact H2|]. exists (n1 + n2)%nat.
    now rewrite E2, E1, drop_drop.
  - remember (S (String.length (Re.rest st))) as fuel eqn:Ef. clear Ef.
    revert st H. induction fuel as [|fuel IHf]; intros st H;
      cbn [Re.starLoop] in H.
    + exists st. split; [exact H|now exists 0%nat].
    + match type of H with
      | match ?m with _ => _ end = _ => destruct m as [y|] eqn:E
      end.
      * injection H as ->. apply IHa in E as (st1 & H1 & n1 & E1).
        destruct (Re.pos st <? Re.pos st1)%nat; [|discriminate].
        apply IHf in H1 as (st2 & H2 & n2 & E2).
        exists st2. split; [exact H2|]. exists (n1 + n2)%nat.
        now rewrite E2, E1, drop_drop.
      * exists st. split; [exact H|now exists 0%nat].
  - apply IHa in H as (st1 & H1 & n1 & E1).
    eexists. split; [exact H1|]. now exists n1.
  - destruct (Re.pos st =? 0)%nat; [|discriminate].
    exists st. split; [exact H|now exists 0%nat].
  - destruct (Re.rest st) eqn:E; [|discriminate].
    exists st. split; [exact H|]. exists 0%nat. now rewrite E.
Qed.

Lemma every_drop p n : forall s, every p s = true -> every p (Js.drop n s) = true.
Proof.
  induction n as [|n IH]; intros s H; [exact H|].
  destruct s as [|c s]; [reflexivity|]. cbn [every] in H.
  apply andb_true_iff in H as [_ H]. now apply IH.
Qed.

Lemma needs_seq q a r : needs q r -> needs q (Re.Seq a r).
Proof.
  intros Hr R st k Hl.
  destruct (Re.run (Re.Seq a r) st k) as [x|] eqn:E; [|reflexivity].
  cbn [Re.run] in E. apply run_suffix in E as (st1 & E1 & n & En).
  rewrite Hr in E1; [discriminate|]. rewrite En. now apply every_drop.
Qed.

Lemma needs_chr q p : (forall c, p c = true -> q c = true) -> needs q (Re.Chr p).
Proof.
  intros Hpq R st k Hl. cbn [Re.run].
  destruct (Re.rest st) as [|c s]; [reflexivity|].
  destruct (p c) eqn:E; [|reflexivity]. apply Hpq in E.
  cbn in Hl. now rewrite E in Hl.
Qed.

Lemma needs_first q a r : needs q a -> needs q (Re.Seq a r).
Proof. intros Ha R st k Hl. cbn [Re.run]. now apply Ha. Qed.

Lemma search_needs q r : needs q r ->
  forall s p, lacks q s = true -> Re.search r p s = None.
Proof.
  intros Hr s. induction s as [|c s IH]; intros p Hl; cbn [Re.search];
    unfold Re.matchAt; rewrite Hr by exact Hl; [reflexivity|].
  apply IH. cbn in Hl. now apply andb_true_iff in Hl as [_ Hl].
Qed.

Lemma fieldWithTags_needs_backtick : needs (Ascii.eqb backtick) fieldWithTagsRegex.
Proof.
  unfold fieldWithTagsRegex. cbn [Re.seq].
  do 6 apply needs_seq. apply needs_first, needs_chr. auto.
Qed.

Lemma fieldWithTags_needs_space : needs Js.isSpace fieldWithTagsRegex.
Proof.
  unfold fieldWithTagsRegex. cbn [Re.seq].
  do 3 apply needs_seq. do 2 apply needs_first. apply needs_chr. auto.
Qed.

Lemma fieldWithoutTags_needs_space : needs Js.isSpace fieldWithoutTagsRegex.
Proof.
  unfold fieldWithoutTagsRegex. cbn [Re.seq].
  do 3 apply needs_seq. do 2 apply needs_first. apply needs_chr. auto.
Qed.

Lemma lacks_app q a b : lacks q (a +:+ b) = lacks q a && lacks q b.
Proof.
  unfold lacks. induction a as [|c a IH]; [reflexivity|].
  rewrite append_cons. cbn [every]. now rewrite IH, andb_assoc.
Qed.

Lemma lacks_class (p q : ascii -> bool) X :
  (forall c, p c = true -> q c = false) -> every p X = true -> lacks q X = true.
Proof.
  intros Hpq. unfold lacks. induction X as [|c X IH]; [reflexivity|].
  cbn [every]. intros H. apply andb_true_iff in H as [Hc HX].
  now rewrite (Hpq c Hc), IH.
Qed.

Lemma type_not_backtick c : isTypeChar c = true -> Ascii.eqb backtick c = false.
Proof.
  intros H. apply Ascii.eqb_neq. intros <-. discriminate H.
Qed.

Lemma space_not_backtick c : Js.isSpace c = true -> Ascii.eqb backtick c = false.
Proof.
  intros H. apply Ascii.eqb_neq. intros <-. discriminate H.
Qed.

Lemma word_is_type c : Js.isWord c = true -> isTypeChar c = true.
Proof. unfold isTypeChar. now intros ->. Qed.

Lemma fieldWithoutTags_leads F sp1 T :
  F <> "" -> every Js.isWord F = true ->
  sp1 <> "" -> every Js.isSpace sp1 = true ->
  T <> "" -> every isTypeChar T = true ->
  exists p,
    Re.matchAt fieldWithoutTagsRegex 0 (F +:+ sp1 +:+ T)
    = Some (Re.mkSt p "" [(2%nat, T); (1%nat, F)]).
Proof.
  intros HF HFw Hs1 Hs1s HT HTt.
  replace (F +:+ sp1 +:+ T) with (F +:+ sp1 +:+ T +:+ "")
    by now rewrite append_nil_r.
  eexists. apply matchAt_leads. unfold fieldWithoutTagsRegex. cbn [Re.seq].
  eapply leads_seq; [apply leads_bol|].
  eapply leads_seq.
  { apply leads_star_none.
    apply (stops_after _ Js.isWord); [apply word_not_space|exact HFw|].
    congruence. }
  eapply leads_seq.
  { apply leads_captured, leads_plus_class; [exact HF|exact HFw|].
    apply (stops_after _ Js.isSpace); [apply space_not_word|exact Hs1s|].
    congruence. }
  eapply leads_seq.
  { apply leads_plus_class; [exact Hs1|exact Hs1s|].
    apply (stops_after _ isTypeChar); [apply type_not_space|exact HTt|].
    congruence. }
  eapply leads_seq.
  { apply leads_captured, leads_plus_class; [exact HT|exact HTt|reflexivity]. }
  eapply leads_seq; [now apply leads_star_none|]. apply leads_eol.
Qed.

Lemma lacks_backtick_bare F sp1 T :
  every Js.isWord F = true -> every Js.isSpace sp1 = true ->
  every isTypeChar T = true ->
  lacks (Ascii.eqb backtick) (F +:+ sp1 +:+ T) = true.
Proof.
  intros HFw Hs1s HTt. rewrite !lacks_app.
  rewrite (lacks_class Js.isWord _ F), (lacks_class Js.isSpace _ sp1),
    (lacks_class isTypeChar _ T); try assumption; try reflexivity.
  - apply type_not_backtick.
  - apply space_not_backtick.
  - intros c Hc. now apply type_not_backtick, word_is_type.
Qed.

(** What [parseFieldLine] gives once the expression for a field with tags
    has failed and the one for a field without tags has matched. *)
Lemma parseFieldLine_matched_bare line c L m :
  Js.trim line = String c L -> Js.isWord c = true ->
  Re.search fieldWithTagsRegex 0 (String c L) = None ->
  Re.search fieldWithoutTagsRegex 0 (String c L) = Some m ->
  Re.group 1 (Re.caps m) <> "" -> Re.group 2 (Re.caps m) <> "" ->
  parseFieldLine line
  = [GormTag.mk (Re.group 1 (Re.caps m)) (Re.group 2 (Re.caps m)) ""].
Proof.
  intros Hl Hc Hn Hm H1 H2. unfold parseFieldLine. rewrite Hl, Hn, Hm.
  assert (Hslash : Ascii.eqb "/" c = false).
  { apply Ascii.eqb_neq. intros <-. discriminate Hc. }
  cbn [Js.truthy String.eqb negb orb Js.startsWith]. rewrite Hslash.
  cbn [andb]. unfold Js.truthy.
  apply String.eqb_neq in H1, H2. now rewrite H1, H2.
Qed.

(** X18.  A line that reads, white space at its ends apart, as a name,
    white space and a type, with nothing after, gives one field with this
    name and type and an empty GORM tag. *)
Theorem parseFieldLine_without_tags (line F sp1 T : string) :
  Js.trim line = F +:+ sp1 +:+ T ->
  F <> "" -> every Js.isWord F = true ->
  sp1 <> "" -> every Js.isSpace sp1 = true ->
  T <> "" -> every isTypeChar T = true ->
  parseFieldLine line = [GormTag.mk F T ""].
Proof.
  intros Hl HF HFw Hs1 Hs1s HT HTt.
  destruct (fieldWithoutTags_leads F sp1 T) as [p Hm]; try assumption.
  apply search_here in Hm.
  pose proof (search_needs _ _ fieldWithTags_needs_backtick _ 0
                (lacks_backtick_bare F sp1 T HFw Hs1s HTt)) as Hn.
  destruct F as [|c F]; [congruence|]. rewrite append_cons in Hl, Hm, Hn.
  cbn [every] in HFw. apply andb_true_iff in HFw as [Hc _].
  now rewrite (parseFieldLine_matched_bare line c _ _ Hl Hc Hn Hm).
Qed.

Lemma parseFieldLine_without_tags_witness :
  parseFieldLine "    Items  []*pkg.Item  " = [GormTag.mk "Items" "[]*pkg.Item" ""].
Proof.
  apply (parseFieldLine_without_tags _ "Items" "  " "[]*pkg.Item");
    first [reflexivity | discriminate].
Defined.

(** X19.  A line without white space inside (an embedded struct such as
    gorm.Model, a closing brace) gives no field: the validator never sees
    an embedded field. *)
Theorem parseFieldLine_single_token (line : string) :
  lacks Js.isSpace (Js.trim line) = true -> parseFieldLine line = [].
Proof.
  intros H. unfold parseFieldLine.
  destruct (negb (Js.truthy (Js.trim line))
            || Js.startsWith (Js.trim line) "//"); [reflexivity|].
  now rewrite (search_needs _ _ fieldWithTags_needs_space _ 0 H),
    (search_needs _ _ fieldWithoutTags_needs_space _ 0 H).
Qed.

Lemma parseFieldLine_single_token_witness :
  parseFieldLine "    gorm.Model" = [].
Proof. apply parseFieldLine_single_token. reflexivity. Defined.

(** ** A tag without quotes *)

Lemma quotedPattern_needs_quote :
  needs (Ascii.eqb doubleQuote) (nth 0 gormPatterns Re.Eps).
Proof.
  cbn [nth gormPatterns Re.seq]. apply needs_seq, needs_first, needs_chr. auto.
Qed.

Lemma singleQuotedPattern_needs_quote :
  needs (Ascii.eqb singleQuote) (nth 1 gormPatterns Re.Eps).
Proof.
  cbn [nth gormPatterns Re.seq]. apply needs_seq, needs_first, needs_chr. auto.
Qed.

Lemma barePattern_needs_literal p s :
  Js.startsWith s "gorm:" = false ->
  Re.matchAt (nth 2 gormPatterns Re.Eps) p s = None.
Proof.
  intros H. unfold Re.matchAt. cbn [nth gormPatterns].
  now rewrite run_lit, H.
Qed.

Lemma barePattern_leads p X post :
  X <> "" -> every bareChar X = true -> stops bareChar post = true ->
  exists p',
    Re.matchAt (nth 2 gormPatterns Re.Eps) p ("gorm:" +:+ X +:+ post)
    = Some (Re.mkSt p' post [(1%nat, X)]).
Proof.
  intros HX HXc Hp. eexists. apply matchAt_leads. cbn [nth gormPatterns].
  eapply leads_seq; [apply (leads_lit "gorm:")|].
  apply leads_captured. now apply (leads_plus_class bareChar).
Qed.

(** X20.  A tag literal without any quote in which [gorm:] is followed by
    something else than white space, a semicolon or a backtick gives as
    GORM tag what follows the first [gorm:] up to the next white space,
    semicolon or backtick: of several entries separated by semicolons only
    the first is read. *)
Theorem parseGormTag_without_quotes (tags : string) (n : nat) (X post : string) :
  lacks (Ascii.eqb doubleQuote) tags = true ->
  lacks (Ascii.eqb singleQuote) tags = true ->
  Js.indexOf tags "gorm:" = Z.of_nat n ->
  Js.drop (n + 5) tags = X +:+ post ->
  X <> "" -> every bareChar X = true -> stops bareChar post = true ->
  parseGormTag tags = X.
Proof.
  intros Hd Hs Hn Hx HX HXc Hp.
  destruct (indexOfFrom_hit tags "gorm:" 0) as [_ Hst];
    [unfold Js.indexOf in Hn; lia|].
  fold (Js.indexOf tags "gorm:") in Hst.
  rewrite Hn, Z.sub_0_r, Nat2Z.id in Hst.
  assert (Ht : Js.drop n tags = "gorm:" +:+ X +:+ post).
  { rewrite (startsWith_split _ _ Hst) at 1. f_equal.
    rewrite drop_drop. exact Hx. }
  destruct (barePattern_leads (0 + n) X post HX HXc Hp) as [p' Hm].
  unfold parseGormTag.
  rewrite (not_missing_at n "g" _ tags eq_refl Hst).
  change gormPatterns
    with [nth 0 gormPatterns Re.Eps; nth 1 gormPatterns Re.Eps;
          nth 2 gormPatterns Re.Eps].
  cbn [firstMatch].
  rewrite (search_needs _ _ quotedPattern_needs_quote tags 0 Hd),
    (search_needs _ _ singleQuotedPattern_needs_quote tags 0 Hs).
  rewrite (search_indexOf _ "gorm:" barePattern_needs_literal tags 0 0 n);
    [|lia|exact Hn].
  now rewrite Ht, (search_here _ _ _ _ Hm).
Qed.

Lemma parseGormTag_without_quotes_witness :
  parseGormTag "json:name gorm:column:name;size:10" = "column:name".
Proof.
  apply (parseGormTag_without_quotes _ 10 "column:name" ";size:10");
    first [reflexivity | discriminate].
Defined.

(** ** Structs written out are read back *)

Ltac by_code_unit :=
  let c := fresh "c" in
  intros c; destruct c as [[] [] [] [] [] [] [] []]; vm_compute;
  intros; first [reflexivity | discriminate].

Lemma word_bodyChar : forall c, Js.isWord c = true -> bodyChar c = true.
Proof. by_code_unit. Qed.

Lemma type_bodyChar : forall c, isTypeChar c = true -> bodyChar c = true.
Proof. by_code_unit. Qed.

Lemma tag_bodyChar : forall c, tagChar c = true -> bodyChar c = true.
Proof. by_code_unit. Qed.

Lemma tag_not_quote : forall c, tagChar c = true -> notIn [doubleQuote] c = true.
Proof. by_code_unit. Qed.

Lemma tag_not_backtick : forall c, tagChar c = true -> notIn [backtick] c = true.
Proof. by_code_unit. Qed.

Lemma body_not_newline : forall c, bodyChar c = true -> notIn [newline] c = true.
Proof. by_code_unit. Qed.

Lemma body_not_brace :
  forall c, bodyChar c = true -> notIn ["{"; "}"]%char c = true.
Proof. by_code_unit. Qed.

Lemma every_app p a b : every p (a +:+ b) = every p a && every p b.
Proof.
  induction a as [|c a IH]; [reflexivity|].
  rewrite append_cons. cbn [every]. now rewrite IH, andb_assoc.
Qed.

Lemma every_impl (p q : ascii -> bool) X :
  (forall c, p c = true -> q c = true) -> every p X = true -> every q X = true.
Proof.
  intros Hpq. induction X as [|c X IH]; [reflexivity|]. cbn [every].
  intros H. apply andb_true_iff in H as [Hc HX]. now rewrite (Hpq c Hc), IH.
Qed.

Lemma occurs_every c X : every (notIn [c]) X = true -> occurs c X = false.
Proof.
  induction X as [|a X IH]; [reflexivity|]. cbn [occurs every]. intros H.
  apply andb_true_iff in H as [Ha HX]. rewrite (IH HX), orb_false_r.
  unfold notIn in Ha. cbn in Ha. rewrite orb_false_r in Ha.
  now apply negb_true_iff in Ha.
Qed.

(** *** White space around a written line *)

Lemma kept_app x v : kept v -> kept (x +:+ v).
Proof.
  intros [Hv Ht]. split; [|now apply trimEnd_app].
  destruct x; [now rewrite append_nil|discriminate].
Qed.

Lemma kept_cons c v : kept v -> kept (String c v).
Proof. apply (kept_app (String c "")). Qed.

Lemma kept_last c : Js.isSpace c = false -> kept (String c "").
Proof. intros H. split; [discriminate|]. cbn. now rewrite H. Qed.

Lemma kept_class (p : ascii -> bool) X :
  (forall c, p c = true -> Js.isSpace c = false) ->
  X <> "" -> every p X = true -> kept X.
Proof.
  intros Hp. induction X as [|c X IH]; [congruence|]. intros _ H.
  cbn [every] in H. apply andb_true_iff in H as [Hc HX].
  destruct X as [|d X]; [now apply kept_last, Hp|].
  apply kept_cons, IH; [discriminate|exact HX].
Qed.

Lemma kept_printField f : goodField f -> kept (printField f).
Proof.
  intros (_ & _ & HT & HTt & _). unfold printField.
  destruct (String.eqb (GormTag.gormTag f) "").
  - apply kept_app, kept_cons, (kept_class isTypeChar);
      [apply type_not_space|exact HT|exact HTt].
  - apply kept_app, kept_cons, kept_app, kept_cons, kept_cons.
    do 2 apply kept_app. apply kept_cons, kept_last. reflexivity.
Qed.

Lemma trim_printField f :
  goodField f -> Js.trim (String tab (printField f)) = printField f.
Proof.
  intros Hf. destruct (kept_printField f Hf) as [_ Hk].
  destruct Hf as (HF & HFw & _).
  unfold Js.trim. change (Js.trimStart (String tab (printField f)))
    with (Js.trimStart (printField f)).
  replace (Js.trimStart (printField f)) with (printField f); [exact Hk|].
  unfold printField.
  destruct (GormTag.name f) as [|c F]; [congruence|].
  cbn [every] in HFw. apply andb_true_iff in HFw as [Hc _].
  apply word_not_space in Hc.
  destruct (String.eqb (GormTag.gormTag f) ""); rewrite append_cons;
    cbn [Js.trimStart]; now rewrite Hc.
Qed.

(** *** The lines of a struct body *)

Lemma parseGormTag_quoted X post :
  occurs doubleQuote X = false ->
  parseGormTag (gormQuoted +:+ X +:+ String doubleQuote post) = X.
Proof.
  intros HX. unfold parseGormTag.
  rewrite (not_missing_at 0 "g" ("orm:" +:+ String doubleQuote "")); trivial.
  change gormPatterns with (nth 0 gormPatterns Re.Eps :: tl gormPatterns).
  cbn [firstMatch].
  now rewrite (search_here _ _ _ _ (gormPattern_leads 0 X post HX)).
Qed.

Lemma parseFieldLine_printed f :
  goodField f -> parseFieldLine (String tab (printField f)) = [f].
Proof.
  intros Hf. pose proof (trim_printField f Hf) as Ht.
  destruct Hf as (HF & HFw & HT & HTt & HX).
  destruct f as [F T X]. cbn [GormTag.name GormTag.type GormTag.gormTag] in *.
  unfold printField in *. cbn [GormTag.name GormTag.type GormTag.gormTag] in *.
  assert (Hc : exists c F', F = String c F' /\ Js.isWord c = true).
  { destruct F as [|c F']; [congruence|]. exists c, F'. split; [reflexivity|].
    cbn [every] in HFw. now apply andb_true_iff in HFw as [Hc _]. }
  destruct Hc as (c & F' & HcF & Hc).
  destruct (String.eqb X "") eqn:E.
  - apply String.eqb_eq in E. subst X.
    destruct (fieldWithoutTags_leads F " " T) as [p Hm];
      try assumption; try discriminate; try reflexivity.
    apply search_here in Hm.
    pose proof (search_needs _ _ fieldWithTags_needs_backtick _ 0
                  (lacks_backtick_bare F " " T HFw eq_refl HTt)) as Hn.
    subst F. rewrite append_cons in Ht, Hm, Hn |- *.
    rewrite (parseFieldLine_matched_bare _ c _ _ Ht Hc Hn Hm);
      cbn [Re.group Re.caps Nat.eqb]; congruence.
  - destruct (fieldWithTags_leads F " " T " "
                (gormQuoted +:+ X +:+ String doubleQuote "") "")
      as [p Hm]; try assumption; try discriminate; try reflexivity.
    { unfold gormQuoted. rewrite !occurs_app.
      rewrite (occurs_every backtick X); [reflexivity|].
      eapply every_impl; [apply tag_not_backtick|exact HX]. }
    apply search_here in Hm.
    rewrite !append_assoc in Hm.
    change (String doubleQuote "" +:+ String backtick "")
      with (String doubleQuote (String backtick "")) in Hm.
    subst F. rewrite append_cons in Ht, Hm |- *.
    rewrite (parseFieldLine_matched _ c _ _ Ht Hc Hm);
      cbn [Re.group Re.caps Nat.eqb]; try congruence.
    rewrite parseGormTag_quoted; [congruence|].
    apply occurs_every. eapply every_impl; [apply tag_not_quote|exact HX].
Qed.

Lemma split_printLines ls :
  Forall (fun l => occurs newline l = false) ls ->
  Js.split newline (printLines ls) = ls ++ [""].
Proof.
  induction 1 as [|l ls Hl _ IH]; [reflexivity|].
  cbn [printLines app]. now rewrite (split_app_sep _ _ _ Hl), IH.
Qed.

Lemma every_printField f :
  goodField f -> every bodyChar (String tab (printField f)) = true.
Proof.
  intros (_ & HFw & _ & HTt & HX).
  apply (every_impl _ _ _ word_bodyChar) in HFw.
  apply (every_impl _ _ _ type_bodyChar) in HTt.
  apply (every_impl _ _ _ tag_bodyChar) in HX.
  unfold printField, gormQuoted.
  destruct (String.eqb (GormTag.gormTag f) "");
    repeat (rewrite ?every_app; cbn [every]);
    rewrite ?HFw, ?HTt, ?HX; reflexivity.
Qed.

Lemma every_printLines p ls :
  p newline = true -> Forall (fun l => every p l = true) ls ->
  every p (printLines ls) = true.
Proof.
  intros Hn. induction 1 as [|l ls Hl _ IH]; [reflexivity|].
  cbn [printLines]. rewrite every_app, Hl. cbn [every andb].
  now rewrite Hn, IH.
Qed.

Lemma flat_map_parse_printed fs :
  Forall goodField fs ->
  flat_map parseFieldLine (map (fun f => String tab (printField f)) fs) = fs.
Proof.
  induction 1 as [|f fs Hf _ IH]; [reflexivity|].
  cbn [map flat_map]. now rewrite (parseFieldLine_printed f Hf), IH.
Qed.

Lemma not_missing_occurs c s :
  Js.isSpace c = false -> occurs c s = true ->
  negb (Js.truthy s) || Js.isBlank s = false.
Proof.
  intros Hc H. unfold Js.truthy, Js.isBlank, Js.trim.
  apply orb_false_iff. split.
  - destruct s; [discriminate|reflexivity].
  - apply String.eqb_neq, (occurs_trimEnd c); [exact Hc|].
    now apply occurs_trimStart.
Qed.

Lemma occurs_printField f :
  goodField f -> exists c, Js.isSpace c = false /\ occurs c (printField f) = true.
Proof.
  intros (HF & HFw & _). destruct (GormTag.name f) as [|c F] eqn:E;
    [congruence|].
  cbn [every] in HFw. apply andb_true_iff in HFw as [Hc _].
  exists c. split; [now apply word_not_space|].
  unfold printField. rewrite E.
  destruct (String.eqb (GormTag.gormTag f) ""); rewrite append_cons;
    cbn [occurs]; now rewrite Ascii.eqb_refl.
Qed.

Lemma parseFields_printBody s :
  Forall goodField (GoStruct.fields s) ->
  parseFields (printBody s) = GoStruct.fields s.
Proof.
  intros H. unfold parseFields, printBody.
  destruct (GoStruct.fields s) as [|f fs] eqn:E; [reflexivity|].
  assert (Hlines : Forall (fun l => occurs newline l = false)
                     (map (fun f => String tab (printField f)) (f :: fs))).
  { apply List.Forall_map. eapply List.Forall_impl; [|exact H].
    intros g Hg. apply occurs_every.
    eapply every_impl; [apply body_not_newline|now apply every_printField]. }
  assert (Hf : goodField f) by now apply List.Forall_cons_iff in H as [Hf _].
  destruct (occurs_printField f Hf) as (c & Hc & Ho).
  rewrite (not_missing_occurs c).
  - change (Js.split newline (String newline ?r))
      with ("" :: Js.split newline r).
    rewrite (split_printLines _ Hlines).
    cbn [flat_map]. rewrite List.flat_map_app.
    change (parseFieldLine "") with (@nil GormTag.t).
    cbn [flat_map app]. rewrite List.app_nil_r.
    now apply flat_map_parse_printed.
  - exact Hc.
  - cbn [map printLines occurs]. rewrite append_cons. cbn [occurs].
    rewrite occurs_app, Ho. now rewrite !orb_true_r.
Qed.

(** *** The struct expression on a written struct *)

Lemma structRegex_leads N body rest p :
  N <> "" -> every Js.isWord N = true ->
  every (notIn ["{"; "}"]%char) body = true ->
  exists p',
    Re.matchAt structRegex p
      ("type " +:+ N +:+ " struct {" +:+ body +:+ "}" +:+ rest)
    = Some (Re.mkSt p' rest [(2%nat, body); (1%nat, N)]).
Proof.
  intros HN HNw Hbody.
  change ("type " +:+ N +:+ " struct {" +:+ body +:+ "}" +:+ rest)
    with ("type" +:+ " " +:+ N +:+ " " +:+ "struct" +:+ " " +:+ "{"
          +:+ body +:+ "}" +:+ rest).
  eexists. apply matchAt_leads. unfold structRegex. cbn [Re.seq].
  eapply leads_seq; [apply (leads_lit "type")|].
  eapply leads_seq.
  { apply (leads_plus_class Js.isSpace " "); [discriminate|reflexivity|].
    apply (stops_after _ Js.isWord); [apply word_not_space|exact HNw|].
    congruence. }
  eapply leads_seq.
  { apply leads_captured, leads_plus_class; [exact HN|exact HNw|reflexivity]. }
  eapply leads_seq.
  { apply (leads_plus_class Js.isSpace " "); [discriminate|reflexivity|].
    reflexivity. }
  eapply leads_seq; [apply (leads_lit "struct")|].
  eapply leads_seq.
  { apply (leads_star_class Js.isSpace " "); reflexivity. }
  eapply leads_seq; [apply (leads_lit "{")|].
  eapply leads_seq.
  { apply leads_captured. eapply leads_seq.
    - apply leads_star_class; [exact Hbody|reflexivity].
    - apply leads_star_stop. intros R k. cbn [Re.seq]. now rewrite run_lit. }
  apply (leads_lit "}").
Qed.

Lemma structRegex_needs_t p c s :
  Ascii.eqb "t" c = false -> Re.matchAt structRegex p (String c s) = None.
Proof.
  intros H. unfold Re.matchAt, structRegex. cbn [Re.seq].
  rewrite run_lit. cbn [Js.startsWith]. now rewrite H.
Qed.

Lemma structsLoop_skip fuel p c s :
  Ascii.eqb "t" c = false ->
  structsLoop fuel p (String c s) = structsLoop fuel (S p) s.
Proof.
  intros H. destruct fuel as [|fuel]; [reflexivity|].
  cbn [structsLoop Re.search]. now rewrite (structRegex_needs_t p c s H).
Qed.

Lemma every_printBody s :
  Forall goodField (GoStruct.fields s) ->
  every (notIn ["{"; "}"]%char) (printBody s) = true.
Proof.
  intros H. unfold printBody. cbn [every].
  apply andb_true_iff. split; [reflexivity|].
  apply every_printLines; [reflexivity|].
  apply List.Forall_map. eapply List.Forall_impl; [|exact H].
  intros f Hf. apply (every_impl bodyChar); [apply body_not_brace|].
  now apply every_printField.
Qed.

Lemma structsLoop_printed ss :
  Forall goodStruct ss ->
  forall fuel p,
  (String.length (printStructs ss) < fuel)%nat ->
  structsLoop fuel p (printStructs ss) = ss.
Proof.
  induction 1 as [|s ss (HN & HNw & Hfs) _ IH]; intros fuel p Hfuel.
  - destruct fuel as [|fuel]; [cbn in Hfuel; lia|reflexivity].
  - destruct fuel as [|fuel]; [lia|].
    unfold printStructs in *. cbn [map printLines] in *.
    unfold printStruct at 1. rewrite !append_assoc.
    destruct (structRegex_leads (GoStruct.name s) (printBody s)
                (String newline (printLines (map printStruct ss))) p
                HN HNw (every_printBody s Hfs)) as [p' Hm].
    cbn [structsLoop]. rewrite (search_here _ _ _ _ Hm).
    cbn [Re.group Re.caps Nat.eqb Re.rest Re.pos].
    destruct (GoStruct.name s) as [|c N] eqn:E; [congruence|].
    unfold printBody at 1. cbn [Js.truthy String.eqb negb orb app].
    rewrite (parseFields_printBody s Hfs), <- E.
    rewrite structsLoop_skip by reflexivity.
    rewrite IH; [now destruct s|].
    rewrite !length_append in Hfuel. cbn [String.length] in Hfuel. lia.
Qed.

Lemma printStructs_not_blank s ss :
  negb (Js.truthy (printStructs (s :: ss)))
  || Js.isBlank (printStructs (s :: ss)) = false.
Proof.
  apply (not_missing_occurs "t"); [reflexivity|].
  unfold printStructs. cbn [map printLines]. unfold printStruct at 1.
  rewrite !append_assoc. reflexivity.
Qed.

(** X21.  Structs written out as Go, one after the other, each with its
    fields on lines of their own and the GORM tag of a field in a tag
    literal, are read back by the parser as they were: the same structs,
    fields, types and GORM tags, in the same order.  The names are words,
    the types are made of what a type may hold, and the tags hold no
    double quote, backtick, newline or brace. *)
Theorem written_structs_are_read_back (ss : list GoStruct.t) :
  Forall goodStruct ss -> parseGoStructs (printStructs ss) = ss.
Proof.
  intros H. unfold parseGoStructs.
  destruct ss as [|s ss]; [reflexivity|].
  rewrite printStructs_not_blank.
  apply structsLoop_printed; [exact H|lia].
Qed.

Lemma written_structs_are_read_back_witness :
  parseGoStructs (printStructs sampleStructs) = sampleStructs.
Proof.
  apply written_structs_are_read_back.
  repeat constructor; discriminate.
Defined.

(** X22.  For a document that holds structs written out in this way, what
    is published is what the validator finds on these structs: the
    messages and severities of its findings, in order, up to the cap. *)
Theorem findings_of_a_written_file
  (settings : GormLanguageServerSettings) (hasRelated : bool) (uri : string)
  (ss : list GoStruct.t) :
  Forall goodStruct ss ->
  map (fun D => (lspMessage D, severity D))
    (validateGoFile settings hasRelated uri (printStructs ss))
  = map (fun d => (message d, severityOf (level d)))
      (limitedDiagnostics settings (validateGormTags ss)).
Proof.
  intros H. rewrite validateGoFile_eq, List.map_map.
  assert (Hp : parseGoStructs (printStructs ss) = ss).
  { unfold parseGoStructs. destruct ss as [|s ss]; [reflexivity|].
    rewrite printStructs_not_blank.
    apply structsLoop_printed; [exact H|lia]. }
  rewrite Hp. apply List.map_ext. now intros d.
Qed.

Lemma findings_of_a_written_file_witness :
  map (fun D => (lspMessage D, severity D))
    (validateGoFile defaultSettings false "file:///a.go"
       (printStructs sampleStructs))
  = map (fun d => (message d, severityOf (level d)))
      (limitedDiagnostics defaultSettings (validateGormTags sampleStructs)).
Proof.
  apply findings_of_a_written_file.
  repeat constructor; discriminate.
Defined.

(** ** The settings of a document *)

(** X23.  With the configuration capability, the settings of a document
    are asked from the client once and then served from the cache, even if
    the client would answer differently by then, until the document is
    closed or the configuration changes: then the client is asked again.
    Closing another document does not touch them. *)
Theorem settings_cached_until_invalidated
  (client client' : string -> GormLanguageServerSettings)
  (st : ServerState) (uri : string) :
  hasConfigurationCapability st = true ->
  let r := fst (getDocumentSettings client st uri) in
  let st1 := snd (getDocumentSettings client st uri) in
  getDocumentSettings client' st1 uri = (r, st1)
  /\ fst (getDocumentSettings client' (onDidClose st1 uri) uri) = client' uri
  /\ (forall other change,
        fst (getDocumentSettings client'
               (onDidChangeConfiguration st1 change) other)
        = client' other)
  /\ (forall other, other <> uri ->
        fst (getDocumentSettings client' (onDidClose st1 other) uri) = r).
Proof.
  intros Hcap r st1.
  assert (Hcap1 : hasConfigurationCapability st1 = true).
  { unfold st1, getDocumentSettings. rewrite Hcap. cbn [negb].
    now destruct (documentSettings st !! uri). }
  assert (Hr : documentSettings st1 !! uri = Some r).
  { unfold st1, r, getDocumentSettings. rewrite Hcap. cbn [negb].
    destruct (documentSettings st !! uri) eqn:E; cbn [fst snd];
      [exact E|]. cbn [documentSettings]. apply lookup_insert_eq. }
  repeat split.
  - unfold getDocumentSettings. now rewrite Hcap1, Hr.
  - unfold getDocumentSettings, onDidClose.
    cbn [hasConfigurationCapability documentSettings].
    now rewrite Hcap1, lookup_delete_eq.
  - intros other change. unfold getDocumentSettings, onDidChangeConfiguration.
    rewrite Hcap1. cbn [hasConfigurationCapability documentSettings negb].
    now rewrite lookup_empty.
  - intros other Hne. unfold getDocumentSettings, onDidClose.
    cbn [hasConfigurationCapability documentSettings].
    rewrite Hcap1. cbn [negb]. rewrite lookup_delete_ne by exact Hne.
    now rewrite Hr.
Qed.

Lemma settings_cached_witness :
  let client := fun _ : string => capOf 5 in
  let client' := fun _ : string => capOf 7 in
  let st1 := snd (getDocumentSettings client (initialServer true) "a.go") in
  getDocumentSettings client' st1 "a.go" = (capOf 5, st1)
  /\ fst (getDocumentSettings client' (onDidClose st1 "a.go") "a.go") = capOf 7.
Proof.
  intros client client' st1.
  destruct (settings_cached_until_invalidated client client'
              (initialServer true) "a.go" eq_refl) as (H1 & H2 & _).
  split; [exact H1|exact H2].
Defined.

(** X24.  Without the configuration capability the settings of every
    document are the global ones, the client is not asked and nothing is
    cached; a configuration change replaces the global settings by the ones
    it brings, or by the defaults when it brings none. *)
Theorem global_settings_without_capability
  (client : string -> GormLanguageServerSettings) (st : ServerState)
  (uri : string) (change : option GormLanguageServerSettings) :
  hasConfigurationCapability st = false ->
  getDocumentSettings client st uri = (globalSettings st, st)
  /\ fst (getDocumentSettings client (onDidChangeConfiguration st change) uri)
     = match change with Some s => s | None => defaultSettings end
  /\ documentSettings (onDidChangeConfiguration st change)
     = documentSettings st.
Proof.
  intros Hcap. unfold getDocumentSettings, onDidChangeConfiguration.
  rewrite Hcap. cbn [negb hasConfigurationCapability].
  now repeat split.
Qed.

Lemma global_settings_witness :
  fst (getDocumentSettings (fun _ => capOf 7)
         (onDidChangeConfiguration (initialServer false) None) "a.go")
  = defaultSettings.
Proof.
  apply (global_settings_without_capability (fun _ => capOf 7)
           (initialServer false) "a.go" None eq_refl).
Defined.
